(** * digital-twin-house: geometric core

    A shallow embedding of the geometric analysis code of the repository:

    - the collision utility ([../utils/collision] of the importers; lines
      355-436 of [src/store/useHouseStore.ts] in this tree): [getFootprint],
      [project], [sat2D], [checkCollision], [getCollidingIds];
    - the wall-snap utility (lines 293-354 of the same file):
      [columnEdgeCenter], [findNearestWall];
    - [src/utils/floorPlanAnalyzer.ts]: [analyzeFloorPlan], [dilateWalls].

    Number model.  JavaScript numbers are IEEE 754 binary64 values.  The
    collision test is embedded twice.  Module [F64] reads it on binary64
    numbers themselves: arithmetic rounds as in JavaScript, [Math.min],
    [Math.max] and the comparisons treat NaN, the infinities and the signed
    zeros as ECMAScript says, and the engine's approximations of cosine and
    sine are parameters.  The contract of [checkCollision] is stated and
    proved there, and so is what rounding does to it.  Outside [F64] the
    collision code, the wall-snap utility, the store and the editors are
    read on real numbers ([R]), with [Math.cos], [Math.sin], [Math.max],
    [Math.min] and [Math.hypot] as their real counterparts; rounding,
    infinities and NaN are outside that reading, which serves the
    properties that do not turn on them.  The raster analyzer works on
    integer pixel indices ([Z]) and byte arrays ([list Z]); the size of its
    raster and its three floating-point comparisons (luma threshold, 30%
    polarity test, minimum area) are computed with binary64 floats so that
    they agree with the source bit for bit.  Its two breadth-first searches
    take fuel and return [None] when it runs out;
    [analyzeFloorPlan_terminates] shows that this never happens. *)

From Stdlib Require Import Reals Lra ZArith Lia.
From Stdlib Require PrimFloat Uint63 FloatAxioms SpecFloat FloatOps FloatClass.
From stdpp Require Import gmap strings list pretty.

(** ** Data model ([src/types/index.ts]) *)

Module Room.
Record t : Type := mk
  { id : string;
    name : string;
    x : R;
    y : R;
    width : R;
    height : R;
    color : string }.
End Room.

Module Furniture.
(** [rotation] and [elevation] are required by the interface, but records
    persisted by older versions lack them and the collision code reads them
    through [?? 0]; [None] stands for such a missing field. *)
Record t : Type := mk
  { id : string;
    name : string;
    position : R * R * R;
    size : R * R * R;
    color : string;
    rotation : option R;
    elevation : option R }.
End Furniture.

Inductive Axis : Type := AxisH | AxisV.

Module WallHit.
Record t : Type := mk
  { canvasX : R;
    canvasY : R;
    wallAxis : Axis }.
End WallHit.

(** Comparisons of numbers are decided; the instances let the embedding use
    [bool_decide] and [if decide ...] where the source has [<=], [>=], [<]
    and [===]. *)
#[global] Instance Rle_decision : RelDecision Rle := Rle_dec.
#[global] Instance Rge_decision : RelDecision Rge := Rge_dec.
#[global] Instance Rlt_decision : RelDecision Rlt := Rlt_dec.
#[global] Instance Req_decision : EqDecision R := Req_dec_T.

(** ** Collision engine *)

Definition Point : Type := (R * R)%type.

(** [a ?? 0] *)
Definition orZero (a : option R) : R := default 0%R a.

Definition getFootprint (f : Furniture.t) : list Point :=
  let '(w, _, d) := Furniture.size f in
  let '(px, _, pz) := Furniture.position f in
  let rot := orZero (Furniture.rotation f) in
  let cos := cos rot in
  let sin := sin rot in
  let hw := (w / 2)%R in
  let hd := (d / 2)%R in
  map (fun '(lx, lz) =>
         ((px + lx * cos - lz * sin)%R, (pz + lx * sin + lz * cos)%R))
      [ ((- hw)%R, (- hd)%R);
        (hw, (- hd)%R);
        (hw, hd);
        ((- hw)%R, hd) ].

(** [Math.min(...dots)] and [Math.max(...dots)].  Every list reaching them
    is the image of a four-corner footprint; on the empty list JavaScript
    answers with an infinity, which the real-number model does not have, and
    [0] is returned there instead. *)
Definition minimum (l : list R) : R :=
  match l with
  | [] => 0%R
  | d :: ds => foldl Rmin d ds
  end.

Definition maximum (l : list R) : R :=
  match l with
  | [] => 0%R
  | d :: ds => foldl Rmax d ds
  end.

Definition project (pts : list Point) (nx ny : R) : R * R :=
  let dots := map (fun '(x, y) => (x * nx + y * ny)%R) pts in
  (minimum dots, maximum dots).

(** The point [poly[i]]; the loops below only read indices in range. *)
Definition vertex (poly : list Point) (i : nat) : Point :=
  default (0%R, 0%R) (poly !! i).

(** The normal [(nx, ny)] computed for the edge leaving vertex [i]. *)
Definition edgeNormal (poly : list Point) (i : nat) : R * R :=
  let j := ((i + 1) mod length poly)%nat in
  let ex := (fst (vertex poly j) - fst (vertex poly i))%R in
  let ey := (snd (vertex poly j) - snd (vertex poly i))%R in
  ((- ey)%R, ex).

Definition edgeNormals (poly : list Point) : list (R * R) :=
  map (edgeNormal poly) (seq 0 (length poly)).

(** The test [maxA <= minB || maxB <= minA] on one axis. *)
Definition separatedOn (a b : list Point) (n : R * R) : bool :=
  let '(minA, maxA) := project a (fst n) (snd n) in
  let '(minB, maxB) := project b (fst n) (snd n) in
  bool_decide (maxA <= minB)%R || bool_decide (maxB <= minA)%R.

(** The two nested loops return [false] at the first separating axis and
    [true] when none is found. *)
Definition sat2D (a b : list Point) : bool :=
  forallb (fun poly => forallb (fun n => negb (separatedOn a b n)) (edgeNormals poly))
          [a; b].

Definition bottom (f : Furniture.t) : R := orZero (Furniture.elevation f).
Definition top (f : Furniture.t) : R := (bottom f + snd (fst (Furniture.size f)))%R.

Definition checkCollision (a b : Furniture.t) : bool :=
  let aBot := bottom a in
  let aTop := top a in
  let bBot := bottom b in
  let bTop := top b in
  if bool_decide (aBot >= bTop)%R || bool_decide (bBot >= aTop)%R then false
  else sat2D (getFootprint a) (getFootprint b).

(** Inner loop [for (j = i + 1; ...)]: [fi] is [furniture[i]], [rest] the
    items after it. *)
Definition collideWithRest (fi : Furniture.t) (rest : list Furniture.t)
    (ids : gset string) : gset string :=
  foldl (fun ids fj =>
           if checkCollision fi fj
           then {[Furniture.id fj]} ∪ ({[Furniture.id fi]} ∪ ids)
           else ids)
        ids rest.

(** Outer loop [for (i = 0; ...)]. *)
Fixpoint collideAll (furniture : list Furniture.t) (ids : gset string) : gset string :=
  match furniture with
  | [] => ids
  | fi :: rest => collideAll rest (collideWithRest fi rest ids)
  end.

Definition getCollidingIds (furniture : list Furniture.t) : gset string :=
  collideAll furniture ∅.

(** ** Collision engine on binary64 numbers

    JavaScript numbers are IEEE 754 binary64 values, and the answer of
    [checkCollision] can turn on the last bit of a product or on a NaN.
    Module [F64] is the code of lines 355-422 once more, on Rocq's
    primitive floats: [+], [-], [*] and [/] round to nearest (ties to even)
    as in JavaScript, and [<=], [<] and [==] are the IEEE comparisons, all
    false when an operand is NaN. *)

Module F64.
Import PrimFloat.
#[local] Open Scope float_scope.

Module Furniture.
Record t : Type := mk
  { id : string;
    name : string;
    position : float * float * float;
    size : float * float * float;
    color : string;
    rotation : option float;
    elevation : option float }.
End Furniture.

Definition Point : Type := (float * float)%type.

(** [a ?? 0] *)
Definition orZero (a : option float) : float := default 0 a.

Definition isNegZero (x : float) : bool :=
  match classify x with FloatClass.NZero => true | _ => false end.

Definition isPosZero (x : float) : bool :=
  match classify x with FloatClass.PZero => true | _ => false end.

(** One step of [Math.min] (ECMAScript 21.3.2.25): a NaN argument makes
    the result NaN, [-0] counts as smaller than [+0], otherwise the smaller
    number is kept.  [lowest] is the result so far. *)
Definition minStep (lowest number : float) : float :=
  if is_nan lowest then lowest
  else if is_nan number then nan
  else if isNegZero number && isPosZero lowest then number
  else if number <? lowest then number
  else lowest.

(** One step of [Math.max] (ECMAScript 21.3.2.24). *)
Definition maxStep (highest number : float) : float :=
  if is_nan highest then highest
  else if is_nan number then nan
  else if isPosZero number && isNegZero highest then number
  else if highest <? number then number
  else highest.

(** [Math.min(...l)] and [Math.max(...l)]: the infinities on no argument. *)
Definition mathMin (l : list float) : float := foldl minStep infinity l.
Definition mathMax (l : list float) : float := foldl maxStep neg_infinity l.

(** [Math.cos] and [Math.sin] (ECMAScript 21.3.2.12 and 21.3.2.30).  The
    standard fixes their values at the zeros, the infinities and NaN, and
    leaves the rest to the engine ("implementation-approximated"): the
    engine's approximations are the parameters [cos] and [sin]. *)
Definition mathCos (cos : float → float) (x : float) : float :=
  if is_nan x || is_infinity x then nan
  else if is_zero x then 1
  else cos x.

Definition mathSin (sin : float → float) (x : float) : float :=
  if is_nan x || is_zero x then x
  else if is_infinity x then nan
  else sin x.

Definition getFootprint (cos sin : float → float) (f : Furniture.t) : list Point :=
  let '(w, _, d) := Furniture.size f in
  let '(px, _, pz) := Furniture.position f in
  let rot := orZero (Furniture.rotation f) in
  let cos := mathCos cos rot in
  let sin := mathSin sin rot in
  let hw := w / 2 in
  let hd := d / 2 in
  map (fun '(lx, lz) => (px + lx * cos - lz * sin, pz + lx * sin + lz * cos))
      [ (- hw, - hd); (hw, - hd); (hw, hd); (- hw, hd) ].

Definition project (pts : list Point) (nx ny : float) : float * float :=
  let dots := map (fun '(x, y) => x * nx + y * ny) pts in
  (mathMin dots, mathMax dots).

(** The point [poly[i]]; the loops below only read indices in range. *)
Definition vertex (poly : list Point) (i : nat) : Point :=
  default (0, 0) (poly !! i).

Definition edgeNormal (poly : list Point) (i : nat) : float * float :=
  let j := ((i + 1) mod length poly)%nat in
  let ex := fst (vertex poly j) - fst (vertex poly i) in
  let ey := snd (vertex poly j) - snd (vertex poly i) in
  (- ey, ex).

Definition edgeNormals (poly : list Point) : list (float * float) :=
  map (edgeNormal poly) (seq 0 (length poly)).

(** The test [maxA <= minB || maxB <= minA] on one axis. *)
Definition separatedOn (a b : list Point) (n : float * float) : bool :=
  let '(minA, maxA) := project a (fst n) (snd n) in
  let '(minB, maxB) := project b (fst n) (snd n) in
  (maxA <=? minB) || (maxB <=? minA).

Definition sat2D (a b : list Point) : bool :=
  forallb (fun poly => forallb (fun n => negb (separatedOn a b n)) (edgeNormals poly))
          [a; b].

Definition bottom (f : Furniture.t) : float := orZero (Furniture.elevation f).
Definition top (f : Furniture.t) : float := bottom f + snd (fst (Furniture.size f)).

(** [aBot >= bTop] is written [bTop <=? aBot]: on every pair of binary64
    values, NaN included, [x >= y] and [y <= x] agree. *)
Definition checkCollision (cos sin : float → float) (a b : Furniture.t) : bool :=
  let aBot := bottom a in
  let aTop := top a in
  let bBot := bottom b in
  let bTop := top b in
  if (bTop <=? aBot) || (aTop <=? bBot) then false
  else sat2D (getFootprint cos sin a) (getFootprint cos sin b).

(** *** Vocabulary of the statements about [F64]

    What follows is not part of the program.  It says in the words of the
    specification what the projections of a footprint on an axis, the range
    they span and the overlap of two ranges are, without the code's
    [project] and [edgeNormals]. *)

(** The scalar a corner [p] projects to on the axis [n]. *)
Definition dot (p n : Point) : float := fst p * fst n + snd p * snd n.

Definition dots (poly : list Point) (n : Point) : list float := (λ p, dot p n) <$> poly.

(** [m] is a least (greatest) element of [l]: it equals ([==]) one of its
    elements and is [<=] ([>=]) all of them.  No such [m] exists when [l]
    holds a NaN. *)
Definition least (m : float) (l : list float) : Prop :=
  (∃ d, d ∈ l ∧ (m =? d) = true) ∧ ∀ d, d ∈ l → (m <=? d) = true.

Definition greatest (m : float) (l : list float) : Prop :=
  (∃ d, d ∈ l ∧ (m =? d) = true) ∧ ∀ d, d ∈ l → (d <=? m) = true.

(** The footprint [poly] spans the range from [lo] to [hi] on the axis [n]. *)
Definition range (poly : list Point) (n : Point) (lo hi : float) : Prop :=
  least lo (dots poly n) ∧ greatest hi (dots poly n).

(** The normal of the edge from [p] to [q]. *)
Definition normal (p q : Point) : Point := (- (snd q - snd p), fst q - fst p).

(** The edge normals of a polygon, one per pair of consecutive corners. *)
Definition edgeAxes (poly : list Point) : list Point :=
  (λ e, normal (fst e) (snd e)) <$> zip poly (rotate 1 poly).

(** The candidate axes of the test: the edge normals of both footprints. *)
Definition satAxes (pa pb : list Point) : list Point := edgeAxes pa ++ edgeAxes pb.

(** On the axis [n] the two ranges overlap strictly. *)
Definition overlapOn (pa pb : list Point) (n : Point) : Prop :=
  ∃ minA maxA minB maxB,
    range pa n minA maxA ∧ range pb n minB maxB
    ∧ (minA <? maxB) = true ∧ (minB <? maxA) = true.

(** On the axis [n] the two ranges touch: [max == min]. *)
Definition touchingOn (pa pb : list Point) (n : Point) : Prop :=
  ∃ minA maxA minB maxB,
    range pa n minA maxA ∧ range pb n minB maxB
    ∧ ((maxA =? minB) = true ∨ (maxB =? minA) = true).

Definition planarOverlap (pa pb : list Point) : Prop :=
  ∀ n, n ∈ satAxes pa pb → overlapOn pa pb n.

(** The extents [[bottom, top)] overlap strictly. *)
Definition verticalOverlap (a b : Furniture.t) : Prop :=
  (bottom a <? top b) = true ∧ (bottom b <? top a) = true.

(** The extents meet at a single value. *)
Definition verticalTouch (a b : Furniture.t) : Prop :=
  (top a =? bottom b) = true ∨ (top b =? bottom a) = true.

(** No NaN among the numbers the test compares: the four ends of the
    extents and the projections of the corners on the candidate axes. *)
Definition numeric (cos sin : float → float) (a b : Furniture.t) : bool :=
  let pa := getFootprint cos sin a in
  let pb := getFootprint cos sin b in
  forallb (λ x, negb (is_nan x)) [bottom a; top a; bottom b; top b]
  && forallb (λ n, forallb (λ x, negb (is_nan x)) (dots pa n ++ dots pb n))
             (satAxes pa pb).

Definition numbers (l : list float) : Prop := Forall (λ d, is_nan d = false) l.

(** The order of binary64 numbers, read off their sign, exponent and
    mantissa: [rank] maps a number to a triple of integers ordered
    lexicographically as the numbers are ([-0] and [+0] share a rank). *)
Definition rank (f : SpecFloat.spec_float) : Z * Z * Z :=
  match f with
  | SpecFloat.S754_zero _ | SpecFloat.S754_nan => (0, 0, 0)%Z
  | SpecFloat.S754_infinity true => (-2, 0, 0)%Z
  | SpecFloat.S754_infinity false => (2, 0, 0)%Z
  | SpecFloat.S754_finite true m e => (-1, - e, Z.neg m)%Z
  | SpecFloat.S754_finite false m e => (1, e, Z.pos m)%Z
  end.

Definition lexlt (a b : Z * Z * Z) : Prop :=
  (a.1.1 < b.1.1 ∨ a.1.1 = b.1.1 ∧ (a.1.2 < b.1.2 ∨ a.1.2 = b.1.2 ∧ a.2 < b.2))%Z.

Definition rk (x : float) : Z * Z * Z := rank (FloatOps.Prim2SF x).

(** Pieces for the examples.  [quarterCos] and [quarterSin] are an engine's
    cosine and sine at the two angles the examples turn a piece by: a
    quarter turn, [Math.PI / 2], and the rotation four presses of [R] leave
    behind, [fullTurn] (the correctly rounded values, which the common
    engines return); NaN marks the angles the examples never ask for. *)
Set Warnings "-inexact-float".
Definition halfPi : float := 1.5707963267948966.
Definition fullTurn : float := 0 + halfPi + halfPi + halfPi + halfPi.

Definition quarterCos (x : float) : float :=
  if x =? halfPi then 6.123233995736766e-17
  else if x =? fullTurn then 1
  else nan.

Definition quarterSin (x : float) : float :=
  if x =? halfPi then 1
  else if x =? fullTurn then -2.4492935982947064e-16
  else nan.

Definition box (id : string) (x y z w h d rot elev : float) : Furniture.t :=
  Furniture.mk id id (x, y, z) (w, h, d) "#888888" (Some rot) (Some elev).

(** The scenario of the specification: [A] at the origin, [B] at [(x, 0, 0)],
    both 2 by 1 by 2, unrotated, on the floor. *)
Definition boxA : Furniture.t := box "A" 0 0 0 2 1 2 0 0.
Definition boxB (x : float) : Furniture.t := box "B" x 0 0 2 1 2 0 0.

(** A bed and a sofa of the palette at [(x, 0)], and what [ArrowRight]
    does to the [x] of the selected piece. *)
Definition bed (x : float) : Furniture.t := box "bed" x 0.25 0 1.4 0.5 2.0 0 0.
Definition sofa (x : float) : Furniture.t := box "sofa" x 0.35 0 1.8 0.7 0.8 0 0.
Definition arrowRight (x : float) : float := x + 0.2.

(** A piece as [parseCSV] produces it from a row whose [x] cell is not a
    number ([parseFloat] answers NaN, and only [w], [h] and [d] are
    checked), and a piece a hundred metres away. *)
Definition lost : Furniture.t := box "lost" nan 0.25 0 1 0.5 1 0 0.
Definition far : Furniture.t := box "far" 100 0.25 0 1 0.5 1 0 0.

(** A piece from a row whose [elevation] cell is not a number (its
    [position[1]], [elev + h / 2], is NaN as well), and a piece of the same
    footprint fifty metres up. *)
Definition adrift : Furniture.t := box "adrift" 0 nan 0 1 0.5 1 0 nan.
Definition above : Furniture.t := box "above" 0 50.25 0 1 0.5 1 0 50.

(** Two sofas side by side, the second turned by [rot]. *)
Definition sofaFront : Furniture.t := box "front" 0 0.35 0 1.8 0.7 0.8 0 0.
Definition sofaBack (rot : float) : Furniture.t := box "back" 0 0.35 0.8 1.8 0.7 0.8 rot 0.
Set Warnings "+inexact-float".

End F64.

(** ** Wall snapping *)

Module Cursor.
Record t : Type := mk { cx : R; cy : R }.
End Cursor.

Module CanvasPos.
Record t : Type := mk { canvasX : R; canvasY : R }.
End CanvasPos.

Definition columnEdgeCenter (cursor : Cursor.t) (wall : WallHit.t) (depthPx : R)
    : CanvasPos.t :=
  let dh := (depthPx / 2)%R in
  match WallHit.wallAxis wall with
  | AxisH =>
      let offsetY :=
        if decide (Cursor.cy cursor >= WallHit.canvasY wall)%R then dh else (- dh)%R in
      CanvasPos.mk (WallHit.canvasX wall) (WallHit.canvasY wall + offsetY)%R
  | AxisV =>
      let offsetX :=
        if decide (Cursor.cx cursor >= WallHit.canvasX wall)%R then dh else (- dh)%R in
      CanvasPos.mk (WallHit.canvasX wall + offsetX)%R (WallHit.canvasY wall)
  end.

Module Seg.
Record t : Type := mk { x1 : R; y1 : R; x2 : R; y2 : R; axis : Axis }.
End Seg.

(** The array [segs] built for one room: top, bottom, left, right. *)
Definition segs (room : Room.t) : list Seg.t :=
  let x := Room.x room in
  let y := Room.y room in
  let width := Room.width room in
  let height := Room.height room in
  [ Seg.mk x y (x + width)%R y AxisH;
    Seg.mk x (y + height)%R (x + width)%R (y + height)%R AxisH;
    Seg.mk x y x (y + height)%R AxisV;
    Seg.mk (x + width)%R y (x + width)%R (y + height)%R AxisV ].

Definition hypot (a b : R) : R := sqrt (a * a + b * b).

(** The clamped projection parameter of [(cx, cy)] on a segment. *)
Definition clampedParam (seg : Seg.t) (cx cy : R) : R :=
  let dx := (Seg.x2 seg - Seg.x1 seg)%R in
  let dy := (Seg.y2 seg - Seg.y1 seg)%R in
  let lenSq := (dx * dx + dy * dy)%R in
  Rmax (5 / 100) (Rmin (95 / 100)
    (((cx - Seg.x1 seg) * dx + (cy - Seg.y1 seg) * dy) / lenSq)).

(** The point of a segment at parameter [t]. *)
Definition pointAt (seg : Seg.t) (t : R) : R * R :=
  ((Seg.x1 seg + t * (Seg.x2 seg - Seg.x1 seg))%R,
   (Seg.y1 seg + t * (Seg.y2 seg - Seg.y1 seg))%R).

(** The loop state is [(best, bestDist)]. *)
Definition SnapState : Type := (option WallHit.t * R)%type.

(** Body of [for (const seg of segs)]. *)
Definition considerSeg (cx cy : R) (st : SnapState) (seg : Seg.t) : SnapState :=
  let dx := (Seg.x2 seg - Seg.x1 seg)%R in
  let dy := (Seg.y2 seg - Seg.y1 seg)%R in
  let lenSq := (dx * dx + dy * dy)%R in
  if decide (lenSq = 0%R) then st
  else
    let t := clampedParam seg cx cy in
    let '(px, py) := pointAt seg t in
    let d := hypot (cx - px) (cy - py) in
    if decide (d < snd st)%R
    then (Some (WallHit.mk px py (Seg.axis seg)), d)
    else st.

(** Body of [for (const room of rooms)]. *)
Definition considerRoom (cx cy : R) (st : SnapState) (room : Room.t) : SnapState :=
  foldl (considerSeg cx cy) st (segs room).

(** [snapDist] is passed explicitly; callers that omit it get [14]. *)
Definition findNearestWall (rooms : list Room.t) (cx cy snapDist : R)
    : option WallHit.t :=
  fst (foldl (considerRoom cx cy) (None, snapDist) rooms).

Definition defaultSnapDist : R := 14%R.

(** ** Raster floor-plan analyzer ([src/utils/floorPlanAnalyzer.ts])

    Step 0 of [analyzeFloorPlan] asks the browser to draw the image, scaled
    down to at most [MAX_SIZE] pixels a side, and to hand back the pixels.
    Steps 1 to 4 work on what [getImageData] returns, the raster size [w],
    [h] and the RGBA byte array [data]; they come first below, and Step 0
    and the whole call ([analyzeFloorPlanImage]) after them. *)

Definition ROOM_COLORS : list string :=
  [ "#4a90d9"; "#7ed321"; "#f5a623"; "#d0021b";
    "#9013fe"; "#50e3c2"; "#b8e986"; "#f8e71c" ].

Definition MAX_SIZE : Z := 400.
Definition DILATE_RADIUS : Z := 6.

Section FloatConstants.
Import PrimFloat.
Set Warnings "-inexact-float".
Definition WALL_THRESHOLD : PrimFloat.float := 200%float.
Definition MIN_AREA_RATIO : PrimFloat.float := 0.008%float.
Definition LUMA_R : PrimFloat.float := 0.299%float.
Definition LUMA_G : PrimFloat.float := 0.587%float.
Definition LUMA_B : PrimFloat.float := 0.114%float.
Definition POLARITY_RATIO : PrimFloat.float := 0.3%float.
Set Warnings "+inexact-float".
End FloatConstants.

Definition OPEN : Z := 1.
Definition WALL : Z := 0.
Definition EXTERIOR : Z := 2.

(** An integer as a JavaScript number (exact below 2^53). *)
Definition num (z : Z) : PrimFloat.float := PrimFloat.of_uint63 (Uint63.of_Z z).

(** Typed-array read [a[i]]: [None] is [undefined]. *)
Definition arrGet (a : list Z) (i : Z) : option Z :=
  if (i <? 0)%Z then None else a !! Z.to_nat i.

(** Typed-array write [a[i] = v]: ignored out of range. *)
Definition arrSet (a : list Z) (i : Z) (v : Z) : list Z :=
  if (i <? 0)%Z then a else <[Z.to_nat i := v]> a.

(** Step 1, one pixel.  A missing byte makes [gray] NaN and the comparison
    false. *)
Definition binarizePixel (data : list Z) (i : Z) : Z :=
  match arrGet data (i * 4), arrGet data (i * 4 + 1), arrGet data (i * 4 + 2) with
  | Some r, Some g, Some b =>
      let gray :=
        PrimFloat.add
          (PrimFloat.add (PrimFloat.mul LUMA_R (num r)) (PrimFloat.mul LUMA_G (num g)))
          (PrimFloat.mul LUMA_B (num b)) in
      if PrimFloat.leb WALL_THRESHOLD gray then OPEN else WALL
  | _, _, _ => WALL
  end.

Definition binarize (w h : Z) (data : list Z) : list Z :=
  map (binarizePixel data) (seqZ 0 (w * h)).

(** [binary.reduce((s, v) => s + v, 0)] *)
Definition openCount (binary : list Z) : Z := foldl Z.add 0%Z binary.

(** [openCount < w * h * 0.3] *)
Definition needsInversion (w h : Z) (binary : list Z) : bool :=
  PrimFloat.ltb (num (openCount binary)) (PrimFloat.mul (num (w * h)) POLARITY_RATIO).

Definition invertPixel (v : Z) : Z := if decide (v = OPEN) then WALL else OPEN.

Definition fixPolarity (w h : Z) (binary : list Z) : list Z :=
  if needsInversion w h binary then map invertPixel binary else binary.

(** Step 2.  [dilateRow] is the innermost loop over [nx], [dilateBlock] the
    loop over [ny] around it, [dilateAt] the body of the loop over [x]. *)
Definition dilateRow (w ny x0 x1 : Z) (dst : list Z) : list Z :=
  foldl (fun dst nx => arrSet dst (ny * w + nx) WALL) dst (seqZ x0 (x1 - x0 + 1)).

Definition dilateBlock (w x0 x1 y0 y1 : Z) (dst : list Z) : list Z :=
  foldl (fun dst ny => dilateRow w ny x0 x1 dst) dst (seqZ y0 (y1 - y0 + 1)).

Definition dilateAt (src : list Z) (w h radius y : Z) (dst : list Z) (x : Z) : list Z :=
  if decide (arrGet src (y * w + x) = Some WALL) then
    let y0 := Z.max 0 (y - radius) in
    let y1 := Z.min (h - 1) (y + radius) in
    let x0 := Z.max 0 (x - radius) in
    let x1 := Z.min (w - 1) (x + radius) in
    dilateBlock w x0 x1 y0 y1 dst
  else dst.

Definition dilateWalls (src : list Z) (w h radius : Z) : list Z :=
  foldl (fun dst y => foldl (dilateAt src w h radius y) dst (seqZ 0 w))
        src (seqZ 0 h).

(** Step 3.  The flood state is [(labeled, queue)]; [queue] holds the
    entries from [head] on, so [queue[head++]] takes its first element and
    [queue.push] appends. *)
Definition FloodState : Type := (list Z * list Z)%type.

Definition enqueueEdge (w : Z) (st : FloodState) (x y : Z) : FloodState :=
  let idx := (y * w + x)%Z in
  if decide (arrGet (fst st) idx = Some OPEN)
  then (arrSet (fst st) idx EXTERIOR, snd st ++ [idx])
  else st.

Definition seedBorder (w h : Z) (labeled : list Z) : FloodState :=
  let st :=
    foldl (fun st x => enqueueEdge w (enqueueEdge w st x 0) x (h - 1))
          (labeled, []) (seqZ 0 w) in
  foldl (fun st y => enqueueEdge w (enqueueEdge w st 0 y) (w - 1) y)
        st (seqZ 1 (h - 2)).

Definition DIRS : list (Z * Z) := [ (-1, 0); (1, 0); (0, -1); (0, 1) ]%Z.

Definition inBounds (w h nx ny : Z) : bool :=
  negb ((nx <? 0)%Z || (nx >=? w)%Z || (ny <? 0)%Z || (ny >=? h)%Z).

(** Body of the loop over the four neighbours of [(cx, cy)]. *)
Definition floodVisit (w h cx cy : Z) (st : FloodState) (d : Z * Z) : FloodState :=
  let nx := (cx + fst d)%Z in
  let ny := (cy + snd d)%Z in
  if inBounds w h nx ny then
    let nidx := (ny * w + nx)%Z in
    if decide (arrGet (fst st) nidx = Some OPEN)
    then (arrSet (fst st) nidx EXTERIOR, snd st ++ [nidx])
    else st
  else st.

(** [while (head < queue.length)]: [None] when [fuel] iterations were not
    enough to empty the queue. *)
Fixpoint floodLoop (fuel : nat) (w h : Z) (labeled queue : list Z) : option (list Z) :=
  match queue with
  | [] => Some labeled
  | curr :: rest =>
      match fuel with
      | O => None
      | S fuel =>
          let cx := Z.rem curr w in
          let cy := Z.quot curr w in
          let st := foldl (floodVisit w h cx cy) (labeled, rest) DIRS in
          floodLoop fuel w h (fst st) (snd st)
      end
  end.

(** Every pixel enters the queue at most once, so [length dilated]
    iterations empty it (lemma [floodExterior_total]). *)
Definition floodExterior (w h : Z) (dilated : list Z) : option (list Z) :=
  let st := seedBorder w h dilated in
  floodLoop (length dilated) w h (fst st) (snd st).

(** Step 4.  A connected component under construction: the running
    [minX], [maxX], [minY], [maxY] and [area]. *)
Module Region.
Record t : Type := mk { minX : Z; maxX : Z; minY : Z; maxY : Z; area : Z }.
End Region.

(** [!visited[i]]: true on [0] and on [undefined]. *)
Definition falsy (v : option Z) : bool :=
  match v with
  | Some v => (v =? 0)%Z
  | None => true
  end.

(** The region state is [(visited, regionQueue)], the queue as in step 3. *)
Definition regionVisit (w h : Z) (labeled : list Z) (cx cy : Z)
    (st : list Z * list Z) (d : Z * Z) : list Z * list Z :=
  let nx := (cx + fst d)%Z in
  let ny := (cy + snd d)%Z in
  if inBounds w h nx ny then
    let nidx := (ny * w + nx)%Z in
    if bool_decide (arrGet labeled nidx = Some OPEN) && falsy (arrGet (fst st) nidx)
    then (arrSet (fst st) nidx 1%Z, snd st ++ [nidx])
    else st
  else st.

(** [area++] and the four bounding-box updates for the pixel [(cx, cy)]. *)
Definition grow (box : Region.t) (cx cy : Z) : Region.t :=
  Region.mk
    (if (cx <? Region.minX box)%Z then cx else Region.minX box)
    (if (cx >? Region.maxX box)%Z then cx else Region.maxX box)
    (if (cy <? Region.minY box)%Z then cy else Region.minY box)
    (if (cy >? Region.maxY box)%Z then cy else Region.maxY box)
    (Region.area box + 1)%Z.

(** [while (qHead < regionQueue.length)] *)
Fixpoint regionLoop (fuel : nat) (w h : Z) (labeled visited queue : list Z)
    (box : Region.t) : option (list Z * Region.t) :=
  match queue with
  | [] => Some (visited, box)
  | curr :: rest =>
      match fuel with
      | O => None
      | S fuel =>
          let cx := Z.rem curr w in
          let cy := Z.quot curr w in
          let st := foldl (regionVisit w h labeled cx cy) (visited, rest) DIRS in
          regionLoop fuel w h labeled (fst st) (snd st) (grow box cx cy)
      end
  end.

(** The scan state is [(visited, regions)]: [regions] are the components
    that passed the area filter so far, one per room pushed. *)
Definition ScanState : Type := (list Z * list Region.t)%type.

(** Body of the loop over [startX]. *)
Definition scanAt (w h : Z) (labeled : list Z) (st : ScanState) (startX startY : Z)
    : option ScanState :=
  let startIdx := (startY * w + startX)%Z in
  if negb (bool_decide (arrGet labeled startIdx = Some OPEN))
     || negb (falsy (arrGet (fst st) startIdx))
  then Some st
  else
    let minArea := PrimFloat.mul (num (w * h)) MIN_AREA_RATIO in
    '(visited, box) ←
      regionLoop (length (fst st)) w h labeled (arrSet (fst st) startIdx 1%Z) [startIdx]
                 (Region.mk startX startX startY startY 0);
    if PrimFloat.ltb (num (Region.area box)) minArea
    then Some (visited, snd st)
    else Some (visited, snd st ++ [box]).

Definition scanRow (w h : Z) (labeled : list Z) (st : option ScanState) (startY : Z)
    : option ScanState :=
  foldl (fun st startX => st ≫= fun s => scanAt w h labeled s startX startY)
        st (seqZ 1 (w - 2)).

Definition scanRooms (w h : Z) (labeled : list Z) : option (list Region.t) :=
  snd <$> foldl (scanRow w h labeled)
                (Some (replicate (Z.to_nat (w * h)) 0%Z, []))
                (seqZ 1 (h - 2)).

(** Steps 1 to 4 up to the bounding boxes, on integers only. *)
Definition detectRegions (w h : Z) (data : list Z) : option (list Region.t) :=
  let binary := fixPolarity w h (binarize w h data) in
  let dilated := dilateWalls binary w h DILATE_RADIUS in
  labeled ← floodExterior w h dilated;
  scanRooms w h labeled.

(** The object pushed for the [k]-th surviving component ([rooms.length]
    and [colorIdx] are both [k] at that point).  [uuid k] is what the
    [k]-th call of [crypto.randomUUID()] returns. *)
Definition roomOfRegion (uuid : nat → string) (w h : Z) (canvasWidth canvasHeight : R)
    (k : nat) (r : Region.t) : Room.t :=
  let scaleX := (canvasWidth / IZR w)%R in
  let scaleY := (canvasHeight / IZR h)%R in
  Room.mk
    (uuid k)
    ("部屋" +:+ pretty (k + 1)%nat)
    (IZR (Region.minX r) * scaleX)%R
    (IZR (Region.minY r) * scaleY)%R
    (IZR (Region.maxX r - Region.minX r) * scaleX)%R
    (IZR (Region.maxY r - Region.minY r) * scaleY)%R
    (default ""%string (ROOM_COLORS !! (k mod length ROOM_COLORS)%nat)).

(** Steps 1 to 4 of [analyzeFloorPlan]: the function from the line after
    [getImageData] on, with the raster size and the bytes it was handed. *)
Definition analyzeFloorPlan (uuid : nat → string) (w h : Z) (data : list Z)
    (canvasWidth canvasHeight : R) : option (list Room.t) :=
  imap (roomOfRegion uuid w h canvasWidth canvasHeight) <$> detectRegions w h data.

(** Step 0.  [Image.t] is an [HTMLImageElement] as [analyzeFloorPlan] uses
    it: its four size attributes (each an [unsigned long]) and [drawn w h],
    the RGBA bytes a [w] by [h] canvas holds after
    [drawImage(image, 0, 0, w, h)].  The editor passes an image it has
    loaded from an uploaded file ([bgImageRef] is set in [img.onload], from
    a blob URL): [drawImage] draws it and leaves the canvas readable, so
    that the one call of Step 0 that can throw is [getImageData]. *)
Module Image.
Record t : Type := mk
  { naturalWidth : N;
    naturalHeight : N;
    width : N;
    height : N;
    drawn : Z → Z → list Z }.
End Image.

(** What a call ends with: a value, or an exception of the canvas API. *)
Inductive DOMException : Type := IndexSizeError.

Inductive Outcome (A : Type) : Type :=
  | Returned (a : A)
  | Thrown (e : DOMException).
Arguments Returned {A} a.
Arguments Thrown {A} e.

(** [a || b] on two numbers. *)
Definition orElse (a b : N) : N := if (a =? 0)%N then b else a.

(** [Math.round]: the nearest integer, ties towards [+∞], computed exactly
    from the sign, mantissa and exponent of [x].  NaN and the infinities,
    which the canvas turns into a size of [0], give [0]. *)
Definition mathRound (x : PrimFloat.float) : Z :=
  match FloatOps.Prim2SF x with
  | SpecFloat.S754_finite s m e =>
      let n := if s then Z.neg m else Z.pos m in
      if (0 <=? e)%Z then (n * 2 ^ e)%Z
      else ((2 * n + 2 ^ (- e)) `div` (2 * 2 ^ (- e)))%Z
  | _ => 0%Z
  end.

(** The raster size [(w, h)] of lines 35-39. *)
Definition rasterSize (image : Image.t) : Z * Z :=
  let srcW := num (Z.of_N (orElse (Image.naturalWidth image) (Image.width image))) in
  let srcH := num (Z.of_N (orElse (Image.naturalHeight image) (Image.height image))) in
  let scale :=
    F64.mathMin [ PrimFloat.div (num MAX_SIZE) srcW;
                  PrimFloat.div (num MAX_SIZE) srcH;
                  num 1 ] in
  (mathRound (PrimFloat.mul srcW scale), mathRound (PrimFloat.mul srcH scale)).

(** [ctx.getImageData(0, 0, w, h)] after the image was drawn: the canvas
    API throws an [IndexSizeError] when [w] or [h] is [0]. *)
Definition getImageData (image : Image.t) (w h : Z) : Outcome (list Z) :=
  if (w =? 0)%Z || (h =? 0)%Z then Thrown IndexSizeError
  else Returned (Image.drawn image w h).

(** The whole call [analyzeFloorPlan(image, canvasWidth, canvasHeight)]:
    Step 0, then Steps 1 to 4 on the raster it produced. *)
Definition analyzeFloorPlanImage (uuid : nat → string) (image : Image.t)
    (canvasWidth canvasHeight : R) : option (Outcome (list Room.t)) :=
  let '(w, h) := rasterSize image in
  match getImageData image w h with
  | Thrown e => Some (Thrown e)
  | Returned data => Returned <$> analyzeFloorPlan uuid w h data canvasWidth canvasHeight
  end.

(** The rectangle of a room, without its identity and display fields. *)
Definition rectangle (r : Room.t) : R * R * R * R :=
  (Room.x r, Room.y r, Room.width r, Room.height r).

(** Exact colour inversion of an RGBA buffer: every R, G, B byte [c]
    becomes [255 - c]; alpha bytes (every fourth) are kept. *)
Definition invertColors (data : list Z) : list Z :=
  imap (fun i c => if decide (i mod 4 = 3)%nat then c else (255 - c)%Z) data.

(** A [w] by [h] RGBA buffer drawn from a predicate: black where [wall],
    white elsewhere. *)
Definition drawImage (w h : Z) (wall : Z → Z → bool) : list Z :=
  y ← seqZ 0 h; x ← seqZ 0 w;
  if wall x y then [0; 0; 0; 255]%Z else [255; 255; 255; 255]%Z.

(** A black frame of thickness [b] around a white interior. *)
Definition framed (w h b : Z) : list Z :=
  drawImage w h (fun x y =>
    (x <? b)%Z || (w - b <=? x)%Z || (y <? b)%Z || (h - b <=? y)%Z).

(** * Vocabulary of the statements

    The definitions below are not part of the program: they name what the
    specification talks about (overlap of extents, candidate wall points,
    room corners, colour inversion of the analysis) and the invariants used
    in the proofs. *)

(** ** Collision *)

(** Open overlap of the vertical extents [bottom, top). *)
Definition verticalOverlap (a b : Furniture.t) : Prop :=
  (bottom a < top b)%R ∧ (bottom b < top a)%R.

(** The candidate axes: the edge normals of both footprints. *)
Definition satAxes (a b : Furniture.t) : list (R * R) :=
  edgeNormals (getFootprint a) ++ edgeNormals (getFootprint b).

(** The projections of two polygons on [n] overlap in more than a point. *)
Definition overlapOn (pa pb : list Point) (n : R * R) : Prop :=
  (fst (project pb (fst n) (snd n)) < snd (project pa (fst n) (snd n)))%R
  ∧ (fst (project pa (fst n) (snd n)) < snd (project pb (fst n) (snd n)))%R.

Definition planarOverlap (a b : Furniture.t) : Prop :=
  ∀ n, n ∈ satAxes a b → overlapOn (getFootprint a) (getFootprint b) n.

Definition sizeW (f : Furniture.t) : R := fst (fst (Furniture.size f)).
Definition sizeD (f : Furniture.t) : R := snd (Furniture.size f).
Definition posX (f : Furniture.t) : R := fst (fst (Furniture.position f)).
Definition posZ (f : Furniture.t) : R := snd (Furniture.position f).

(** The pairs [(furniture[i], furniture[j])], [i < j], in scan order. *)
Fixpoint orderedPairs (l : list Furniture.t) : list (Furniture.t * Furniture.t) :=
  match l with
  | [] => []
  | f :: rest => map (pair f) rest ++ orderedPairs rest
  end.

(** [s] is the id of one of two colliding items. *)
Definition involves (s : string) (p : Furniture.t * Furniture.t) : Prop :=
  checkCollision (fst p) (snd p) = true
  ∧ (s = Furniture.id (fst p) ∨ s = Furniture.id (snd p)).

(** [f] with [position[1]] replaced by [y]. *)
Definition withPositionY (f : Furniture.t) (y : R) : Furniture.t :=
  Furniture.mk (Furniture.id f) (Furniture.name f)
    (posX f, y, posZ f) (Furniture.size f) (Furniture.color f)
    (Furniture.rotation f) (Furniture.elevation f).

(** A box for examples; its id doubles as its name. *)
Definition box (id : string) (x y z w hh d rot elev : R) : Furniture.t :=
  Furniture.mk id id (x, y, z) (w, hh, d) "#888888" (Some rot) (Some elev).

(** ** Wall snapping *)

Definition lenSq (seg : Seg.t) : R :=
  ((Seg.x2 seg - Seg.x1 seg) * (Seg.x2 seg - Seg.x1 seg)
   + (Seg.y2 seg - Seg.y1 seg) * (Seg.y2 seg - Seg.y1 seg))%R.

(** The candidate a segment contributes: its clamped closest point ... *)
Definition hitOn (seg : Seg.t) (cx cy : R) : WallHit.t :=
  let p := pointAt seg (clampedParam seg cx cy) in
  WallHit.mk (fst p) (snd p) (Seg.axis seg).

(** ... and the distance [d] of the query point to it. *)
Definition wallDistance (seg : Seg.t) (cx cy : R) : R :=
  let p := pointAt seg (clampedParam seg cx cy) in
  hypot (cx - fst p) (cy - snd p).

(** All segments in the order the two loops visit them. *)
Definition allSegs (rooms : list Room.t) : list Seg.t := rooms ≫= segs.



(** [null] exactly when every candidate is farther than [snapDist]. *)
Definition nullIffAllFarther (rooms : list Room.t) (cx cy snapDist : R) : Prop :=
  findNearestWall rooms cx cy snapDist = None ↔
  ∀ seg, seg ∈ allSegs rooms → lenSq seg ≠ 0%R → (snapDist < wallDistance seg cx cy)%R.

(** Rooms for examples. *)
Definition room (id : string) (x y width height : R) : Room.t :=
  Room.mk id id x y width height "#4a90d9".

Definition roomA : Room.t := room "A" 0 0 100 100.

(** ** Raster analysis *)

(** The same rectangles for an image and its colour inversion. *)
Definition polarityInvariant (w h : Z) (data : list Z) : Prop :=
  ∀ u1 u2 canvasWidth canvasHeight,
    (map rectangle <$> analyzeFloorPlan u1 w h data canvasWidth canvasHeight)
    = (map rectangle <$> analyzeFloorPlan u2 w h (invertColors data) canvasWidth canvasHeight).

(** [st'] is reached from the flood state [st] by marking: the grid only
    changes from [OPEN] to [EXTERIOR], every pixel so changed is queued,
    and nothing leaves the queue. *)
Definition ext (st st' : FloodState) : Prop :=
  length (fst st') = length (fst st)
  ∧ (∀ i, i ∈ snd st → i ∈ snd st')
  ∧ ∀ i, arrGet (fst st') i = arrGet (fst st) i
         ∨ (arrGet (fst st) i = Some OPEN ∧ arrGet (fst st') i = Some EXTERIOR
            ∧ i ∈ snd st').

(** The same on grids alone, across iterations that also pop the queue. *)
Definition grows (l l' : list Z) : Prop :=
  length l' = length l
  ∧ ∀ i, arrGet l' i = arrGet l i
         ∨ (arrGet l i = Some OPEN ∧ arrGet l' i = Some EXTERIOR).

Definition notOpenAt (idx : Z) (st : FloodState) : Prop :=
  arrGet (fst st) idx ≠ Some OPEN.

(** Every [EXTERIOR] pixel is still queued, or has no [OPEN] neighbour. *)
Definition closed (w h : Z) (st : FloodState) : Prop :=
  ∀ idx, arrGet (fst st) idx = Some EXTERIOR →
    idx ∈ snd st
    ∨ ∀ d, d ∈ DIRS →
        inBounds w h (Z.rem idx w + fst d) (Z.quot idx w + snd d) = true →
        notOpenAt ((Z.quot idx w + snd d) * w + (Z.rem idx w + fst d)) st.

(** Termination measures: queued pixels plus pixels that can still be
    queued. *)
Definition countOpen (l : list Z) : nat := length (filter (λ v, v = OPEN) l).

Definition measure (st : FloodState) : nat := (length (snd st) + countOpen (fst st))%nat.

Definition countUnvisited (visited : list Z) : nat :=
  length (filter (λ v, v = 0%Z) visited).

Definition regionMeasure (st : list Z * list Z) : nat :=
  (length (snd st) + countUnvisited (fst st))%nat.

(** * More of the program *)

(** ** Application state ([src/store/useHouseStore.ts], lines 1-157)

    The store is a record of plain data and a set of actions; an action
    [set((s) => patch)] replaces the fields named in [patch] and keeps the
    others.  The persistence and undo wrappers around the store and the
    free-form [meta] annotations of rooms, furniture and openings (copied
    untouched by every action below) are not part of the embedding. *)

Module MeasurePoint.
Record t : Type := mk { x : R; y : R; z : R }.
End MeasurePoint.

Inductive OpeningKind : Type := Door | Window | Column.

Module Opening.
Record t : Type := mk
  { id : string;
    kind : OpeningKind;
    canvasX : R;
    canvasY : R;
    wallAxis : Axis;
    widthPx : R;
    depthPx : option R;
    height : R;
    sillHeight : R }.
End Opening.

Module HouseStore.
Record t : Type := mk
  { rooms : list Room.t;
    furniture : list Furniture.t;
    openings : list Opening.t;
    selectedFurnitureId : option string;
    selectedRoomId : option string;
    selectedOpeningId : option string;
    floorPlanImage : option string;
    measureMode : bool;
    measurePoints : list MeasurePoint.t;
    measureHeights : R * R }.
End HouseStore.

(** [set({ rooms })], [set({ furniture })] and the like. *)
Definition setRooms (rooms : list Room.t) (s : HouseStore.t) : HouseStore.t :=
  HouseStore.mk rooms (HouseStore.furniture s) (HouseStore.openings s)
    (HouseStore.selectedFurnitureId s) (HouseStore.selectedRoomId s)
    (HouseStore.selectedOpeningId s) (HouseStore.floorPlanImage s)
    (HouseStore.measureMode s) (HouseStore.measurePoints s) (HouseStore.measureHeights s).

Definition setFurniture (furniture : list Furniture.t) (s : HouseStore.t) : HouseStore.t :=
  HouseStore.mk (HouseStore.rooms s) furniture (HouseStore.openings s)
    (HouseStore.selectedFurnitureId s) (HouseStore.selectedRoomId s)
    (HouseStore.selectedOpeningId s) (HouseStore.floorPlanImage s)
    (HouseStore.measureMode s) (HouseStore.measurePoints s) (HouseStore.measureHeights s).

Definition setSelectedFurnitureId (id : option string) (s : HouseStore.t) : HouseStore.t :=
  HouseStore.mk (HouseStore.rooms s) (HouseStore.furniture s) (HouseStore.openings s)
    id (HouseStore.selectedRoomId s)
    (HouseStore.selectedOpeningId s) (HouseStore.floorPlanImage s)
    (HouseStore.measureMode s) (HouseStore.measurePoints s) (HouseStore.measureHeights s).

Definition setSelectedRoomId (id : option string) (s : HouseStore.t) : HouseStore.t :=
  HouseStore.mk (HouseStore.rooms s) (HouseStore.furniture s) (HouseStore.openings s)
    (HouseStore.selectedFurnitureId s) id
    (HouseStore.selectedOpeningId s) (HouseStore.floorPlanImage s)
    (HouseStore.measureMode s) (HouseStore.measurePoints s) (HouseStore.measureHeights s).

Definition setMeasure (on : bool) (points : list MeasurePoint.t) (heights : R * R)
    (s : HouseStore.t) : HouseStore.t :=
  HouseStore.mk (HouseStore.rooms s) (HouseStore.furniture s) (HouseStore.openings s)
    (HouseStore.selectedFurnitureId s) (HouseStore.selectedRoomId s)
    (HouseStore.selectedOpeningId s) (HouseStore.floorPlanImage s)
    on points heights.

(** [{ rotation: 0, elevation: 0, ...f }] *)
Definition normalizeFurniture (f : Furniture.t) : Furniture.t :=
  Furniture.mk (Furniture.id f) (Furniture.name f) (Furniture.position f)
    (Furniture.size f) (Furniture.color f)
    (match Furniture.rotation f with Some r => Some r | None => Some 0%R end)
    (match Furniture.elevation f with Some e => Some e | None => Some 0%R end).

Definition addRoom (room : Room.t) (s : HouseStore.t) : HouseStore.t :=
  setRooms (HouseStore.rooms s ++ [room]) s.

(** A [Partial<Omit<Room, 'id'>>]: [None] is an absent key. *)
Module RoomPatch.
Record t : Type := mk
  { name : option string;
    x : option R;
    y : option R;
    width : option R;
    height : option R;
    color : option string }.
End RoomPatch.

(** [{ ...r, ...patch }] *)
Definition patchRoom (r : Room.t) (patch : RoomPatch.t) : Room.t :=
  Room.mk (Room.id r)
    (default (Room.name r) (RoomPatch.name patch))
    (default (Room.x r) (RoomPatch.x patch))
    (default (Room.y r) (RoomPatch.y patch))
    (default (Room.width r) (RoomPatch.width patch))
    (default (Room.height r) (RoomPatch.height patch))
    (default (Room.color r) (RoomPatch.color patch)).

Definition updateRoom (id : string) (patch : RoomPatch.t) (s : HouseStore.t)
    : HouseStore.t :=
  setRooms (map (λ r, if decide (Room.id r = id) then patchRoom r patch else r)
                (HouseStore.rooms s)) s.

Definition removeRoom (id : string) (s : HouseStore.t) : HouseStore.t :=
  setSelectedRoomId
    (if decide (HouseStore.selectedRoomId s = Some id) then None
     else HouseStore.selectedRoomId s)
    (setRooms (filter (λ r, Room.id r ≠ id) (HouseStore.rooms s)) s).

Definition addFurniture (item : Furniture.t) (s : HouseStore.t) : HouseStore.t :=
  setFurniture (HouseStore.furniture s ++ [normalizeFurniture item]) s.

(** A [Partial<Omit<Furniture, 'id'>>]. *)
Module FurniturePatch.
Record t : Type := mk
  { name : option string;
    position : option (R * R * R);
    size : option (R * R * R);
    color : option string;
    rotation : option R;
    elevation : option R }.
End FurniturePatch.

Definition patchFurniture (f : Furniture.t) (patch : FurniturePatch.t) : Furniture.t :=
  Furniture.mk (Furniture.id f)
    (default (Furniture.name f) (FurniturePatch.name patch))
    (default (Furniture.position f) (FurniturePatch.position patch))
    (default (Furniture.size f) (FurniturePatch.size patch))
    (default (Furniture.color f) (FurniturePatch.color patch))
    (match FurniturePatch.rotation patch with
     | Some r => Some r | None => Furniture.rotation f end)
    (match FurniturePatch.elevation patch with
     | Some e => Some e | None => Furniture.elevation f end).

Definition updateFurniture (id : string) (patch : FurniturePatch.t) (s : HouseStore.t)
    : HouseStore.t :=
  setFurniture (map (λ f, if decide (Furniture.id f = id) then patchFurniture f patch else f)
                    (HouseStore.furniture s)) s.

Definition updateFurniturePosition (id : string) (position : R * R * R)
    (s : HouseStore.t) : HouseStore.t :=
  setFurniture
    (map (λ f, if decide (Furniture.id f = id)
               then Furniture.mk (Furniture.id f) (Furniture.name f) position
                      (Furniture.size f) (Furniture.color f)
                      (Furniture.rotation f) (Furniture.elevation f)
               else f)
         (HouseStore.furniture s)) s.

Definition updateFurnitureSize (id : string) (size : R * R * R) (s : HouseStore.t)
    : HouseStore.t :=
  setFurniture
    (map (λ f, if decide (Furniture.id f ≠ id) then f
               else
                 let elev := orZero (Furniture.elevation f) in
                 let newY := (elev + snd (fst size) / 2)%R in
                 Furniture.mk (Furniture.id f) (Furniture.name f)
                   (fst (fst (Furniture.position f)), newY, snd (Furniture.position f))
                   size (Furniture.color f)
                   (Furniture.rotation f) (Furniture.elevation f))
         (HouseStore.furniture s)) s.

Definition updateFurnitureElevation (id : string) (elevation : R) (s : HouseStore.t)
    : HouseStore.t :=
  setFurniture
    (map (λ f, if decide (Furniture.id f ≠ id) then f
               else
                 let newY := (elevation + snd (fst (Furniture.size f)) / 2)%R in
                 Furniture.mk (Furniture.id f) (Furniture.name f)
                   (fst (fst (Furniture.position f)), newY, snd (Furniture.position f))
                   (Furniture.size f) (Furniture.color f)
                   (Furniture.rotation f) (Some elevation))
         (HouseStore.furniture s)) s.

Definition removeFurniture (id : string) (s : HouseStore.t) : HouseStore.t :=
  setSelectedFurnitureId
    (if decide (HouseStore.selectedFurnitureId s = Some id) then None
     else HouseStore.selectedFurnitureId s)
    (setFurniture (filter (λ f, Furniture.id f ≠ id) (HouseStore.furniture s)) s).

Definition selectFurniture (id : option string) (s : HouseStore.t) : HouseStore.t :=
  setSelectedFurnitureId id s.

Definition setMeasureMode (on : bool) (s : HouseStore.t) : HouseStore.t :=
  setMeasure on [] (0%R, 0%R) s.

Definition addMeasurePoint (pt : MeasurePoint.t) (s : HouseStore.t) : HouseStore.t :=
  if decide (2 <= length (HouseStore.measurePoints s))%nat
  then setMeasure (HouseStore.measureMode s) [pt] (0%R, 0%R) s
  else setMeasure (HouseStore.measureMode s) (HouseStore.measurePoints s ++ [pt])
         (HouseStore.measureHeights s) s.

Definition clearMeasurePoints (s : HouseStore.t) : HouseStore.t :=
  setMeasure (HouseStore.measureMode s) [] (0%R, 0%R) s.

(** [index] is [0] or [1]: [false] stands for [0]. *)
Definition setMeasureHeight (index : bool) (height : R) (s : HouseStore.t)
    : HouseStore.t :=
  let next :=
    if index then (fst (HouseStore.measureHeights s), height)
    else (height, snd (HouseStore.measureHeights s)) in
  setMeasure (HouseStore.measureMode s) (HouseStore.measurePoints s) next s.


Definition selectRoom (id : option string) (s : HouseStore.t) : HouseStore.t :=
  setSelectedRoomId id s.

Definition setOpenings (openings : list Opening.t) (s : HouseStore.t) : HouseStore.t :=
  HouseStore.mk (HouseStore.rooms s) (HouseStore.furniture s) openings
    (HouseStore.selectedFurnitureId s) (HouseStore.selectedRoomId s)
    (HouseStore.selectedOpeningId s) (HouseStore.floorPlanImage s)
    (HouseStore.measureMode s) (HouseStore.measurePoints s) (HouseStore.measureHeights s).

Definition selectOpening (id : option string) (s : HouseStore.t) : HouseStore.t :=
  HouseStore.mk (HouseStore.rooms s) (HouseStore.furniture s) (HouseStore.openings s)
    (HouseStore.selectedFurnitureId s) (HouseStore.selectedRoomId s)
    id (HouseStore.floorPlanImage s)
    (HouseStore.measureMode s) (HouseStore.measurePoints s) (HouseStore.measureHeights s).

Definition addOpening (o : Opening.t) (s : HouseStore.t) : HouseStore.t :=
  setOpenings (HouseStore.openings s ++ [o]) s.

(** The keys of a [Partial<Omit<Opening, 'id'>>] that the callers set. *)
Module OpeningPatch.
Record t : Type := mk
  { kind : option OpeningKind;
    canvasX : option R;
    canvasY : option R;
    wallAxis : option Axis;
    widthPx : option R;
    depthPx : option R;
    height : option R;
    sillHeight : option R }.
End OpeningPatch.

Definition patchOpening (o : Opening.t) (patch : OpeningPatch.t) : Opening.t :=
  Opening.mk (Opening.id o)
    (default (Opening.kind o) (OpeningPatch.kind patch))
    (default (Opening.canvasX o) (OpeningPatch.canvasX patch))
    (default (Opening.canvasY o) (OpeningPatch.canvasY patch))
    (default (Opening.wallAxis o) (OpeningPatch.wallAxis patch))
    (default (Opening.widthPx o) (OpeningPatch.widthPx patch))
    (match OpeningPatch.depthPx patch with
     | Some d => Some d | None => Opening.depthPx o end)
    (default (Opening.height o) (OpeningPatch.height patch))
    (default (Opening.sillHeight o) (OpeningPatch.sillHeight patch)).

Definition updateOpening (id : string) (patch : OpeningPatch.t) (s : HouseStore.t)
    : HouseStore.t :=
  setOpenings (map (λ o, if decide (Opening.id o = id) then patchOpening o patch else o)
                   (HouseStore.openings s)) s.

Definition removeOpening (id : string) (s : HouseStore.t) : HouseStore.t :=
  selectOpening
    (if decide (HouseStore.selectedOpeningId s = Some id) then None
     else HouseStore.selectedOpeningId s)
    (setOpenings (filter (λ o, Opening.id o ≠ id) (HouseStore.openings s)) s).

(** The store a fresh session starts from. *)
Definition initialStore : HouseStore.t :=
  HouseStore.mk [] [] [] None None None None false [] (0%R, 0%R).

(** ** Furniture palette ([FurniturePanel], lines 1-45 of [unnamed/part_002]) *)

Module FurnitureTemplate.
Record t : Type := mk
  { name : string;
    size : R * R * R;
    color : string;
    emoji : string }.
End FurnitureTemplate.

(** [handleAdd]; [uuid] is what [crypto.randomUUID()] returns. *)
Definition handleAdd (uuid : string) (tmpl : FurnitureTemplate.t) (s : HouseStore.t)
    : HouseStore.t :=
  let item :=
    Furniture.mk uuid (FurnitureTemplate.name tmpl)
      (0, snd (fst (FurnitureTemplate.size tmpl)) / 2, 0)%R
      (FurnitureTemplate.size tmpl) (FurnitureTemplate.color tmpl)
      (Some 0%R) (Some 0%R) in
  addFurniture item s.

(** ** Furniture inspector ([src/components/InspectorPanel.tsx], lines 9-115) *)

(** [furniture.find((f) => f.id === selectedFurnitureId)] *)
Definition selectedItem (s : HouseStore.t) : option Furniture.t :=
  match HouseStore.selectedFurnitureId s with
  | None => None
  | Some sel => List.find (λ f, bool_decide (Furniture.id f = sel)) (HouseStore.furniture s)
  end.

(** [s[axis] = v] on a copy of a three-element tuple. *)
Definition setAxis (size : R * R * R) (axis : nat) (v : R) : R * R * R :=
  match axis with
  | 0%nat => (v, snd (fst size), snd size)
  | 1%nat => (fst (fst size), v, snd size)
  | _ => (fst (fst size), snd (fst size), v)
  end.

(** [handleSizeChange]; [axis] is [0], [1] or [2], [mm] the number typed. *)
Definition handleSizeChange (axis : nat) (mm : R) (s : HouseStore.t) : HouseStore.t :=
  match selectedItem s with
  | None => s
  | Some item =>
      updateFurnitureSize (Furniture.id item)
        (setAxis (Furniture.size item) axis (Rmax 10 mm / 1000)%R) s
  end.

(** The two rotation buttons. *)
Definition handleRotateMinus (s : HouseStore.t) : HouseStore.t :=
  match selectedItem s with
  | None => s
  | Some item =>
      updateFurniture (Furniture.id item)
        (FurniturePatch.mk None None None None
           (Some (orZero (Furniture.rotation item) - PI / 2)%R) None) s
  end.

Definition handleRotatePlus (s : HouseStore.t) : HouseStore.t :=
  match selectedItem s with
  | None => s
  | Some item =>
      updateFurniture (Furniture.id item)
        (FurniturePatch.mk None None None None
           (Some (orZero (Furniture.rotation item) + PI / 2)%R) None) s
  end.

(** The elevation field: [v] is the number typed, in millimetres. *)
Definition handleElevationChange (v : R) (s : HouseStore.t) : HouseStore.t :=
  match selectedItem s with
  | None => s
  | Some item =>
      if decide (v >= 0)%R
      then updateFurnitureElevation (Furniture.id item) (v / 1000)%R s
      else s
  end.

(** ** 3D scene ([unnamed/part_003]) *)

Definition SCALE : R := (5 / 100)%R.
Definition WALL_H : R := (24 / 10)%R.
Definition OFFSET : R := 7%R.

(** A box of the scene: where its centre is and how large it is. *)
Module Box3.
Record t : Type := mk { pos : R * R * R; args : R * R * R }.
End Box3.

(** [RoomMesh], lines 20-31: the four wall boxes, already moved by the
    [position] of the enclosing group. *)
Definition roomWalls (room : Room.t) : list Box3.t :=
  let cx := ((Room.x room + Room.width room / 2) * SCALE - OFFSET)%R in
  let cz := ((Room.y room + Room.height room / 2) * SCALE - OFFSET)%R in
  let w := (Room.width room * SCALE)%R in
  let d := (Room.height room * SCALE)%R in
  [ Box3.mk (cx + 0, 0 + WALL_H / 2, cz + - d / 2)%R (w, WALL_H, 8 / 100)%R;
    Box3.mk (cx + 0, 0 + WALL_H / 2, cz + d / 2)%R (w, WALL_H, 8 / 100)%R;
    Box3.mk (cx + - w / 2, 0 + WALL_H / 2, cz + 0)%R (8 / 100, WALL_H, d)%R;
    Box3.mk (cx + w / 2, 0 + WALL_H / 2, cz + 0)%R (8 / 100, WALL_H, d)%R ].

(** [OpeningMesh], lines 158-163: where an opening is put and how it is
    turned about the vertical axis. *)
Definition openingWorldX (o : Opening.t) : R := (Opening.canvasX o * SCALE - OFFSET)%R.
Definition openingWorldZ (o : Opening.t) : R := (Opening.canvasY o * SCALE - OFFSET)%R.
Definition openingRotY (o : Opening.t) : R :=
  match Opening.wallAxis o with AxisV => (PI / 2)%R | AxisH => 0%R end.

(** [FurnitureMesh], line 86: the pointer-move handler of a drag, with
    [target] the point of the floor under the pointer. *)
Definition dragFurniture (item : Furniture.t) (targetX targetZ : R) (s : HouseStore.t)
    : HouseStore.t :=
  updateFurniturePosition (Furniture.id item)
    (targetX, snd (fst (Furniture.position item)), targetZ) s.

(** [handleFloorClick] of [MeasureTool3D], lines 288-292: a click on the
    floor at [(pointX, pointZ)]. *)
Definition measureClick (pointX pointZ : R) (s : HouseStore.t) : HouseStore.t :=
  if HouseStore.measureMode s
  then addMeasurePoint (MeasurePoint.mk pointX 0%R pointZ) s
  else s.

(** [MeasurePanel], lines 346-359: horizontal distance, height difference
    and total distance.  The panel shows nothing outside measure mode and
    computes them only when two points are set. *)
Definition measureDistances (s : HouseStore.t) : option (R * R * R) :=
  if HouseStore.measureMode s then
    match HouseStore.measurePoints s with
    | [p0; p1] =>
        let '(h1, h2) := HouseStore.measureHeights s in
        let dx := (MeasurePoint.x p1 - MeasurePoint.x p0)%R in
        let dz := (MeasurePoint.z p1 - MeasurePoint.z p0)%R in
        Some (sqrt (dx * dx + dz * dz),
              Rabs (h2 - h1),
              sqrt (dx * dx + (h2 - h1) ^ 2 + dz * dz))%R
    | _ => None
    end
  else None.

(** The keys [KeyboardController] reacts to ([r] and [R] are one key). *)
Inductive Key : Type :=
  ArrowLeft | ArrowRight | ArrowUp | ArrowDown | KeyR | Escape | OtherKey.

(** [posMap[e.key]] for the position [(x, y, z)] of the selected item. *)
Definition posMap (x y z : R) (key : Key) : option (R * R * R) :=
  let step := (2 / 10)%R in
  match key with
  | ArrowLeft => Some (x - step, y, z)%R
  | ArrowRight => Some (x + step, y, z)%R
  | ArrowUp => Some (x, y, z - step)%R
  | ArrowDown => Some (x, y, z + step)%R
  | _ => None
  end.

(** [onKey] of [KeyboardController], lines 415-451; [inputFocused] says
    whether the focus is in an input field. *)
Definition onKey (key : Key) (inputFocused : bool) (s : HouseStore.t) : HouseStore.t :=
  match HouseStore.selectedFurnitureId s with
  | None => s
  | Some sel =>
      if decide (sel = EmptyString) then s
      else if inputFocused then s
      else
        match List.find (λ f, bool_decide (Furniture.id f = sel)) (HouseStore.furniture s) with
        | None => s
        | Some item =>
            let '(x, y, z) := Furniture.position item in
            match posMap x y z key with
            | Some pos => updateFurniturePosition sel pos s
            | None =>
                match key with
                | KeyR =>
                    updateFurniture sel
                      (FurniturePatch.mk None None None None
                         (Some (orZero (Furniture.rotation item) + PI / 2)%R) None) s
                | Escape => selectFurniture None s
                | _ => s
                end
            end
        end
  end.

(** [onPointerDown] of [FurnitureMesh], lines 67-69: the piece is selected
    and the selected opening dropped. *)
Definition onPointerDown (item : Furniture.t) (s : HouseStore.t) : HouseStore.t :=
  selectOpening None (selectFurniture (Some (Furniture.id item)) s).

(** What can happen between pointer-down and pointer-up: a pointer move
    whose ray meets the floor at [(targetX, targetZ)], or a key press. *)
Inductive DragEvent : Type :=
  | PointerMove (targetX targetZ : R)
  | KeyDown (key : Key) (inputFocused : bool).

(** [onMove] is created by [onPointerDown] and closes over the [item] of
    that render: every move of one drag writes the [position[1]] the piece
    had when the pointer went down, whatever the store holds by then.  Key
    presses go to [onKey], which reads the store. *)
Definition dragStep (item : Furniture.t) (s : HouseStore.t) (ev : DragEvent)
    : HouseStore.t :=
  match ev with
  | PointerMove targetX targetZ => dragFurniture item targetX targetZ s
  | KeyDown key inputFocused => onKey key inputFocused s
  end.

(** A drag of [item]: the pointer-down, then the events up to pointer-up. *)
Definition drag (item : Furniture.t) (events : list DragEvent) (s : HouseStore.t)
    : HouseStore.t :=
  foldl (dragStep item) (onPointerDown item s) events.

(** ** 2D editor ([FloorPlanEditor], lines 710-1646 of [unnamed/part_005])

    The component keeps its own state (mode, drag in progress, view
    transform, name typed for the next room, colour counter) beside the
    store; a handler is a function on the pair of both.  Coordinates reach
    the handlers as CSS pixels relative to the canvas. *)

Definition CANVAS_W : R := 280%R.
Definition CANVAS_H : R := 280%R.
Definition HANDLE_R : R := 7%R.
Definition WALL_SNAP : R := 14%R.
Definition DEFAULT_DOOR_W : R := 20%R.
Definition DEFAULT_WIN_W : R := 28%R.
Definition DEFAULT_COL_W : R := 10%R.

Inductive EditorMode : Type := ModeDraw | ModeEdit | ModeOpening.

Module ViewState.
Record t : Type := mk { scale : R; panX : R; panY : R }.
End ViewState.

Definition cssPxToWorld (cssPx : R * R) (view : ViewState.t) : R * R :=
  ((fst cssPx - ViewState.panX view) / ViewState.scale view,
   (snd cssPx - ViewState.panY view) / ViewState.scale view)%R.

Inductive CornerKey : Type := TL | TR | BL | BR.

Inductive DragState : Type :=
| DrawDrag (startX startY currentX currentY : R)
| MoveDrag (roomId : string) (offsetX offsetY : R)
| ResizeDrag (roomId : string) (corner : CornerKey) (orig : Room.t) (startX startY : R)
| MoveOpeningDrag (openingId : string) (startWX startWY origCX origCY : R)
| PanDrag (startPanX startPanY startMouseX startMouseY : R).

Module Editor.
Record t : Type := mk
  { mode : EditorMode;
    dragState : option DragState;
    roomName : string;
    openingKind : OpeningKind;
    hoverWall : option WallHit.t;
    view : ViewState.t;
    colorIndex : nat }.
End Editor.

Definition setDragState (ds : option DragState) (ed : Editor.t) : Editor.t :=
  Editor.mk (Editor.mode ed) ds (Editor.roomName ed) (Editor.openingKind ed)
    (Editor.hoverWall ed) (Editor.view ed) (Editor.colorIndex ed).

Definition setView (view : ViewState.t) (ed : Editor.t) : Editor.t :=
  Editor.mk (Editor.mode ed) (Editor.dragState ed) (Editor.roomName ed)
    (Editor.openingKind ed) (Editor.hoverWall ed) view (Editor.colorIndex ed).

Definition setHoverWall (hit : option WallHit.t) (ed : Editor.t) : Editor.t :=
  Editor.mk (Editor.mode ed) (Editor.dragState ed) (Editor.roomName ed)
    (Editor.openingKind ed) hit (Editor.view ed) (Editor.colorIndex ed).

(** What the component mounts with. *)
Definition initialEditor : Editor.t :=
  Editor.mk ModeDraw None EmptyString Door None (ViewState.mk 1 0 0) 0.

(** The updater [onWheel] hands to [setView], lines 1049-1056. *)
Definition wheelZoom (cssX cssY deltaY : R) (prev : ViewState.t) : ViewState.t :=
  let factor := if decide (deltaY < 0)%R then (112 / 100)%R else (1 / (112 / 100))%R in
  let newScale := Rmax (3 / 10) (Rmin 8 (ViewState.scale prev * factor)) in
  let newPanX :=
    (cssX - (cssX - ViewState.panX prev) * (newScale / ViewState.scale prev))%R in
  let newPanY :=
    (cssY - (cssY - ViewState.panY prev) * (newScale / ViewState.scale prev))%R in
  ViewState.mk newScale newPanX newPanY.

(** The two zoom buttons, lines 1575-1590. *)
Definition zoomIn (v : ViewState.t) : ViewState.t :=
  let f := (125 / 100)%R in
  let cx := (CANVAS_W / 2)%R in
  let cy := (CANVAS_H / 2)%R in
  let ns := Rmin 8 (ViewState.scale v * f) in
  ViewState.mk ns
    (cx - (cx - ViewState.panX v) * (ns / ViewState.scale v))%R
    (cy - (cy - ViewState.panY v) * (ns / ViewState.scale v))%R.

Definition zoomOut (v : ViewState.t) : ViewState.t :=
  let f := (1 / (125 / 100))%R in
  let cx := (CANVAS_W / 2)%R in
  let cy := (CANVAS_H / 2)%R in
  let ns := Rmax (3 / 10) (ViewState.scale v * f) in
  ViewState.mk ns
    (cx - (cx - ViewState.panX v) * (ns / ViewState.scale v))%R
    (cy - (cy - ViewState.panY v) * (ns / ViewState.scale v))%R.



Definition dist (ax ay bx by' : R) : R := hypot (ax - bx) (ay - by').

(** [Object.entries(corners(room))] *)
Definition cornerEntries (r : Room.t) : list (CornerKey * (R * R)) :=
  [ (TL, (Room.x r, Room.y r));
    (TR, (Room.x r + Room.width r, Room.y r));
    (BL, (Room.x r, Room.y r + Room.height r));
    (BR, (Room.x r + Room.width r, Room.y r + Room.height r)) ]%R.

Definition hitCorner (view : ViewState.t) (room : Room.t) (px py : R)
    : option CornerKey :=
  let threshold := (HANDLE_R / ViewState.scale view)%R in
  fst <$> List.find
    (λ e, bool_decide (dist px py (fst (snd e)) (snd (snd e)) <= threshold)%R)
    (cornerEntries room).

Definition insideRoom (px py : R) (r : Room.t) : bool :=
  bool_decide (px >= Room.x r)%R && bool_decide (px <= Room.x r + Room.width r)%R
  && bool_decide (py >= Room.y r)%R && bool_decide (py <= Room.y r + Room.height r)%R.

(** The loop runs from the last room to the first. *)
Definition hitRoom (rooms : list Room.t) (px py : R) : option Room.t :=
  List.find (insideRoom px py) (rev rooms).

Definition hitOpening (view : ViewState.t) (openings : list Opening.t) (px py : R)
    : option Opening.t :=
  let threshold := (8 / ViewState.scale view)%R in
  List.find
    (λ op,
       let hw := (Opening.widthPx op / 2)%R in
       match Opening.kind op with
       | Column =>
           let dh := (default (Opening.widthPx op) (Opening.depthPx op) / 2)%R in
           bool_decide (Rabs (Opening.canvasX op - px) <= hw)%R
           && bool_decide (Rabs (Opening.canvasY op - py) <= dh)%R
       | _ =>
           match Opening.wallAxis op with
           | AxisH =>
               bool_decide (Rabs (Opening.canvasY op - py) < threshold)%R
               && bool_decide (px >= Opening.canvasX op - hw)%R
               && bool_decide (px <= Opening.canvasX op + hw)%R
           | AxisV =>
               bool_decide (Rabs (Opening.canvasX op - px) < threshold)%R
               && bool_decide (py >= Opening.canvasY op - hw)%R
               && bool_decide (py <= Opening.canvasY op + hw)%R
           end
       end)
    openings.

(** The opening [onMouseDown] adds at a snap point, lines 1124-1134. *)
Definition newOpening (uuid : string) (openingKind : OpeningKind) (wall : WallHit.t)
    : Opening.t :=
  Opening.mk uuid openingKind
    (WallHit.canvasX wall) (WallHit.canvasY wall) (WallHit.wallAxis wall)
    (match openingKind with
     | Door => DEFAULT_DOOR_W | Column => DEFAULT_COL_W | Window => DEFAULT_WIN_W end)
    (match openingKind with Column => Some DEFAULT_COL_W | _ => None end)
    (match openingKind with
     | Door => 2%R | Column => (24 / 10)%R | Window => (11 / 10)%R end)
    (match openingKind with Door | Column => 0%R | Window => (9 / 10)%R end).

(** The patch of the resize branch of [onMouseMove], lines 1212-1236. *)
Definition MIN_ROOM : R := 20%R.

Definition resizePatch (corner : CornerKey) (o : Room.t) (dx dy : R) : RoomPatch.t :=
  let '(nx, ny, nw, nh) :=
    match corner with
    | TL =>
        let nx := Rmin (Room.x o + dx) (Room.x o + Room.width o - MIN_ROOM) in
        let ny := Rmin (Room.y o + dy) (Room.y o + Room.height o - MIN_ROOM) in
        (nx, ny, Room.width o - (nx - Room.x o), Room.height o - (ny - Room.y o))%R
    | TR =>
        let ny := Rmin (Room.y o + dy) (Room.y o + Room.height o - MIN_ROOM) in
        (Room.x o, ny, Rmax (Room.width o + dx) MIN_ROOM,
         Room.height o - (ny - Room.y o))%R
    | BL =>
        let nx := Rmin (Room.x o + dx) (Room.x o + Room.width o - MIN_ROOM) in
        (nx, Room.y o, Room.width o - (nx - Room.x o),
         Rmax (Room.height o + dy) MIN_ROOM)%R
    | BR =>
        (Room.x o, Room.y o, Rmax (Room.width o + dx) MIN_ROOM,
         Rmax (Room.height o + dy) MIN_ROOM)%R
    end in
  RoomPatch.mk None (Some nx) (Some ny) (Some nw) (Some nh) None.

(** Handlers.  [uuid] is what [crypto.randomUUID()] returns if it is
    called, [trim] is [String.prototype.trim]. *)

Definition onMouseDown (uuid : string) (button : Z) (css : R * R)
    (st : Editor.t * HouseStore.t) : Editor.t * HouseStore.t :=
  let '(ed, s) := st in
  let v := Editor.view ed in
  if decide (button = 1)%Z then
    (setDragState
       (Some (PanDrag (ViewState.panX v) (ViewState.panY v) (fst css) (snd css))) ed, s)
  else
    let '(x, y) := cssPxToWorld css v in
    match Editor.mode ed with
    | ModeOpening =>
        match hitOpening v (HouseStore.openings s) x y with
        | Some hitOp =>
            (setDragState
               (Some (MoveOpeningDrag (Opening.id hitOp) x y
                        (Opening.canvasX hitOp) (Opening.canvasY hitOp))) ed,
             selectOpening (Some (Opening.id hitOp)) s)
        | None =>
            match findNearestWall (HouseStore.rooms s) x y WALL_SNAP with
            | Some wall =>
                (ed, selectOpening None
                       (addOpening (newOpening uuid (Editor.openingKind ed) wall) s))
            | None => (ed, s)
            end
        end
    | ModeDraw => (setDragState (Some (DrawDrag x y x y)) ed, s)
    | ModeEdit =>
        let handle :=
          match HouseStore.selectedRoomId s with
          | None => None
          | Some selId =>
              if decide (selId = EmptyString) then None
              else
                match List.find (λ r, bool_decide (Room.id r = selId)) (HouseStore.rooms s) with
                | None => None
                | Some sel =>
                    match hitCorner v sel x y with
                    | Some corner => Some (ResizeDrag (Room.id sel) corner sel x y)
                    | None => None
                    end
                end
          end in
        match handle with
        | Some ds => (setDragState (Some ds) ed, s)
        | None =>
            match hitRoom (HouseStore.rooms s) x y with
            | Some hit =>
                (setDragState
                   (Some (MoveDrag (Room.id hit) (x - Room.x hit) (y - Room.y hit))%R) ed,
                 selectRoom (Some (Room.id hit)) s)
            | None => (ed, selectRoom None s)
            end
        end
    end.

Definition onMouseMove (css : R * R) (st : Editor.t * HouseStore.t)
    : Editor.t * HouseStore.t :=
  let '(ed, s) := st in
  let v := Editor.view ed in
  let '(x, y) := cssPxToWorld css v in
  match Editor.dragState ed with
  | Some (PanDrag startPanX startPanY startMouseX startMouseY) =>
      (setView (ViewState.mk (ViewState.scale v)
                  (startPanX + (fst css - startMouseX))%R
                  (startPanY + (snd css - startMouseY))%R) ed, s)
  | ds =>
      match Editor.mode ed with
      | ModeOpening =>
          match ds with
          | Some (MoveOpeningDrag openingId startWX startWY origCX origCY) =>
              let newCX := (origCX + (x - startWX))%R in
              let newCY := (origCY + (y - startWY))%R in
              match findNearestWall (HouseStore.rooms s) newCX newCY WALL_SNAP with
              | Some wall =>
                  (ed, updateOpening openingId
                         (OpeningPatch.mk None (Some (WallHit.canvasX wall))
                            (Some (WallHit.canvasY wall)) (Some (WallHit.wallAxis wall))
                            None None None None) s)
              | None =>
                  (ed, updateOpening openingId
                         (OpeningPatch.mk None (Some newCX) (Some newCY) None
                            None None None None) s)
              end
          | _ => (setHoverWall (findNearestWall (HouseStore.rooms s) x y WALL_SNAP) ed, s)
          end
      | _ =>
          match ds with
          | Some (DrawDrag startX startY _ _) =>
              (setDragState (Some (DrawDrag startX startY x y)) ed, s)
          | Some (MoveDrag roomId offsetX offsetY) =>
              (ed, updateRoom roomId
                     (RoomPatch.mk None (Some (x - offsetX)%R) (Some (y - offsetY)%R)
                        None None None) s)
          | Some (ResizeDrag roomId corner orig startX startY) =>
              (ed, updateRoom roomId
                     (resizePatch corner orig (x - startX) (y - startY)) s)
          | _ => (ed, s)
          end
      end
  end.

Definition onMouseUp (trim : string → string) (uuid : string)
    (st : Editor.t * HouseStore.t) : Editor.t * HouseStore.t :=
  let '(ed, s) := st in
  match Editor.dragState ed with
  | Some (DrawDrag startX startY currentX currentY) =>
      let w := Rabs (currentX - startX) in
      let h := Rabs (currentY - startY) in
      if decide (10 < w ∧ 10 < h)%R then
        let name :=
          if decide (trim (Editor.roomName ed) = EmptyString)
          then "部屋" +:+ pretty (length (HouseStore.rooms s) + 1)%nat
          else trim (Editor.roomName ed) in
        let color :=
          default EmptyString
            (ROOM_COLORS !! (Editor.colorIndex ed mod length ROOM_COLORS)%nat) in
        (Editor.mk (Editor.mode ed) None EmptyString (Editor.openingKind ed)
           (Editor.hoverWall ed) (Editor.view ed) (S (Editor.colorIndex ed)),
         addRoom (Room.mk uuid name (Rmin startX currentX) (Rmin startY currentY)
                    w h color) s)
      else (setDragState None ed, s)
  | _ => (setDragState None ed, s)
  end.

(** * Vocabulary of the further properties *)

Definition sizeH (f : Furniture.t) : R := snd (fst (Furniture.size f)).

Definition dotProduct (p q : R * R) : R := (fst p * fst q + snd p * snd q)%R.
Definition vecSub (p q : R * R) : R * R := ((fst p - fst q)%R, (snd p - snd q)%R).

(** A bounding box of interior pixels of a [w] by [h] raster. *)
Definition interiorBox (w h : Z) (r : Region.t) : Prop :=
  (1 <= Region.minX r <= Region.maxX r)%Z ∧ (Region.maxX r <= w - 2)%Z
  ∧ (1 <= Region.minY r <= Region.maxY r)%Z ∧ (Region.maxY r <= h - 2)%Z.

(** The pixel [(x, y)] lies on the frame of the raster. *)
Definition onBorder (w h x y : Z) : Prop :=
  (x = 0 ∨ x = w - 1 ∨ y = 0 ∨ y = h - 1)%Z.

(** Some wall pixel of [src] lies within Chebyshev distance [radius] of
    [(x, y)]. *)
Definition wallNear (src : list Z) (w h radius x y : Z) : Prop :=
  ∃ x' y', (0 <= x' < w)%Z ∧ (0 <= y' < h)%Z
           ∧ (x - radius <= x' <= x + radius)%Z ∧ (y - radius <= y' <= y + radius)%Z
           ∧ arrGet src (y' * w + x') = Some WALL.

(** [dst'] is [dst] with some pixels overwritten by [WALL]. *)
Definition walled (dst dst' : list Z) : Prop :=
  length dst' = length dst
  ∧ ∀ i, arrGet dst' i = arrGet dst i ∨ arrGet dst' i = Some WALL.

(** [(nx, ny)] is in the clipped square written while the wall pixel [(x, y)]
    is processed. *)
Definition painted (w h radius x y nx ny : Z) : Prop :=
  (Z.max 0 (x - radius) <= nx <= Z.min (w - 1) (x + radius))%Z
  ∧ (Z.max 0 (y - radius) <= ny <= Z.min (h - 1) (y + radius))%Z.

(** [dst], if it still has the size of [src], has a wall at [(nx, ny)]. *)
Definition wallAt (src : list Z) (w nx ny : Z) (dst : list Z) : Prop :=
  length dst = length src → arrGet dst (ny * w + nx) = Some WALL.

(** ** Vocabulary for the store and the editor *)

(** The height of the centre agrees with the elevation: the box drawn at
    [position] stands on [elevation]. *)
Definition grounded (f : Furniture.t) : Prop :=
  snd (fst (Furniture.position f)) = (bottom f + sizeH f / 2)%R.

Definition furnitureIds (s : HouseStore.t) : list string :=
  Furniture.id <$> HouseStore.furniture s.

Definition roomIds (s : HouseStore.t) : list string :=
  Room.id <$> HouseStore.rooms s.

(** Ids are unique and every piece stands at its elevation. *)
Definition furnitureOk (s : HouseStore.t) : Prop :=
  NoDup (furnitureIds s) ∧ Forall grounded (HouseStore.furniture s).

(** A patch that sets the rotation only. *)
Definition rotationPatch (r : R) : FurniturePatch.t :=
  FurniturePatch.mk None None None None (Some r) None.

(** [f] turned by a full turn if its id is [sel]. *)
Definition fullTurn (sel : string) (f : Furniture.t) : Furniture.t :=
  if decide (Furniture.id f = sel)
  then patchFurniture f (rotationPatch (orZero (Furniture.rotation f) + 2 * PI))
  else f.

(** Where the canvas draws a world point: the transform [redraw] installs
    with [ctx.setTransform(v.scale, 0, 0, v.scale, v.panX, v.panY)] (line
    874). *)
Definition viewTransform (view : ViewState.t) (p : R * R) : R * R :=
  (fst p * ViewState.scale view + ViewState.panX view,
   snd p * ViewState.scale view + ViewState.panY view)%R.


(** The point [(px, py)] lies in the rectangle of [r], border included. *)
Definition covers (r : Room.t) (px py : R) : Prop :=
  (Room.x r <= px <= Room.x r + Room.width r)%R
  ∧ (Room.y r <= py <= Room.y r + Room.height r)%R.

(** [r] moved by [(dx, dy)]. *)
Definition shiftRoom (r : Room.t) (dx dy : R) : Room.t :=
  Room.mk (Room.id r) (Room.name r) (Room.x r + dx)%R (Room.y r + dy)%R
    (Room.width r) (Room.height r) (Room.color r).

(** The corner of [r] that a handle stands for, and the one across. *)
Definition cornerOf (corner : CornerKey) (r : Room.t) : R * R :=
  match corner with
  | TL => (Room.x r, Room.y r)
  | TR => (Room.x r + Room.width r, Room.y r)
  | BL => (Room.x r, Room.y r + Room.height r)
  | BR => (Room.x r + Room.width r, Room.y r + Room.height r)
  end%R.





(** The centre of the opening [o] lies on the centre line of the wall box
    [wall], within its length, and [o] is turned along it. *)
Definition alongWall (o : Opening.t) (wall : Box3.t) : Prop :=
  let '(px, _, pz) := Box3.pos wall in
  let '(ax, _, az) := Box3.args wall in
  match Opening.wallAxis o with
  | AxisH =>
      openingWorldZ o = pz ∧ (Rabs (openingWorldX o - px) <= Rabs ax / 2)%R
      ∧ az = (8 / 100)%R ∧ openingRotY o = 0%R
  | AxisV =>
      openingWorldX o = px ∧ (Rabs (openingWorldZ o - pz) <= Rabs az / 2)%R
      ∧ ax = (8 / 100)%R ∧ openingRotY o = (PI / 2)%R
  end.

(** An editor in edit mode and a store with one room, for examples. *)
Definition editingEditor : Editor.t :=
  Editor.mk ModeEdit None EmptyString Door None (ViewState.mk 1 0 0) 0.

Definition oneRoomStore : HouseStore.t := setRooms [roomA] initialStore.

(** A palette entry and a store holding one piece made from it, for
    examples. *)
Definition sofa : FurnitureTemplate.t :=
  FurnitureTemplate.mk "sofa" (18 / 10, 7 / 10, 8 / 10)%R "#c0392b" "sofa".

Definition sofaStore : HouseStore.t := handleAdd "a" sofa initialStore.


(** ** Images *)

(** The raster drawn from [image] binarizes to walls only, or to open
    pixels only. *)
Definition blank (image : Image.t) : Prop :=
  let '(w, h) := rasterSize image in
  let binary := binarize w h (Image.drawn image w h) in
  Forall (λ v, v = WALL) binary ∨ Forall (λ v, v = OPEN) binary.

(** A plain white and a plain black image of [nw] by [nh] pixels; drawn at
    any size they stay plain. *)
Definition white (nw nh : N) : Image.t :=
  Image.mk nw nh nw nh (λ w h, drawImage w h (λ _ _, false)).

Definition black (nw nh : N) : Image.t :=
  Image.mk nw nh nw nh (λ w h, drawImage w h (λ _ _, true)).

(** A white strip, one pixel wide and 801 pixels high. *)
Definition strip : Image.t := white 1 801.

(** ** Drags *)

(** Every piece of the store with the id of [item] would stand on its
    elevation at the height [item] has: what a pointer move of a drag of
    [item] writes is right for the piece it writes to. *)
Definition heldAt (item : Furniture.t) (s : HouseStore.t) : Prop :=
  ∀ f, f ∈ HouseStore.furniture s → Furniture.id f = Furniture.id item →
       snd (fst (Furniture.position item)) = (bottom f + sizeH f / 2)%R.

(** The piece [sofaStore] holds. *)
Definition sofaPiece : Furniture.t :=
  Furniture.mk "a" "sofa" (0, 7 / 10 / 2, 0)%R (18 / 10, 7 / 10, 8 / 10)%R "#c0392b"
    (Some 0%R) (Some 0%R).

(** ** Editors and stores for the examples *)

(** An editor in opening mode, placing windows. *)
Definition openingEditor : Editor.t :=
  Editor.mk ModeOpening None EmptyString Window None (ViewState.mk 1 0 0) 0.

(** A door on the top wall and a window on the left wall of [roomA]. *)
Definition doorO1 : Opening.t := newOpening "o1" Door (WallHit.mk 50 0 AxisH).
Definition windowO2 : Opening.t := newOpening "o2" Window (WallHit.mk 0 50 AxisV).

Definition twoOpeningStore : HouseStore.t := setOpenings [doorO1; windowO2] oneRoomStore.

(** The editor while [doorO1] is dragged, the press having been at
    [(50, 2)]. *)
Definition draggingO1 : Editor.t :=
  Editor.mk ModeOpening (Some (MoveOpeningDrag "o1" 50 2 50 0)) EmptyString Window None
    (ViewState.mk 1 0 0) 0.

(** * Proofs *)

(** ** Collision engine *)

Lemma separatedOn_comm a b n : separatedOn a b n = separatedOn b a n.
Proof.
  unfold separatedOn.
  destruct (project a (fst n) (snd n)), (project b (fst n) (snd n)).
  apply orb_comm.
Qed.

Lemma forallb_pointwise {A} (f g : A → bool) (l : list A) :
  (∀ x, f x = g x) → forallb f l = forallb g l.
Proof. intros E. induction l as [|x l IH]; simpl; [done | by rewrite E, IH]. Qed.

Lemma sat2D_comm a b : sat2D a b = sat2D b a.
Proof.
  unfold sat2D; simpl. rewrite !andb_true_r.
  rewrite andb_comm. f_equal; apply forallb_pointwise; intros n; by rewrite separatedOn_comm.
Qed.

Lemma checkCollision_comm a b : checkCollision a b = checkCollision b a.
Proof.
  unfold checkCollision. rewrite (orb_comm (bool_decide (bottom a >= top b)%R)).
  by rewrite sat2D_comm.
Qed.

Lemma separatedOn_false a b n : separatedOn a b n = false ↔ overlapOn a b n.
Proof.
  unfold separatedOn, overlapOn.
  destruct (project a (fst n) (snd n)) as [minA maxA], (project b (fst n) (snd n)) as [minB maxB]; simpl.
  rewrite orb_false_iff, !bool_decide_eq_false. split; intros [? ?]; split; lra.
Qed.

Lemma sat2D_true a b :
  sat2D a b = true ↔ ∀ n, n ∈ edgeNormals a ++ edgeNormals b → overlapOn a b n.
Proof.
  unfold sat2D; simpl. rewrite andb_true_r, andb_true_iff, !forallb_forall.
  split.
  - intros [Ha Hb] n [Hn|Hn]%elem_of_app; apply separatedOn_false, negb_true_iff.
    + apply Ha. by apply list_elem_of_In.
    + apply Hb. by apply list_elem_of_In.
  - intros H; split; intros n Hn%list_elem_of_In; apply negb_true_iff, separatedOn_false, H;
      apply elem_of_app; auto.
Qed.

Lemma checkCollision_true a b :
  checkCollision a b = true ↔ verticalOverlap a b ∧ planarOverlap a b.
Proof.
  unfold checkCollision, verticalOverlap, planarOverlap, satAxes.
  rewrite <- sat2D_true.
  destruct (bool_decide (bottom a >= top b)%R) eqn:E1;
    [apply bool_decide_eq_true in E1 | apply bool_decide_eq_false in E1]; simpl.
  { split; [done | intros [[? ?] _]; lra]. }
  destruct (bool_decide (bottom b >= top a)%R) eqn:E2;
    [apply bool_decide_eq_true in E2 | apply bool_decide_eq_false in E2]; simpl.
  { split; [done | intros [[? ?] _]; lra]. }
  split; [intros ->; repeat split; lra | tauto].
Qed.

Lemma foldl_Rmin_le (l : list R) (d : R) :
  (foldl Rmin d l <= d)%R ∧ ∀ x, x ∈ l → (foldl Rmin d l <= x)%R.
Proof.
  revert d; induction l as [|y l IH]; intros d; simpl.
  - split; [lra | intros x Hx; inversion Hx].
  - destruct (IH (Rmin d y)) as [H1 H2].
    pose proof (Rmin_l d y); pose proof (Rmin_r d y).
    split; [lra|]. intros x [->|Hx]%elem_of_cons; [lra | auto].
Qed.

Lemma foldl_Rmin_glb (l : list R) (d m : R) :
  (m <= d)%R → (∀ x, x ∈ l → (m <= x)%R) → (m <= foldl Rmin d l)%R.
Proof.
  revert d; induction l as [|y l IH]; intros d Hd Hl; simpl; [done|].
  apply IH.
  - apply Rmin_glb; [done | apply Hl; left].
  - intros x Hx; apply Hl; by right.
Qed.

Lemma foldl_Rmax_ge (l : list R) (d : R) :
  (d <= foldl Rmax d l)%R ∧ ∀ x, x ∈ l → (x <= foldl Rmax d l)%R.
Proof.
  revert d; induction l as [|y l IH]; intros d; simpl.
  - split; [lra | intros x Hx; inversion Hx].
  - destruct (IH (Rmax d y)) as [H1 H2].
    pose proof (Rmax_l d y); pose proof (Rmax_r d y).
    split; [lra|]. intros x [->|Hx]%elem_of_cons; [lra | auto].
Qed.

Lemma foldl_Rmax_lub (l : list R) (d m : R) :
  (d <= m)%R → (∀ x, x ∈ l → (x <= m)%R) → (foldl Rmax d l <= m)%R.
Proof.
  revert d; induction l as [|y l IH]; intros d Hd Hl; simpl; [done|].
  apply IH.
  - apply Rmax_lub; [done | apply Hl; left].
  - intros x Hx; apply Hl; by right.
Qed.

Lemma minimum_glb (l : list R) (m : R) :
  l ≠ [] → (∀ x, x ∈ l → (m <= x)%R) → (m <= minimum l)%R.
Proof.
  destruct l as [|d l]; [done|]; intros _ H; simpl.
  apply foldl_Rmin_glb; [apply H; left | intros x Hx; apply H; by right].
Qed.

Lemma maximum_lub (l : list R) (m : R) :
  l ≠ [] → (∀ x, x ∈ l → (x <= m)%R) → (maximum l <= m)%R.
Proof.
  destruct l as [|d l]; [done|]; intros _ H; simpl.
  apply foldl_Rmax_lub; [apply H; left | intros x Hx; apply H; by right].
Qed.

Lemma sat2D_separated a b n :
  n ∈ edgeNormals a ++ edgeNormals b → separatedOn a b n = true → sat2D a b = false.
Proof.
  intros Hn Hs. destruct (sat2D a b) eqn:E; [|done].
  apply (proj1 (sat2D_true a b)) with (n := n) in E; [|done].
  apply separatedOn_false in E. congruence.
Qed.

Lemma checkCollision_separated a b n :
  n ∈ satAxes a b → separatedOn (getFootprint a) (getFootprint b) n = true →
  checkCollision a b = false.
Proof.
  intros Hn Hs. unfold checkCollision.
  rewrite (sat2D_separated _ _ n Hn Hs). by destruct (_ || _).
Qed.

Lemma getFootprint_aligned f :
  orZero (Furniture.rotation f) = 0%R →
  getFootprint f =
    [ (posX f - sizeW f / 2, posZ f - sizeD f / 2);
      (posX f + sizeW f / 2, posZ f - sizeD f / 2);
      (posX f + sizeW f / 2, posZ f + sizeD f / 2);
      (posX f - sizeW f / 2, posZ f + sizeD f / 2) ]%R.
Proof.
  unfold getFootprint, posX, posZ, sizeW, sizeD. intros ->.
  destruct (Furniture.size f) as [[w hh] d], (Furniture.position f) as [[px py] pz]; simpl.
  rewrite cos_0, sin_0.
  repeat (apply (f_equal2 cons); [apply (f_equal2 pair); lra|]). done.
Qed.

Ltac dots_bound :=
  intros ? ?; repeat match goal with
  | H : _ ∈ _ :: _ |- _ => apply elem_of_cons in H as [->|H]
  | H : _ ∈ [] |- _ => inversion H
  end; simpl; nra.

Lemma checkCollision_vertical_touch a b :
  top a = bottom b ∨ top b = bottom a → checkCollision a b = false.
Proof.
  unfold checkCollision. intros [E|E].
  - rewrite (bool_decide_eq_true_2 (bottom b >= top a)%R) by lra. by rewrite orb_true_r.
  - rewrite (bool_decide_eq_true_2 (bottom a >= top b)%R) by lra. done.
Qed.

(** C2.  Collision symmetry: the result of [checkCollision] does not
    depend on the order of its arguments. *)
Theorem checkCollision_symmetric (a b : Furniture.t) :
  checkCollision a b = checkCollision b a.
Proof. apply checkCollision_comm. Qed.

Lemma collideWithRest_elem s fi rest ids :
  s ∈ collideWithRest fi rest ids ↔
  s ∈ ids ∨ ∃ fj, fj ∈ rest ∧ involves s (fi, fj).
Proof.
  unfold collideWithRest. revert ids.
  induction rest as [|f rest IH]; intros ids; simpl.
  - split; [auto | intros [?|(fj & Hin & _)]; [done | inversion Hin]].
  - rewrite IH. unfold involves; simpl. split.
    + intros [H|(fj & Hin & Hc)].
      * destruct (checkCollision fi f) eqn:E.
        -- apply elem_of_union in H as [->%elem_of_singleton|H].
           { right; exists f; split; [left | auto]. }
           apply elem_of_union in H as [->%elem_of_singleton|H]; [|auto].
           right; exists f; split; [left | auto].
        -- auto.
      * right; exists fj; split; [by right | done].
    + intros [H|(fj & Hin & Hc & Hs)].
      * left. destruct (checkCollision fi f); [|done].
        rewrite !elem_of_union. auto.
      * apply elem_of_cons in Hin as [->|Hin].
        -- left. rewrite Hc, !elem_of_union, !elem_of_singleton.
           destruct Hs; auto.
        -- right; exists fj; auto.
Qed.

Lemma collideAll_elem s l ids :
  s ∈ collideAll l ids ↔ s ∈ ids ∨ ∃ p, p ∈ orderedPairs l ∧ involves s p.
Proof.
  revert ids; induction l as [|f rest IH]; intros ids; simpl.
  - split; [auto | intros [?|(p & Hin & _)]; [done | inversion Hin]].
  - rewrite IH, collideWithRest_elem. split.
    + intros [[H|(fj & Hin & Hi)]|(p & Hin & Hi)]; [auto | |].
      * right; exists (f, fj); split; [|done].
        apply elem_of_app; left. apply list_elem_of_fmap; eauto.
      * right; exists p; split; [|done]. apply elem_of_app; by right.
    + intros [H|(p & Hin & Hi)]; [auto|].
      apply elem_of_app in Hin as [Hin|Hin].
      * apply list_elem_of_fmap in Hin as (fj & -> & Hin). left; right; eauto.
      * right; eauto.
Qed.

Lemma orderedPairs_elem l u v :
  (u, v) ∈ orderedPairs l → u ∈ l ∧ v ∈ l.
Proof.
  induction l as [|f rest IH]; simpl; [intros H; inversion H|].
  intros [Hin|Hin]%elem_of_app.
  - apply list_elem_of_fmap in Hin as (fj & [= -> ->] & Hin). split; [left | by right].
  - destruct (IH Hin); split; by right.
Qed.





Lemma getFootprint_withPositionY f y : getFootprint (withPositionY f y) = getFootprint f.
Proof.
  unfold getFootprint, withPositionY, posX, posZ; simpl.
  by destruct (Furniture.size f) as [[w hh] d], (Furniture.position f) as [[px py] pz].
Qed.

Lemma checkCollision_withPositionY a b ya yb :
  checkCollision (withPositionY a ya) (withPositionY b yb) = checkCollision a b.
Proof. unfold checkCollision. by rewrite !getFootprint_withPositionY. Qed.

Lemma collideWithRest_fmap (g : Furniture.t → Furniture.t) fi rest ids :
  (∀ f, Furniture.id (g f) = Furniture.id f) →
  (∀ a b, checkCollision (g a) (g b) = checkCollision a b) →
  collideWithRest (g fi) (g <$> rest) ids = collideWithRest fi rest ids.
Proof.
  intros Hid Hcc. unfold collideWithRest. revert ids.
  induction rest as [|f rest IH]; intros ids; simpl; [done|].
  by rewrite IH, Hcc, !Hid.
Qed.

Lemma collideAll_fmap (g : Furniture.t → Furniture.t) l ids :
  (∀ f, Furniture.id (g f) = Furniture.id f) →
  (∀ a b, checkCollision (g a) (g b) = checkCollision a b) →
  collideAll (g <$> l) ids = collideAll l ids.
Proof.
  intros Hid Hcc. revert ids.
  induction l as [|f rest IH]; intros ids; [done|].
  rewrite fmap_cons. cbn [collideAll]. by rewrite collideWithRest_fmap, IH.
Qed.


(** C10.  Noninterference on [position[1]]: replacing the Y component of
    the position of either box by any value leaves [checkCollision]
    unchanged, and replacing it in every item of a list leaves
    [getCollidingIds] unchanged. *)
Theorem positionY_noninterference (a b : Furniture.t) (ya yb : R)
    (items : list Furniture.t) (newY : Furniture.t → R) :
  checkCollision (withPositionY a ya) (withPositionY b yb) = checkCollision a b
  ∧ getCollidingIds ((λ f, withPositionY f (newY f)) <$> items) = getCollidingIds items.
Proof.
  split; [apply checkCollision_withPositionY|].
  unfold getCollidingIds. apply collideAll_fmap; [done|].
  intros; apply checkCollision_withPositionY.
Qed.

Ltac eval_minmax :=
  unfold minimum, maximum; simpl;
  repeat match goal with
  | |- context [Rmin ?x ?y] =>
      first [rewrite (Rmin_left x y) by lra | rewrite (Rmin_right x y) by lra]
  | |- context [Rmax ?x ?y] =>
      first [rewrite (Rmax_left x y) by lra | rewrite (Rmax_right x y) by lra]
  end;
  lra.

Example collision_overlapping_boxes :
  checkCollision (box "A" 0 0 0 2 1 2 0 0) (box "B" 1 0 0 2 1 2 0 0) = true.
Proof.
  apply checkCollision_true. split; [unfold verticalOverlap, top, bottom; simpl; lra|].
  intros n Hn. unfold satAxes in Hn.
  rewrite !getFootprint_aligned in * by done.
  unfold overlapOn, project, posX, posZ, sizeW, sizeD in *; simpl in Hn |- *.
  unfold edgeNormals, edgeNormal, vertex in Hn; simpl in Hn.
  repeat (apply elem_of_cons in Hn as [->|Hn]); [..|inversion Hn]; simpl; split; eval_minmax.
Qed.

Example collision_disjoint_boxes :
  checkCollision (box "A" 0 0 0 2 1 2 0 0) (box "B" 3 0 0 2 1 2 0 0) = false.
Proof.
  apply (checkCollision_separated _ _ (edgeNormal (getFootprint (box "A" 0 0 0 2 1 2 0 0)) 1)).
  { unfold satAxes. apply elem_of_app; left. rewrite getFootprint_aligned by done.
    unfold edgeNormals; simpl. right; left. }
  rewrite !getFootprint_aligned by done.
  unfold separatedOn, project, edgeNormal, vertex, posX, posZ, sizeW, sizeD; simpl.
  apply orb_true_iff; right; apply bool_decide_eq_true. eval_minmax.
Qed.

Example collision_stacked_boxes :
  checkCollision (box "A" 0 0 0 2 1 2 0 0) (box "B" 0 0 0 2 1 2 0 1) = false.
Proof. apply checkCollision_vertical_touch. left; unfold top, bottom; simpl; lra. Qed.

(** ** Collision engine on binary64 numbers *)

Section Binary64.
Import PrimFloat SpecFloat FloatOps FloatAxioms.
#[local] Open Scope float_scope.

(** [SFcompare], the specification of the primitive comparisons, compares
    ranks. *)
Lemma SFcompare_rank f1 f2 :
  f1 ≠ S754_nan → f2 ≠ S754_nan →
  (SFcompare f1 f2 = Some Lt ∧ F64.lexlt (F64.rank f1) (F64.rank f2))
  ∨ (SFcompare f1 f2 = Some Eq ∧ F64.rank f1 = F64.rank f2)
  ∨ (SFcompare f1 f2 = Some Gt ∧ F64.lexlt (F64.rank f2) (F64.rank f1)).
Proof.
  intros H1 H2.
  destruct f1 as [s1|s1| |s1 m1 e1], f2 as [s2|s2| |s2 m2 e2]; try congruence;
    try (destruct s1); try (destruct s2); unfold F64.lexlt; cbn;
    try (left; split; [reflexivity | lia]);
    try (right; left; split; reflexivity);
    try (right; right; split; [reflexivity | lia]).
  - destruct (Z.compare_spec e1 e2) as [-> | He | He].
    + change (Pos.compare_cont Eq m1 m2) with (Pos.compare m1 m2).
      destruct (Pos.compare_spec m1 m2) as [-> | Hm | Hm]; cbn.
      * right; left; split; reflexivity.
      * right; right; split; [reflexivity | lia].
      * left; split; [reflexivity | lia].
    + right; right; split; [reflexivity | lia].
    + left; split; [reflexivity | lia].
  - destruct (Z.compare_spec e1 e2) as [-> | He | He].
    + change (Pos.compare_cont Eq m1 m2) with (Pos.compare m1 m2).
      destruct (Pos.compare_spec m1 m2) as [-> | Hm | Hm]; cbn.
      * right; left; split; reflexivity.
      * left; split; [reflexivity | lia].
      * right; right; split; [reflexivity | lia].
    + left; split; [reflexivity | lia].
    + right; right; split; [reflexivity | lia].
Qed.

Lemma is_nan_Prim2SF x : is_nan x = true ↔ Prim2SF x = S754_nan.
Proof.
  unfold is_nan. rewrite eqb_spec. unfold SFeqb. split.
  - intros H.
    assert (Prim2SF x = S754_nan ∨ Prim2SF x ≠ S754_nan) as [|Hn]
      by (destruct (Prim2SF x); auto); [done|].
    destruct (SFcompare_rank _ _ Hn Hn) as [[E L] | [[E _] | [E L]]];
      rewrite E in H; try discriminate; unfold F64.lexlt in L; lia.
  - intros ->. reflexivity.
Qed.

Lemma not_nan_Prim2SF x : is_nan x = false ↔ Prim2SF x ≠ S754_nan.
Proof. rewrite <- is_nan_Prim2SF. destruct (is_nan x); split; congruence. Qed.

(** The three comparisons of two numbers follow the order of their ranks. *)
Lemma float_order_cases x y :
  is_nan x = false → is_nan y = false →
  ((x <? y) = true ∧ (x <=? y) = true ∧ (x =? y) = false
     ∧ F64.lexlt (F64.rk x) (F64.rk y))
  ∨ ((x <? y) = false ∧ (x <=? y) = true ∧ (x =? y) = true ∧ F64.rk x = F64.rk y)
  ∨ ((x <? y) = false ∧ (x <=? y) = false ∧ (x =? y) = false
     ∧ F64.lexlt (F64.rk y) (F64.rk x)).
Proof.
  rewrite !not_nan_Prim2SF. intros Hx Hy.
  rewrite ltb_spec, leb_spec, eqb_spec. unfold SFltb, SFleb, SFeqb, F64.rk.
  destruct (SFcompare_rank _ _ Hx Hy) as [[E L] | [[E L] | [E L]]]; rewrite E; tauto.
Qed.

Lemma float_nan_compare x y :
  is_nan x = true ∨ is_nan y = true →
  (x <? y) = false ∧ (x <=? y) = false ∧ (x =? y) = false.
Proof.
  rewrite !is_nan_Prim2SF, ltb_spec, leb_spec, eqb_spec.
  unfold SFltb, SFleb, SFeqb.
  intros [-> | ->]; [|destruct (Prim2SF x)]; done.
Qed.

Lemma float_leb_numbers x y : (x <=? y) = true → is_nan x = false ∧ is_nan y = false.
Proof.
  intros H. destruct (is_nan x) eqn:Hx; [|destruct (is_nan y) eqn:Hy]; [| |done].
  - destruct (float_nan_compare x y) as (_ & E & _); [by left | congruence].
  - destruct (float_nan_compare x y) as (_ & E & _); [by right | congruence].
Qed.

Lemma float_ltb_numbers x y : (x <? y) = true → is_nan x = false ∧ is_nan y = false.
Proof.
  intros H. destruct (is_nan x) eqn:Hx; [|destruct (is_nan y) eqn:Hy]; [| |done].
  - destruct (float_nan_compare x y) as (E & _); [by left | congruence].
  - destruct (float_nan_compare x y) as (E & _); [by right | congruence].
Qed.

Lemma float_eqb_numbers x y : (x =? y) = true → is_nan x = false ∧ is_nan y = false.
Proof.
  intros H. destruct (is_nan x) eqn:Hx; [|destruct (is_nan y) eqn:Hy]; [| |done].
  - destruct (float_nan_compare x y) as (_ & _ & E); [by left | congruence].
  - destruct (float_nan_compare x y) as (_ & _ & E); [by right | congruence].
Qed.

(** Turns facts on ranks into linear arithmetic on integers. *)
Ltac ranks :=
  repeat match goal with
  | H : _ ∧ _ |- _ => destruct H
  end;
  unfold F64.lexlt in *;
  repeat match goal with
  | |- context [F64.rk ?x] => let a := fresh "a" in let b := fresh "b" in let c := fresh "c" in
      destruct (F64.rk x) as [[a b] c]
  | H : context [F64.rk ?x] |- _ => let a := fresh "a" in let b := fresh "b" in let c := fresh "c" in
      destruct (F64.rk x) as [[a b] c]
  end;
  cbn [fst snd] in *;
  repeat match goal with
  | H : (_, _) = (_, _) |- _ => injection H as ? ? ?
  end.

Lemma float_leb_refl x : is_nan x = false → (x <=? x) = true.
Proof.
  intros Hx. destruct (float_order_cases x x Hx Hx) as [H | [H | H]]; [| tauto |];
    exfalso; ranks; lia.
Qed.

Lemma float_leb_trans x y z : (x <=? y) = true → (y <=? z) = true → (x <=? z) = true.
Proof.
  intros Hxy Hyz.
  destruct (float_leb_numbers _ _ Hxy) as [Hx Hy], (float_leb_numbers _ _ Hyz) as [_ Hz].
  destruct (float_order_cases x y Hx Hy) as [H1 | [H1 | H1]],
           (float_order_cases y z Hy Hz) as [H2 | [H2 | H2]],
           (float_order_cases x z Hx Hz) as [H3 | [H3 | H3]];
    try tauto; try (exfalso; destruct H1 as (? & ? & ? & ?), H2 as (? & ? & ? & ?); congruence);
    exfalso; ranks; lia.
Qed.

Lemma float_leb_false x y : is_nan x = false → is_nan y = false → (x <=? y) = negb (y <? x).
Proof.
  intros Hx Hy.
  destruct (float_order_cases x y Hx Hy) as [H1 | [H1 | H1]],
           (float_order_cases y x Hy Hx) as [H2 | [H2 | H2]];
    destruct H1 as (? & E1 & ? & ?), H2 as (E2 & ? & ? & ?); rewrite E1, E2; try reflexivity;
    exfalso; ranks; lia.
Qed.

Lemma float_eqb_leb x y : (x =? y) = true ↔ (x <=? y) = true ∧ (y <=? x) = true.
Proof.
  split.
  - intros H. destruct (float_eqb_numbers _ _ H) as [Hx Hy].
    destruct (float_order_cases x y Hx Hy) as [H1 | [H1 | H1]],
             (float_order_cases y x Hy Hx) as [H2 | [H2 | H2]];
      try tauto; try (exfalso; destruct H1 as (? & ? & ? & ?); congruence);
      exfalso; ranks; try congruence; lia.
  - intros [H H']. destruct (float_leb_numbers _ _ H) as [Hx Hy].
    destruct (float_order_cases x y Hx Hy) as [H1 | [H1 | H1]],
             (float_order_cases y x Hy Hx) as [H2 | [H2 | H2]];
      try tauto; try (exfalso; destruct H1 as (? & ? & ? & ?), H2 as (? & ? & ? & ?); congruence);
      exfalso; ranks; try congruence; lia.
Qed.

Lemma float_ltb_leb x y : (x <? y) = true → (x <=? y) = true.
Proof.
  intros H. destruct (float_ltb_numbers _ _ H) as [Hx Hy].
  destruct (float_order_cases x y Hx Hy) as [H1 | [H1 | H1]]; try tauto.
  destruct H1; congruence.
Qed.

Lemma float_ltb_leb_trans x y z : (x <? y) = true → (y <=? z) = true → (x <? z) = true.
Proof.
  intros Hxy Hyz.
  destruct (float_ltb_numbers _ _ Hxy) as [Hx Hy], (float_leb_numbers _ _ Hyz) as [_ Hz].
  destruct (float_order_cases x y Hx Hy) as [H1 | [H1 | H1]],
           (float_order_cases y z Hy Hz) as [H2 | [H2 | H2]],
           (float_order_cases x z Hx Hz) as [H3 | [H3 | H3]];
    try tauto; try (exfalso; destruct H1 as (? & ? & ? & ?), H2 as (? & ? & ? & ?); congruence);
    exfalso; ranks; lia.
Qed.

Lemma float_leb_ltb_trans x y z : (x <=? y) = true → (y <? z) = true → (x <? z) = true.
Proof.
  intros Hxy Hyz.
  destruct (float_leb_numbers _ _ Hxy) as [Hx Hy], (float_ltb_numbers _ _ Hyz) as [_ Hz].
  destruct (float_order_cases x y Hx Hy) as [H1 | [H1 | H1]],
           (float_order_cases y z Hy Hz) as [H2 | [H2 | H2]],
           (float_order_cases x z Hx Hz) as [H3 | [H3 | H3]];
    try tauto; try (exfalso; destruct H1 as (? & ? & ? & ?), H2 as (? & ? & ? & ?); congruence);
    exfalso; ranks; lia.
Qed.


Lemma float_eqb_refl x : is_nan x = false → (x =? x) = true.
Proof. intros Hx. apply float_eqb_leb. split; by apply float_leb_refl. Qed.

Lemma float_ltb_not_leb x y : (x <? y) = true → (y <=? x) = false.
Proof.
  intros H. destruct (float_ltb_numbers _ _ H) as [Hx Hy].
  rewrite (float_leb_false y x Hy Hx), H. reflexivity.
Qed.

Lemma rank_bounds f :
  (-2 <= (F64.rank f).1.1 <= 2)%Z
  ∧ ((F64.rank f).1.1 = 2 → F64.rank f = (2, 0, 0))%Z
  ∧ ((F64.rank f).1.1 = -2 → F64.rank f = (-2, 0, 0))%Z.
Proof. destruct f as [[]|[]| |[] m e]; cbn; repeat split; intros; try lia; try reflexivity. Qed.

Lemma float_leb_infinity x : is_nan x = false → (x <=? infinity) = true.
Proof.
  intros Hx. assert (Hi : is_nan infinity = false) by reflexivity.
  destruct (float_order_cases x infinity Hx Hi) as [H | [H | H]]; try tauto.
  exfalso. destruct H as (_ & _ & _ & L).
  assert (E : F64.rk infinity = (2, 0, 0)%Z) by (vm_compute; reflexivity).
  rewrite E in L. unfold F64.rk in L. destruct (rank_bounds (Prim2SF x)) as (B & B2 & _).
  unfold F64.lexlt in L. cbn [fst snd] in L.
  destruct L as [L | [L1 L]]; [lia|]. rewrite B2 in L by lia. cbn in L. lia.
Qed.

Lemma float_neg_infinity_leb x : is_nan x = false → (neg_infinity <=? x) = true.
Proof.
  intros Hx. assert (Hi : is_nan neg_infinity = false) by reflexivity.
  destruct (float_order_cases neg_infinity x Hi Hx) as [H | [H | H]]; try tauto.
  exfalso. destruct H as (_ & _ & _ & L).
  assert (E : F64.rk neg_infinity = (-2, 0, 0)%Z) by (vm_compute; reflexivity).
  rewrite E in L. unfold F64.rk in L. destruct (rank_bounds (Prim2SF x)) as (B & _ & B2).
  unfold F64.lexlt in L. cbn [fst snd] in L.
  destruct L as [L | [L1 L]]; [lia|]. rewrite B2 in L by lia. cbn in L. lia.
Qed.

Lemma isNegZero_rank x : F64.isNegZero x = true → is_nan x = false ∧ F64.rk x = (0, 0, 0)%Z.
Proof.
  unfold F64.isNegZero, F64.rk. rewrite classify_spec, not_nan_Prim2SF.
  unfold SF64classify, SFclassify.
  destruct (Prim2SF x) as [[]|[]| |[] m e]; try discriminate; try done;
    destruct (_ =? _)%Z; discriminate.
Qed.

Lemma isPosZero_rank x : F64.isPosZero x = true → is_nan x = false ∧ F64.rk x = (0, 0, 0)%Z.
Proof.
  unfold F64.isPosZero, F64.rk. rewrite classify_spec, not_nan_Prim2SF.
  unfold SF64classify, SFclassify.
  destruct (Prim2SF x) as [[]|[]| |[] m e]; try discriminate; try done;
    destruct (_ =? _)%Z; discriminate.
Qed.

Lemma same_rank_leb x y :
  is_nan x = false → is_nan y = false → F64.rk x = F64.rk y → (x <=? y) = true.
Proof.
  intros Hx Hy E. destruct (float_order_cases x y Hx Hy) as [H | [H | H]]; try tauto.
  exfalso. destruct H as (_ & _ & _ & L). rewrite E in L. unfold F64.lexlt in L. lia.
Qed.

(** [Math.min] and [Math.max] of numbers. *)
Lemma minStep_spec acc d :
  is_nan acc = false → is_nan d = false →
  is_nan (F64.minStep acc d) = false
  ∧ (F64.minStep acc d <=? acc) = true
  ∧ (F64.minStep acc d <=? d) = true
  ∧ (F64.minStep acc d = acc ∨ F64.minStep acc d = d).
Proof.
  intros Ha Hd. unfold F64.minStep. rewrite Ha, Hd.
  destruct (F64.isNegZero d && F64.isPosZero acc) eqn:Hz.
  - apply andb_true_iff in Hz as [Hz1 Hz2].
    apply isNegZero_rank in Hz1 as [_ Hz1]. apply isPosZero_rank in Hz2 as [_ Hz2].
    repeat split; auto using float_leb_refl. apply same_rank_leb; congruence.
  - destruct (d <? acc) eqn:Hlt.
    + repeat split; auto using float_leb_refl, float_ltb_leb.
    + repeat split; auto using float_leb_refl.
      rewrite (float_leb_false acc d Ha Hd), Hlt. reflexivity.
Qed.

Lemma maxStep_spec acc d :
  is_nan acc = false → is_nan d = false →
  is_nan (F64.maxStep acc d) = false
  ∧ (acc <=? F64.maxStep acc d) = true
  ∧ (d <=? F64.maxStep acc d) = true
  ∧ (F64.maxStep acc d = acc ∨ F64.maxStep acc d = d).
Proof.
  intros Ha Hd. unfold F64.maxStep. rewrite Ha, Hd.
  destruct (F64.isPosZero d && F64.isNegZero acc) eqn:Hz.
  - apply andb_true_iff in Hz as [Hz1 Hz2].
    apply isPosZero_rank in Hz1 as [_ Hz1]. apply isNegZero_rank in Hz2 as [_ Hz2].
    repeat split; auto using float_leb_refl. apply same_rank_leb; congruence.
  - destruct (acc <? d) eqn:Hlt.
    + repeat split; auto using float_leb_refl, float_ltb_leb.
    + repeat split; auto using float_leb_refl.
      rewrite (float_leb_false d acc Hd Ha), Hlt. reflexivity.
Qed.

Lemma foldl_minStep l acc :
  is_nan acc = false → F64.numbers l →
  is_nan (foldl F64.minStep acc l) = false
  ∧ (foldl F64.minStep acc l <=? acc) = true
  ∧ (∀ d, d ∈ l → (foldl F64.minStep acc l <=? d) = true)
  ∧ (foldl F64.minStep acc l = acc ∨ foldl F64.minStep acc l ∈ l).
Proof.
  revert acc. induction l as [|d l IH]; intros acc Ha Hl; cbn [foldl].
  - repeat split; auto using float_leb_refl. intros d Hd. by apply elem_of_nil in Hd.
  - apply Forall_cons in Hl as [Hd Hl].
    destruct (minStep_spec acc d Ha Hd) as (Hn & Hacc & Hle & Hin).
    destruct (IH _ Hn Hl) as (Hn' & Hacc' & Hle' & Hin').
    repeat split; [done | by eapply float_leb_trans | | ].
    + intros d' [-> | Hd']%elem_of_cons; [by eapply float_leb_trans | by apply Hle'].
    + destruct Hin' as [-> | Hin']; [|right; by right].
      destruct Hin as [-> | ->]; [by left | right; by left].
Qed.

Lemma foldl_maxStep l acc :
  is_nan acc = false → F64.numbers l →
  is_nan (foldl F64.maxStep acc l) = false
  ∧ (acc <=? foldl F64.maxStep acc l) = true
  ∧ (∀ d, d ∈ l → (d <=? foldl F64.maxStep acc l) = true)
  ∧ (foldl F64.maxStep acc l = acc ∨ foldl F64.maxStep acc l ∈ l).
Proof.
  revert acc. induction l as [|d l IH]; intros acc Ha Hl; cbn [foldl].
  - repeat split; auto using float_leb_refl. intros d Hd. by apply elem_of_nil in Hd.
  - apply Forall_cons in Hl as [Hd Hl].
    destruct (maxStep_spec acc d Ha Hd) as (Hn & Hacc & Hle & Hin).
    destruct (IH _ Hn Hl) as (Hn' & Hacc' & Hle' & Hin').
    repeat split; [done | by eapply float_leb_trans | | ].
    + intros d' [-> | Hd']%elem_of_cons; [by eapply float_leb_trans | by apply Hle'].
    + destruct Hin' as [-> | Hin']; [|right; by right].
      destruct Hin as [-> | ->]; [by left | right; by left].
Qed.

Lemma mathMin_least l : l ≠ [] → F64.numbers l → F64.least (F64.mathMin l) l.
Proof.
  intros Hne Hl. unfold F64.mathMin.
  destruct (foldl_minStep l infinity eq_refl Hl) as (Hn & _ & Hle & Hin).
  split; [|done].
  destruct Hin as [E | Hin].
  - destruct l as [|d l]; [done|]. exists d. split; [by left|].
    apply float_eqb_leb. split; [apply Hle; by left|].
    rewrite E. apply float_leb_infinity. by apply Forall_cons in Hl as [? _].
  - eexists. split; [exact Hin|]. by apply float_eqb_refl.
Qed.

Lemma mathMax_greatest l : l ≠ [] → F64.numbers l → F64.greatest (F64.mathMax l) l.
Proof.
  intros Hne Hl. unfold F64.mathMax.
  destruct (foldl_maxStep l neg_infinity eq_refl Hl) as (Hn & _ & Hle & Hin).
  split; [|done].
  destruct Hin as [E | Hin].
  - destruct l as [|d l]; [done|]. exists d. split; [by left|].
    apply float_eqb_leb. split; [|apply Hle; by left].
    rewrite E. apply float_neg_infinity_leb. by apply Forall_cons in Hl as [? _].
  - eexists. split; [exact Hin|]. by apply float_eqb_refl.
Qed.

Lemma least_numbers m l : F64.least m l → F64.numbers l.
Proof.
  intros [_ H]. apply Forall_forall. intros d Hd. by destruct (float_leb_numbers _ _ (H d Hd)).
Qed.

Lemma least_leb m m' l : F64.least m l → F64.least m' l → (m <=? m') = true.
Proof.
  intros [_ H] [(d & Hd & E) _]. apply float_eqb_leb in E as [_ E].
  eapply float_leb_trans; [by apply H | done].
Qed.

Lemma greatest_leb m m' l : F64.greatest m l → F64.greatest m' l → (m <=? m') = true.
Proof.
  intros [(d & Hd & E) _] [_ H]. apply float_eqb_leb in E as [E _].
  eapply float_leb_trans; [done | by apply H].
Qed.

Lemma project_dots pts n :
  F64.project pts n.1 n.2 = (F64.mathMin (F64.dots pts n), F64.mathMax (F64.dots pts n)).
Proof.
  unfold F64.project, F64.dots.
  assert (E : map (λ '(x, y), x * n.1 + y * n.2) pts = (λ p, F64.dot p n) <$> pts).
  { apply map_ext. by intros [x y]. }
  by rewrite E.
Qed.

Lemma dots_nonempty pts n : pts ≠ [] → F64.dots pts n ≠ [].
Proof. by destruct pts. Qed.

(** On one axis: the source's test fails exactly when the two ranges
    strictly overlap. *)
Lemma separatedOn_overlap a b n :
  a ≠ [] → b ≠ [] → F64.numbers (F64.dots a n) → F64.numbers (F64.dots b n) →
  F64.separatedOn a b n = false → F64.overlapOn a b n.
Proof.
  intros Ha Hb Na Nb. unfold F64.separatedOn. rewrite !project_dots.
  intros [H1 H2]%orb_false_iff.
  pose proof (mathMin_least _ (dots_nonempty a n Ha) Na) as LA.
  pose proof (mathMax_greatest _ (dots_nonempty a n Ha) Na) as GA.
  pose proof (mathMin_least _ (dots_nonempty b n Hb) Nb) as LB.
  pose proof (mathMax_greatest _ (dots_nonempty b n Hb) Nb) as GB.
  exists (F64.mathMin (F64.dots a n)), (F64.mathMax (F64.dots a n)),
         (F64.mathMin (F64.dots b n)), (F64.mathMax (F64.dots b n)).
  assert (NminA : is_nan (F64.mathMin (F64.dots a n)) = false)
    by (destruct LA as [(d & _ & E) _]; by destruct (float_eqb_numbers _ _ E)).
  assert (NmaxA : is_nan (F64.mathMax (F64.dots a n)) = false)
    by (destruct GA as [(d & _ & E) _]; by destruct (float_eqb_numbers _ _ E)).
  assert (NminB : is_nan (F64.mathMin (F64.dots b n)) = false)
    by (destruct LB as [(d & _ & E) _]; by destruct (float_eqb_numbers _ _ E)).
  assert (NmaxB : is_nan (F64.mathMax (F64.dots b n)) = false)
    by (destruct GB as [(d & _ & E) _]; by destruct (float_eqb_numbers _ _ E)).
  rewrite float_leb_false in H1, H2 by done.
  apply negb_false_iff in H1, H2.
  split; [by split|]. split; [by split|]. by split.
Qed.

Lemma overlap_separatedOn a b n :
  a ≠ [] → b ≠ [] → F64.overlapOn a b n → F64.separatedOn a b n = false.
Proof.
  intros Ha Hb (minA & maxA & minB & maxB & [LA GA] & [LB GB] & H1 & H2).
  unfold F64.separatedOn. rewrite !project_dots.
  pose proof (least_numbers _ _ LA) as Na. pose proof (least_numbers _ _ LB) as Nb.
  pose proof (mathMin_least _ (dots_nonempty a n Ha) Na) as LA'.
  pose proof (mathMax_greatest _ (dots_nonempty a n Ha) Na) as GA'.
  pose proof (mathMin_least _ (dots_nonempty b n Hb) Nb) as LB'.
  pose proof (mathMax_greatest _ (dots_nonempty b n Hb) Nb) as GB'.
  apply orb_false_iff. split.
  - destruct (_ <=? _) eqn:E; [|done]. exfalso.
    assert ((maxA <=? minB) = true) as C.
    { eapply float_leb_trans; [exact (greatest_leb _ _ _ GA GA')|].
      eapply float_leb_trans; [exact E|]. exact (least_leb _ _ _ LB' LB). }
    apply float_ltb_not_leb in H2. congruence.
  - destruct (_ <=? _) eqn:E; [|done]. exfalso.
    assert ((maxB <=? minA) = true) as C.
    { eapply float_leb_trans; [exact (greatest_leb _ _ _ GB GB')|].
      eapply float_leb_trans; [exact E|]. exact (least_leb _ _ _ LA' LA). }
    apply float_ltb_not_leb in H1. congruence.
Qed.

Lemma touching_separatedOn a b n :
  a ≠ [] → b ≠ [] → F64.touchingOn a b n → F64.separatedOn a b n = true.
Proof.
  intros Ha Hb (minA & maxA & minB & maxB & [LA GA] & [LB GB] & H).
  unfold F64.separatedOn. rewrite !project_dots.
  pose proof (least_numbers _ _ LA) as Na. pose proof (least_numbers _ _ LB) as Nb.
  pose proof (mathMin_least _ (dots_nonempty a n Ha) Na) as LA'.
  pose proof (mathMax_greatest _ (dots_nonempty a n Ha) Na) as GA'.
  pose proof (mathMin_least _ (dots_nonempty b n Hb) Nb) as LB'.
  pose proof (mathMax_greatest _ (dots_nonempty b n Hb) Nb) as GB'.
  apply orb_true_iff. destruct H as [H | H]; apply float_eqb_leb in H as [H _]; [left | right].
  - eapply float_leb_trans; [exact (greatest_leb _ _ _ GA' GA)|].
    eapply float_leb_trans; [exact H|]. exact (least_leb _ _ _ LB LB').
  - eapply float_leb_trans; [exact (greatest_leb _ _ _ GB' GB)|].
    eapply float_leb_trans; [exact H|]. exact (least_leb _ _ _ LA LA').
Qed.

Lemma getFootprint_corners64 cos sin f :
  ∃ p0 p1 p2 p3, F64.getFootprint cos sin f = [p0; p1; p2; p3].
Proof.
  unfold F64.getFootprint. destruct (F64.Furniture.size f) as [[w h] d].
  destruct (F64.Furniture.position f) as [[px py] pz]. cbn [map]. by eexists _, _, _, _.
Qed.

Lemma edgeNormals_edgeAxes p0 p1 p2 p3 :
  F64.edgeNormals [p0; p1; p2; p3] = F64.edgeAxes [p0; p1; p2; p3].
Proof. reflexivity. Qed.

Lemma sat2D_true64 a b :
  F64.sat2D a b = true ↔
  ∀ n, n ∈ F64.edgeNormals a ++ F64.edgeNormals b → F64.separatedOn a b n = false.
Proof.
  unfold F64.sat2D. cbn [forallb]. rewrite andb_true_r, andb_true_iff, !forallb_forall.
  split.
  - intros [H1 H2] n [Hn | Hn]%elem_of_app; apply negb_true_iff;
      [apply H1 | apply H2]; by apply list_elem_of_In.
  - intros H. split; intros n Hn%list_elem_of_In; apply negb_true_iff, H, elem_of_app; auto.
Qed.

Lemma vertical_gate a b :
  Forall (λ x, is_nan x = false) [F64.bottom a; F64.top a; F64.bottom b; F64.top b] →
  ((F64.top b <=? F64.bottom a) || (F64.top a <=? F64.bottom b)) = false
  ↔ F64.verticalOverlap a b.
Proof.
  intros H. apply Forall_cons in H as [Ha H]. apply Forall_cons in H as [Ha' H].
  apply Forall_cons in H as [Hb H]. apply Forall_cons in H as [Hb' _].
  unfold F64.verticalOverlap. rewrite orb_false_iff, !float_leb_false by done.
  rewrite !negb_false_iff. tauto.
Qed.

Lemma numeric_spec cos sin a b :
  F64.numeric cos sin a b = true →
  Forall (λ x, is_nan x = false) [F64.bottom a; F64.top a; F64.bottom b; F64.top b]
  ∧ ∀ n, n ∈ F64.satAxes (F64.getFootprint cos sin a) (F64.getFootprint cos sin b) →
      F64.numbers (F64.dots (F64.getFootprint cos sin a) n)
      ∧ F64.numbers (F64.dots (F64.getFootprint cos sin b) n).
Proof.
  unfold F64.numeric. cbv zeta. intros [H1 H2]%andb_true_iff. split.
  - apply Forall_forall. intros x Hx%list_elem_of_In.
    rewrite forallb_forall in H1. by apply negb_true_iff, H1.
  - intros n Hn%list_elem_of_In. rewrite forallb_forall in H2. specialize (H2 n Hn).
    rewrite forallb_forall in H2.
    split; apply Forall_forall; intros x Hx; apply negb_true_iff, H2, list_elem_of_In,
      elem_of_app; auto.
Qed.

(** C1.  On binary64 numbers, for two pieces none of whose extents and
    projections is NaN: [checkCollision] answers [true] exactly when the
    vertical extents [[bottom, top)] overlap strictly and, on every edge
    normal of both footprints, the ranges the two footprints span overlap
    strictly.  Touching is not colliding: extents that meet at a single
    value, and an axis on which the maximum of one range equals ([==]) the
    minimum of the other, give [false].  Extents, corners and projections
    are the numbers the code computes, roundings included. *)
Theorem checkCollision_binary64 (cos sin : float → float) (a b : F64.Furniture.t) :
  F64.numeric cos sin a b = true →
  (F64.checkCollision cos sin a b = true
     ↔ F64.verticalOverlap a b
       ∧ F64.planarOverlap (F64.getFootprint cos sin a) (F64.getFootprint cos sin b))
  ∧ (F64.verticalTouch a b → F64.checkCollision cos sin a b = false)
  ∧ (∀ n, n ∈ F64.satAxes (F64.getFootprint cos sin a) (F64.getFootprint cos sin b) →
          F64.touchingOn (F64.getFootprint cos sin a) (F64.getFootprint cos sin b) n →
          F64.checkCollision cos sin a b = false).
Proof.
  intros [Hv Hd]%numeric_spec.
  destruct (getFootprint_corners64 cos sin a) as (a0 & a1 & a2 & a3 & Ea).
  destruct (getFootprint_corners64 cos sin b) as (b0 & b1 & b2 & b3 & Eb).
  unfold F64.checkCollision, F64.planarOverlap, F64.satAxes in *.
  rewrite Ea, Eb in *. rewrite <- !edgeNormals_edgeAxes in *.
  split; [|split].
  - destruct (_ || _) eqn:G.
    + split; [done|]. intros [V _]. apply vertical_gate in V; [congruence | done].
    + apply vertical_gate in G; [|done]. rewrite sat2D_true64. split.
      * intros H. split; [done|]. intros n Hn.
        apply separatedOn_overlap; try done; try apply Hd; auto.
      * intros [_ H] n Hn. apply overlap_separatedOn; auto.
  - intros [V | V]; apply float_eqb_leb in V as [V _]; rewrite V; [|rewrite orb_true_l];
      by rewrite ?orb_true_r.
  - intros n Hn T. destruct (_ || _); [done|].
    apply not_true_is_false. rewrite sat2D_true64. intros H.
    specialize (H n Hn). rewrite touching_separatedOn in H; done.
Qed.



(** The theorem at the scenario of the specification, [B] one metre from
    [A]: the pieces collide, so their extents and their ranges on all eight
    axes overlap; and at [B] two metres from [A], where the two share a
    face: on the normal of that face the ranges of [A] and [B] touch at
    [-2], and the answer is [false]. *)
Lemma checkCollision_binary64_witness :
  (F64.numeric F64.quarterCos F64.quarterSin F64.boxA (F64.boxB 1) = true
   ∧ F64.getFootprint F64.quarterCos F64.quarterSin F64.boxA
     = [(-1, -1); (1, -1); (1, 1); (-1, 1)]
   ∧ F64.getFootprint F64.quarterCos F64.quarterSin (F64.boxB 1)
     = [(0, -1); (2, -1); (2, 1); (0, 1)]
   ∧ F64.checkCollision F64.quarterCos F64.quarterSin F64.boxA (F64.boxB 1) = true
   ∧ F64.verticalOverlap F64.boxA (F64.boxB 1)
   ∧ F64.planarOverlap (F64.getFootprint F64.quarterCos F64.quarterSin F64.boxA)
                       (F64.getFootprint F64.quarterCos F64.quarterSin (F64.boxB 1)))
  ∧ (F64.numeric F64.quarterCos F64.quarterSin F64.boxA (F64.boxB 2) = true
     ∧ F64.touchingOn (F64.getFootprint F64.quarterCos F64.quarterSin F64.boxA)
                      (F64.getFootprint F64.quarterCos F64.quarterSin (F64.boxB 2))
                      (-2, 0)
     ∧ F64.checkCollision F64.quarterCos F64.quarterSin F64.boxA (F64.boxB 2) = false).
Proof.
  assert (N1 : F64.numeric F64.quarterCos F64.quarterSin F64.boxA (F64.boxB 1) = true)
    by (vm_compute; reflexivity).
  assert (N2 : F64.numeric F64.quarterCos F64.quarterSin F64.boxA (F64.boxB 2) = true)
    by (vm_compute; reflexivity).
  assert (C : F64.checkCollision F64.quarterCos F64.quarterSin F64.boxA (F64.boxB 1) = true)
    by (vm_compute; reflexivity).
  assert (T : F64.touchingOn (F64.getFootprint F64.quarterCos F64.quarterSin F64.boxA)
                (F64.getFootprint F64.quarterCos F64.quarterSin (F64.boxB 2)) (-2, 0)).
  { exists (-2), 2, (-6), (-2).
    assert (Ea : F64.dots (F64.getFootprint F64.quarterCos F64.quarterSin F64.boxA) (-2, 0)
                 = [2; -2; -2; 2]) by (vm_compute; reflexivity).
    assert (Eb : F64.dots (F64.getFootprint F64.quarterCos F64.quarterSin (F64.boxB 2))
                   (-2, 0) = [-2; -6; -6; -2]) by (vm_compute; reflexivity).
    unfold F64.range, F64.least, F64.greatest. rewrite Ea, Eb.
    repeat match goal with |- _ ∧ _ => split end;
      try (right; reflexivity);
      try (intros d Hd; repeat (apply elem_of_cons in Hd as [-> | Hd]);
           [reflexivity .. | by apply elem_of_nil in Hd]).
    - exists (-2). split; [right; left | reflexivity].
    - exists 2. split; [left | reflexivity].
    - exists (-6). split; [right; left | reflexivity].
    - exists (-2). split; [left | reflexivity]. }
  split.
  - split; [exact N1|]. split; [vm_compute; reflexivity|].
    split; [vm_compute; reflexivity|]. split; [exact C|].
    exact (proj1 (proj1 (checkCollision_binary64 _ _ _ _ N1)) C).
  - split; [exact N2|]. split; [exact T|].
    refine (proj2 (proj2 (checkCollision_binary64 _ _ _ _ N2)) (-2, 0) _ T).
    apply elem_of_app. left. vm_compute. right. left.
Defined.

Lemma lost_projections cos sin :
  F64.dots (F64.getFootprint cos sin F64.lost) (-0, 1) = [nan; nan; nan; nan].
Proof. vm_compute. reflexivity. Qed.

(** C1 does not hold of every pair of boxes: a NaN makes every comparison
    false, so neither the test on the extents nor any axis separates.
    [adrift] has a NaN elevation and [above] is fifty metres up: of their
    extents neither [bottom < top] holds, and [checkCollision] answers
    [true].  [lost] has a NaN [x] and [far] is a hundred metres from
    everything: the corners of [lost] project to NaN on every axis, so its
    footprint spans no range and overlaps nothing, and [checkCollision]
    answers [true].  Such pieces come out of a CSV import of a row whose
    [elevation] or [x] is not a number.  The answers do not depend on the
    engine's cosine and sine. *)
Lemma checkCollision_nan_collides :
  ((∀ cos sin, F64.checkCollision cos sin F64.adrift F64.above = true)
   ∧ ¬ F64.verticalOverlap F64.adrift F64.above)
  ∧ ((∀ cos sin, F64.checkCollision cos sin F64.lost F64.far = true)
     ∧ F64.verticalOverlap F64.lost F64.far
     ∧ (∀ cos sin, ¬ F64.planarOverlap (F64.getFootprint cos sin F64.lost)
                                        (F64.getFootprint cos sin F64.far))).
Proof.
  split; [split | split; [|split]].
  - intros cos sin. vm_compute. reflexivity.
  - intros [H _]. vm_compute in H. discriminate.
  - intros cos sin. vm_compute. reflexivity.
  - split; vm_compute; reflexivity.
  - intros cos sin H.
    destruct (H (-0, 1)) as (minA & maxA & minB & maxB & [[_ L] _] & _).
    { apply elem_of_app. right. vm_compute. left. }
    rewrite lost_projections in L. specialize (L nan ltac:(left)).
    apply float_leb_numbers in L as [_ L]. discriminate.
Qed.

(** On binary64 numbers too the answer does not depend on the order of the
    two pieces, nor on their [position[1]]. *)
Lemma separatedOn64_comm a b n : F64.separatedOn a b n = F64.separatedOn b a n.
Proof.
  unfold F64.separatedOn.
  destruct (F64.project a n.1 n.2) as [minA maxA], (F64.project b n.1 n.2) as [minB maxB].
  apply orb_comm.
Qed.

Lemma checkCollision64_comm cos sin a b :
  F64.checkCollision cos sin a b = F64.checkCollision cos sin b a.
Proof.
  unfold F64.checkCollision. rewrite orb_comm.
  destruct (_ || _); [done|]. unfold F64.sat2D. cbn [forallb].
  rewrite !andb_true_r, andb_comm.
  f_equal; apply forallb_pointwise; intros n; by rewrite separatedOn64_comm.
Qed.

Lemma checkCollision64_ignores_y cos sin id name x y y' z size color rotation elevation b :
  F64.checkCollision cos sin
    (F64.Furniture.mk id name (x, y, z) size color rotation elevation) b
  = F64.checkCollision cos sin
      (F64.Furniture.mk id name (x, y', z) size color rotation elevation) b.
Proof. reflexivity. Qed.

(** The scenarios of the specification, whatever the engine's cosine and
    sine: [B] one metre from [A] collides with it; three metres away it
    does not; two metres away the boxes share a face and do not collide;
    and [B] standing on [A] does not collide with it. *)
Lemma checkCollision_scenarios (cos sin : float → float) :
  F64.checkCollision cos sin F64.boxA (F64.boxB 1) = true
  ∧ F64.checkCollision cos sin F64.boxA (F64.boxB 3) = false
  ∧ F64.checkCollision cos sin F64.boxA (F64.boxB 2) = false
  ∧ F64.checkCollision cos sin F64.boxA (F64.box "B" 0 0 0 2 1 2 0 1) = false.
Proof. repeat split; vm_compute; reflexivity. Qed.

(** The footprint depends on the engine only through the cosine and the
    sine of the rotation of the piece. *)
Lemma getFootprint_trig (cos sin cos' sin' : float → float) (f : F64.Furniture.t) :
  cos (F64.orZero (F64.Furniture.rotation f)) = cos' (F64.orZero (F64.Furniture.rotation f)) →
  sin (F64.orZero (F64.Furniture.rotation f)) = sin' (F64.orZero (F64.Furniture.rotation f)) →
  F64.getFootprint cos sin f = F64.getFootprint cos' sin' f.
Proof.
  intros Hc Hs. unfold F64.getFootprint, F64.mathCos, F64.mathSin. by rewrite Hc, Hs.
Qed.

(** Rotation is taken into account: a box 4 long and 1 deep does not reach
    a box at [z = 1.5], and does after a quarter turn, on an engine with
    the correctly rounded cosine and sine of [Math.PI / 2]. *)
Set Warnings "-inexact-float".
Lemma checkCollision_quarter_turn (cos sin : float → float) :
  cos F64.halfPi = 6.123233995736766e-17 → sin F64.halfPi = 1 →
  F64.checkCollision cos sin (F64.box "A" 0 0 0 4 1 1 0 0)
                             (F64.box "B" 0 0 1.5 1 1 1 0 0) = false
  ∧ F64.checkCollision cos sin (F64.box "A" 0 0 0 4 1 1 F64.halfPi 0)
                               (F64.box "B" 0 0 1.5 1 1 1 0 0) = true.
Proof.
  intros Hc Hs. split; [vm_compute; reflexivity|].
  unfold F64.checkCollision.
  rewrite (getFootprint_trig cos sin F64.quarterCos F64.quarterSin
             (F64.box "A" _ _ _ _ _ _ _ _))
    by (first [ change (cos F64.halfPi = F64.quarterCos F64.halfPi); rewrite Hc
              | change (sin F64.halfPi = F64.quarterSin F64.halfPi); rewrite Hs ];
        vm_compute; reflexivity).
  vm_compute. reflexivity.
Qed.
Set Warnings "+inexact-float".

End Binary64.

(** ** Wall snapping *)

Lemma considerSeg_unfold cx cy st seg :
  considerSeg cx cy st seg =
  if decide (lenSq seg = 0%R) then st
  else if decide (wallDistance seg cx cy < snd st)%R
       then (Some (hitOn seg cx cy), wallDistance seg cx cy)
       else st.
Proof.
  unfold considerSeg, lenSq, wallDistance, hitOn.
  destruct (pointAt seg (clampedParam seg cx cy)) as [px py]; simpl.
  reflexivity.
Qed.

Lemma findNearestWall_allSegs rooms cx cy snapDist :
  findNearestWall rooms cx cy snapDist =
  fst (foldl (considerSeg cx cy) (None, snapDist) (allSegs rooms)).
Proof.
  unfold findNearestWall, allSegs. f_equal. generalize (@None WallHit.t, snapDist).
  induction rooms as [|room rooms IH]; intros st; [done|].
  rewrite bind_cons, foldl_app. cbn [foldl]. apply IH.
Qed.

Lemma scan_invariant cx cy (l : list Seg.t) (best : option WallHit.t) (bd : R) :
  let st := foldl (considerSeg cx cy) (best, bd) l in
  (snd st <= bd)%R
  ∧ (∀ seg, seg ∈ l → lenSq seg ≠ 0%R → (snd st <= wallDistance seg cx cy)%R)
  ∧ ((fst st = best ∧ snd st = bd)
     ∨ ∃ seg, seg ∈ l ∧ lenSq seg ≠ 0%R ∧ fst st = Some (hitOn seg cx cy)
              ∧ snd st = wallDistance seg cx cy ∧ (wallDistance seg cx cy < bd)%R).
Proof.
  revert best bd; induction l as [|seg l IH]; intros best bd; simpl.
  { split; [lra|]. split; [intros ? H; inversion H | by left]. }
  rewrite considerSeg_unfold; simpl.
  destruct (decide (lenSq seg = 0%R)) as [Hz|Hz].
  { destruct (IH best bd) as (H1 & H2 & H3). split; [done|]. split.
    - intros s [->|Hs]%elem_of_cons Hn; [done | auto].
    - destruct H3 as [?|(s & ? & ?)]; [by left | right; exists s; split; [by right | done]]. }
  destruct (decide (wallDistance seg cx cy < bd)%R) as [Hlt|Hge].
  - destruct (IH (Some (hitOn seg cx cy)) (wallDistance seg cx cy)) as (H1 & H2 & H3).
    split; [lra|]. split.
    + intros s [->|Hs]%elem_of_cons Hn; [done | auto].
    + right. destruct H3 as [[E1 E2]|(s & Hs & Hn & E1 & E2 & Hd)].
      * exists seg. split; [left|]. done.
      * exists s. split; [by right|]. repeat split; try done. lra.
  - destruct (IH best bd) as (H1 & H2 & H3). split; [done|]. split.
    + intros s [->|Hs]%elem_of_cons Hn; [lra | auto].
    + destruct H3 as [?|(s & ? & ?)]; [by left | right; exists s; split; [by right | done]].
Qed.

Lemma findNearestWall_None_iff rooms cx cy snapDist :
  findNearestWall rooms cx cy snapDist = None ↔
  ∀ seg, seg ∈ allSegs rooms → lenSq seg ≠ 0%R → (snapDist <= wallDistance seg cx cy)%R.
Proof.
  rewrite findNearestWall_allSegs.
  destruct (scan_invariant cx cy (allSegs rooms) None snapDist) as (H1 & H2 & H3).
  split.
  - intros E seg Hs Hn. destruct H3 as [[_ Eq]|(s & _ & _ & E' & _)]; [|congruence].
    rewrite <- Eq. auto.
  - intros Hall. destruct H3 as [[E _]|(s & Hs & Hn & _ & _ & Hlt)]; [done|].
    specialize (Hall s Hs Hn). lra.
Qed.

Lemma findNearestWall_Some rooms cx cy snapDist hit :
  findNearestWall rooms cx cy snapDist = Some hit →
  ∃ seg, seg ∈ allSegs rooms ∧ lenSq seg ≠ 0%R ∧ hit = hitOn seg cx cy
         ∧ (wallDistance seg cx cy < snapDist)%R
         ∧ ∀ seg', seg' ∈ allSegs rooms → lenSq seg' ≠ 0%R →
                   (wallDistance seg cx cy <= wallDistance seg' cx cy)%R.
Proof.
  rewrite findNearestWall_allSegs.
  destruct (scan_invariant cx cy (allSegs rooms) None snapDist) as (H1 & H2 & H3).
  intros E. destruct H3 as [[E' _]|(s & Hs & Hn & E1 & E2 & Hlt)]; [congruence|].
  exists s. repeat split; try done; [congruence|].
  intros s' Hs' Hn'. rewrite <- E2. auto.
Qed.

Lemma clampedParam_range seg cx cy :
  (5 / 100 <= clampedParam seg cx cy <= 95 / 100)%R.
Proof.
  unfold clampedParam. split.
  - apply Rmax_l.
  - apply Rmax_lub; [lra | apply Rmin_l].
Qed.



Lemma hypot_lt (a b m : R) :
  (0 <= m)%R → (a * a + b * b < m * m)%R → (hypot a b < m)%R.
Proof.
  intros Hm H. unfold hypot. rewrite <- (sqrt_square m Hm).
  apply sqrt_lt_1_alt. nra.
Qed.

Lemma hypot_ge (a b m : R) :
  (0 <= m)%R → (m * m <= a * a + b * b)%R → (m <= hypot a b)%R.
Proof.
  intros Hm H. unfold hypot. rewrite <- (sqrt_square m Hm) at 1.
  by apply sqrt_le_1_alt.
Qed.

Lemma hypot_gt (a b m : R) :
  (0 <= m)%R → (m * m < a * a + b * b)%R → (m < hypot a b)%R.
Proof.
  intros Hm H. unfold hypot. rewrite <- (sqrt_square m Hm) at 1.
  apply sqrt_lt_1_alt. nra.
Qed.

Lemma hypot_eq (a b m : R) :
  (0 <= m)%R → (a * a + b * b = m * m)%R → hypot a b = m.
Proof. intros Hm H. unfold hypot. rewrite H. by apply sqrt_square. Qed.

Ltac eval_Rminmax :=
  repeat match goal with
  | |- context [Rmin ?x ?y] =>
      first [rewrite (Rmin_left x y) by lra | rewrite (Rmin_right x y) by lra]
  | |- context [Rmax ?x ?y] =>
      first [rewrite (Rmax_left x y) by lra | rewrite (Rmax_right x y) by lra]
  end.

Ltac eval_clamp :=
  unfold wallDistance, hitOn, pointAt, clampedParam; simpl; eval_Rminmax.

Ltac each_seg H :=
  unfold allSegs in H; simpl in H;
  repeat (apply elem_of_cons in H as [->|H]); [..|inversion H].

Example snap_scenario :
  findNearestWall [room "r" 0 0 100 100] 50 2 14 = Some (WallHit.mk 50 0 AxisH).
Proof.
  destruct (findNearestWall _ _ _ _) as [hit|] eqn:E.
  - apply findNearestWall_Some in E as (seg & Hs & Hn & -> & Hlt & Hmin).
    specialize (Hmin (Seg.mk 0 0 (0 + 100) 0 AxisH)).
    assert (wallDistance seg 50 2 <= 2)%R as Hd.
    { etrans; [apply Hmin|].
      - unfold allSegs; simpl. left.
      - unfold lenSq; simpl. lra.
      - eval_clamp. apply Req_le, hypot_eq; lra. }
    clear Hmin Hlt Hn. each_seg Hs.
    + eval_clamp. do 2 f_equal; lra.
    + exfalso. revert Hd. eval_clamp. apply Rlt_not_le, hypot_gt; lra.
    + exfalso. revert Hd. eval_clamp. apply Rlt_not_le, hypot_gt; lra.
    + exfalso. revert Hd. eval_clamp. apply Rlt_not_le, hypot_gt; lra.
  - exfalso. rewrite findNearestWall_None_iff in E.
    specialize (E (Seg.mk 0 0 (0 + 100) 0 AxisH)). revert E.
    unfold allSegs, lenSq; simpl. intros E.
    assert (14 <= wallDistance (Seg.mk 0 0 (0 + 100) 0 AxisH) 50 2)%R as Hd.
    { apply E; [left | lra]. }
    revert Hd. eval_clamp. apply Rlt_not_le, hypot_lt; lra.
Qed.



Lemma allSegs_elem rooms seg :
  seg ∈ allSegs rooms ↔ ∃ r, r ∈ rooms ∧ seg ∈ segs r.
Proof.
  unfold allSegs. rewrite list_elem_of_bind. split; intros (r & ? & ?); eauto.
Qed.




(** C8, as amended.  [findNearestWall] returns [null] exactly when no
    candidate wall point is strictly closer than [snapDist]: a candidate at
    distance [snapDist] or more is discarded.  It returns [null] on the
    empty room list, and a hit it returns is a candidate strictly within
    [snapDist] that no other candidate beats. *)
Theorem findNearestWall_null_spec rooms cx cy snapDist :
  (findNearestWall rooms cx cy snapDist = None ↔
   ∀ seg, seg ∈ allSegs rooms → lenSq seg ≠ 0%R → (snapDist <= wallDistance seg cx cy)%R)
  ∧ findNearestWall [] cx cy snapDist = None
  ∧ (∀ hit, findNearestWall rooms cx cy snapDist = Some hit →
       ∃ seg, seg ∈ allSegs rooms ∧ lenSq seg ≠ 0%R ∧ hit = hitOn seg cx cy
              ∧ (wallDistance seg cx cy < snapDist)%R
              ∧ ∀ seg', seg' ∈ allSegs rooms → lenSq seg' ≠ 0%R →
                        (wallDistance seg cx cy <= wallDistance seg' cx cy)%R).
Proof.
  split; [apply findNearestWall_None_iff|]. split; [done|].
  intros hit. apply findNearestWall_Some.
Qed.

Lemma findNearestWall_null_spec_witness : findNearestWall [roomA] 50 14 14 = None.
Proof.
  apply (proj1 (findNearestWall_null_spec [roomA] 50 14 14)).
  intros seg Hs _. each_seg Hs; eval_clamp; apply hypot_ge; lra.
Defined.

(** C8, as stated, fails: from (50, 14) the top wall of [roomA] is at
    distance exactly 14, and with [snapDist = 14] the answer is [null]. *)
Lemma findNearestWall_discards_at_exact_distance :
  wallDistance (Seg.mk 0 0 (0 + 100) 0 AxisH) 50 14 = 14%R
  ∧ findNearestWall [roomA] 50 14 14 = None
  ∧ ¬ nullIffAllFarther [roomA] 50 14 14.
Proof.
  assert (wallDistance (Seg.mk 0 0 (0 + 100) 0 AxisH) 50 14 = 14%R) as Ed.
  { eval_clamp. apply hypot_eq; lra. }
  assert (findNearestWall [roomA] 50 14 14 = None) as En.
  { apply findNearestWall_None_iff. intros seg Hs _.
    each_seg Hs; eval_clamp; apply hypot_ge; lra. }
  split; [done|]. split; [done|].
  intros H. pose proof (proj1 H En (Seg.mk 0 0 (0 + 100) 0 AxisH)) as Hfar.
  rewrite Ed in Hfar. apply (Rlt_irrefl 14), Hfar.
  - unfold allSegs; simpl. left.
  - unfold lenSq; simpl. lra.
Qed.

(** C9.  [columnEdgeCenter] moves the snap point by [depthPx / 2] across
    the wall, to the cursor's side: on a horizontal wall Y becomes
    [canvasY + depthPx / 2] when the cursor's Y is at least the wall's and
    [canvasY - depthPx / 2] otherwise, X unchanged; on a vertical wall the
    same rule applies to X with the cursor's X, Y unchanged. *)
Theorem columnEdgeCenter_spec (cursor : Cursor.t) (wall : WallHit.t) (depthPx : R) :
  (WallHit.wallAxis wall = AxisH →
     ((Cursor.cy cursor >= WallHit.canvasY wall)%R →
        columnEdgeCenter cursor wall depthPx
        = CanvasPos.mk (WallHit.canvasX wall) (WallHit.canvasY wall + depthPx / 2)%R)
     ∧ ((Cursor.cy cursor < WallHit.canvasY wall)%R →
        columnEdgeCenter cursor wall depthPx
        = CanvasPos.mk (WallHit.canvasX wall) (WallHit.canvasY wall - depthPx / 2)%R))
  ∧ (WallHit.wallAxis wall = AxisV →
     ((Cursor.cx cursor >= WallHit.canvasX wall)%R →
        columnEdgeCenter cursor wall depthPx
        = CanvasPos.mk (WallHit.canvasX wall + depthPx / 2)%R (WallHit.canvasY wall))
     ∧ ((Cursor.cx cursor < WallHit.canvasX wall)%R →
        columnEdgeCenter cursor wall depthPx
        = CanvasPos.mk (WallHit.canvasX wall - depthPx / 2)%R (WallHit.canvasY wall))).
Proof.
  unfold columnEdgeCenter.
  split; intros ->; split; intros H; case_decide; try lra; f_equal; lra.
Qed.

Lemma columnEdgeCenter_spec_witness :
  columnEdgeCenter (Cursor.mk 50 3) (WallHit.mk 50 0 AxisH) 10
  = CanvasPos.mk 50 (0 + 10 / 2)%R
  ∧ columnEdgeCenter (Cursor.mk 50 (-3)) (WallHit.mk 50 0 AxisH) 10
    = CanvasPos.mk 50 (0 - 10 / 2)%R
  ∧ columnEdgeCenter (Cursor.mk 7 40) (WallHit.mk 0 40 AxisV) 10
    = CanvasPos.mk (0 + 10 / 2)%R 40
  ∧ columnEdgeCenter (Cursor.mk (-7) 40) (WallHit.mk 0 40 AxisV) 10
    = CanvasPos.mk (0 - 10 / 2)%R 40.
Proof.
  repeat split.
  - apply (proj1 (columnEdgeCenter_spec (Cursor.mk 50 3) (WallHit.mk 50 0 AxisH) 10));
      [reflexivity | simpl; lra].
  - apply (proj1 (columnEdgeCenter_spec (Cursor.mk 50 (-3)) (WallHit.mk 50 0 AxisH) 10));
      [reflexivity | simpl; lra].
  - apply (proj2 (columnEdgeCenter_spec (Cursor.mk 7 40) (WallHit.mk 0 40 AxisV) 10));
      [reflexivity | simpl; lra].
  - apply (proj2 (columnEdgeCenter_spec (Cursor.mk (-7) 40) (WallHit.mk 0 40 AxisV) 10));
      [reflexivity | simpl; lra].
Defined.

(** ** Raster analyzer *)

(** *** Typed arrays *)

Lemma length_arrSet l i v : length (arrSet l i v) = length l.
Proof. unfold arrSet. destruct (i <? 0)%Z; [done | apply length_insert]. Qed.

Lemma arrGet_arrSet_eq l i v :
  is_Some (arrGet l i) → arrGet (arrSet l i v) i = Some v.
Proof.
  unfold arrGet, arrSet. destruct (i <? 0)%Z; [by intros [? ?]|].
  intros H%lookup_lt_is_Some. by apply list_lookup_insert_eq.
Qed.

Lemma arrGet_arrSet_ne l i j v : i ≠ j → arrGet (arrSet l i v) j = arrGet l j.
Proof.
  unfold arrGet, arrSet. intros Hne.
  destruct (j <? 0)%Z eqn:Ej; [done|]. destruct (i <? 0)%Z eqn:Ei; [done|].
  apply list_lookup_insert_ne. lia.
Qed.

Lemma arrGet_Some_range l i v : arrGet l i = Some v → (0 <= i < Z.of_nat (length l))%Z.
Proof.
  unfold arrGet. destruct (i <? 0)%Z eqn:E; [done|].
  intros H%lookup_lt_Some. lia.
Qed.

Lemma arrGet_in_range l i : (0 <= i < Z.of_nat (length l))%Z → is_Some (arrGet l i).
Proof.
  intros H. unfold arrGet. destruct (i <? 0)%Z eqn:E; [lia|].
  apply lookup_lt_is_Some. lia.
Qed.

Lemma ext_refl st : ext st st.
Proof. split; [done|]. split; [done|]. by left. Qed.

Lemma ext_trans st1 st2 st3 : ext st1 st2 → ext st2 st3 → ext st1 st3.
Proof.
  intros (L1 & Q1 & G1) (L2 & Q2 & G2). split; [congruence|]. split; [auto|].
  intros i. destruct (G2 i) as [E2|(O2 & X2 & I2)], (G1 i) as [E1|(O1 & X1 & I1)].
  - left; congruence.
  - right. rewrite E2. auto.
  - right. rewrite <- E1. auto.
  - rewrite X1 in O2. discriminate.
Qed.

Lemma ext_mark st idx :
  arrGet (fst st) idx = Some OPEN →
  ext st (arrSet (fst st) idx EXTERIOR, snd st ++ [idx]).
Proof.
  intros H. split; [apply length_arrSet|]. split.
  { intros i Hi. apply elem_of_app; by left. }
  intros i; simpl. destruct (decide (idx = i)) as [->|Hne].
  - right. split; [done|]. split; [by apply arrGet_arrSet_eq; rewrite H|].
    apply elem_of_app; right; left.
  - left. by apply arrGet_arrSet_ne.
Qed.

Lemma notOpenAt_ext idx st st' : notOpenAt idx st → ext st st' → notOpenAt idx st'.
Proof.
  unfold notOpenAt. intros H (_ & _ & G).
  destruct (G idx) as [->|(O & _)]; [done | by rewrite O in H].
Qed.

Lemma enqueueEdge_ext w st x y : ext st (enqueueEdge w st x y).
Proof. unfold enqueueEdge. case_decide; [by apply ext_mark | apply ext_refl]. Qed.

Lemma enqueueEdge_notOpen w st x y : notOpenAt (y * w + x) (enqueueEdge w st x y).
Proof.
  unfold enqueueEdge, notOpenAt. case_decide as H; [|done]. simpl.
  rewrite arrGet_arrSet_eq by (by rewrite H). discriminate.
Qed.

Lemma floodVisit_ext w h cx cy st d : ext st (floodVisit w h cx cy st d).
Proof.
  unfold floodVisit. destruct (inBounds _ _ _ _); [|apply ext_refl].
  case_decide; [by apply ext_mark | apply ext_refl].
Qed.

Lemma floodVisit_notOpen w h cx cy st d :
  inBounds w h (cx + fst d) (cy + snd d) = true →
  notOpenAt ((cy + snd d) * w + (cx + fst d)) (floodVisit w h cx cy st d).
Proof.
  intros Hb. unfold floodVisit, notOpenAt. rewrite Hb.
  case_decide as H; [|done]. simpl.
  rewrite arrGet_arrSet_eq by (by rewrite H). discriminate.
Qed.

(** A loop whose every step extends the state, and establishes a property
    that later extensions keep, establishes it for all elements. *)
Lemma foldl_ext {A} (f : FloodState → A → FloodState) (P : A → FloodState → Prop)
    (l : list A) (st : FloodState) :
  (∀ st a, ext st (f st a)) →
  (∀ st a, P a (f st a)) →
  (∀ a st st', P a st → ext st st' → P a st') →
  ext st (foldl f st l) ∧ ∀ a, a ∈ l → P a (foldl f st l).
Proof.
  intros Hext Hestab Hstable. revert st.
  induction l as [|a l IH]; intros st; simpl.
  { split; [apply ext_refl | intros a Ha; inversion Ha]. }
  destruct (IH (f st a)) as [He Hp]. split.
  - eapply ext_trans; [apply Hext | done].
  - intros b [->|Hb]%elem_of_cons; [|auto].
    eapply Hstable; [apply Hestab | done].
Qed.

Lemma countOpen_insert (l : list Z) (i : nat) (v : Z) :
  l !! i = Some OPEN → v ≠ OPEN →
  (countOpen (<[i := v]> l) + 1 = countOpen l)%nat.
Proof.
  unfold countOpen. revert i; induction l as [|u l IH]; intros [|i] H Hv; simpl in *; try done.
  - injection H as ->. rewrite !filter_cons.
    destruct (decide (v = OPEN)); [done|]. destruct (decide (OPEN = OPEN)); [|done].
    simpl. lia.
  - rewrite !filter_cons. specialize (IH i H Hv).
    destruct (decide (u = OPEN)); simpl; lia.
Qed.

Lemma measure_mark st idx :
  arrGet (fst st) idx = Some OPEN →
  measure (arrSet (fst st) idx EXTERIOR, snd st ++ [idx]) = measure st.
Proof.
  unfold measure, arrGet, arrSet; simpl. destruct (idx <? 0)%Z; [done|]. intros H.
  assert (EXTERIOR ≠ OPEN) as Hne by done.
  pose proof (countOpen_insert (fst st) (Z.to_nat idx) EXTERIOR H Hne) as Hc.
  rewrite length_app; simpl. lia.
Qed.

Lemma enqueueEdge_measure w st x y : measure (enqueueEdge w st x y) = measure st.
Proof. unfold enqueueEdge. case_decide; [by apply measure_mark | done]. Qed.

Lemma floodVisit_measure w h cx cy st d : measure (floodVisit w h cx cy st d) = measure st.
Proof.
  unfold floodVisit. destruct (inBounds _ _ _ _); [|done].
  case_decide; [by apply measure_mark | done].
Qed.

Lemma foldl_measure {A} (f : FloodState → A → FloodState) (l : list A) (st : FloodState) :
  (∀ st a, measure (f st a) = measure st) → measure (foldl f st l) = measure st.
Proof.
  intros Hf. revert st; induction l as [|a l IH]; intros st; simpl; [done|].
  by rewrite IH, Hf.
Qed.

Lemma floodLoop_terminates fuel w h labeled queue :
  (measure (labeled, queue) <= fuel)%nat → is_Some (floodLoop fuel w h labeled queue).
Proof.
  revert labeled queue; induction fuel as [|fuel IH]; intros labeled [|curr rest] Hm;
    cbn [floodLoop]; try done.
  - unfold measure in Hm; simpl in Hm. lia.
  - set (st := foldl _ _ _). apply IH.
    assert (measure st = measure (labeled, rest)) as E.
    { apply foldl_measure. intros; apply floodVisit_measure. }
    replace (fst st, snd st) with st by (by destruct st).
    rewrite E. unfold measure in *; simpl in *. lia.
Qed.

Lemma seedBorder_measure w h labeled :
  measure (seedBorder w h labeled) = countOpen labeled.
Proof.
  unfold seedBorder. rewrite !foldl_measure; [done|..];
    intros; by rewrite !enqueueEdge_measure.
Qed.

Lemma floodExterior_total w h dilated : is_Some (floodExterior w h dilated).
Proof.
  unfold floodExterior. apply floodLoop_terminates.
  destruct (seedBorder w h dilated) as [l q] eqn:E; simpl.
  pose proof (seedBorder_measure w h dilated) as Hm. rewrite E in Hm. rewrite Hm.
  unfold countOpen. apply length_filter.
Qed.

Lemma grows_refl l : grows l l.
Proof. split; [done | by left]. Qed.

Lemma grows_trans l1 l2 l3 : grows l1 l2 → grows l2 l3 → grows l1 l3.
Proof.
  intros (L1 & G1) (L2 & G2). split; [congruence|].
  intros i. destruct (G2 i) as [E2|(O2 & X2)], (G1 i) as [E1|(O1 & X1)].
  - left; congruence.
  - right. rewrite E2. auto.
  - right. rewrite <- E1. auto.
  - rewrite X1 in O2. discriminate.
Qed.

Lemma ext_grows st st' : ext st st' → grows (fst st) (fst st').
Proof. intros (L & _ & G). split; [done|]. intros i. destruct (G i) as [?|(? & ? & _)]; auto. Qed.

Lemma floodLoop_closed fuel w h labeled queue labeled' :
  closed w h (labeled, queue) →
  floodLoop fuel w h labeled queue = Some labeled' →
  closed w h (labeled', []) ∧ grows labeled labeled'.
Proof.
  revert labeled queue; induction fuel as [|fuel IH]; intros labeled [|curr rest] Hc;
    cbn [floodLoop]; try done.
  - intros [= <-]. split; [done | apply grows_refl].
  - intros [= <-]. split; [done | apply grows_refl].
  - set (cx := Z.rem curr w). set (cy := Z.quot curr w).
    destruct (foldl_ext (floodVisit w h cx cy)
                (λ d st, inBounds w h (cx + fst d) (cy + snd d) = true →
                         notOpenAt ((cy + snd d) * w + (cx + fst d)) st)
                DIRS (labeled, rest)) as [He Hp].
    { intros; apply floodVisit_ext. }
    { intros st d Hb. by apply floodVisit_notOpen. }
    { intros d st st' H Hext Hb. eapply notOpenAt_ext; eauto. }
    set (st := foldl _ _ _) in *. intros Hloop.
    destruct (IH (fst st) (snd st)) with (2 := Hloop) as [Hc' Hg].
    + intros idx Hidx. pose proof He as (_ & Hq & Hgr).
      destruct (Hgr idx) as [E|(_ & _ & Hin)]; [|by left].
      simpl in E, Hidx. rewrite Hidx in E. symmetry in E.
      destruct (Hc idx E) as [[->|Hin]%elem_of_cons|Hn].
      * right. intros d Hd. apply Hp, Hd.
      * left. by apply Hq.
      * right. intros d Hd Hb. specialize (Hn d Hd Hb).
        eapply (notOpenAt_ext _ (labeled, rest)); [exact Hn|].
        replace (fst st, snd st) with st by (by destruct st). exact He.
    + split; [done|]. eapply grows_trans; [|exact Hg]. by apply ext_grows in He.
Qed.

Lemma notOpenAt_grows idx q q' l l' :
  notOpenAt idx (l, q) → grows l l' → notOpenAt idx (l', q').
Proof.
  unfold notOpenAt; simpl. intros H (_ & G).
  destruct (G idx) as [->|(O & _)]; [done | by rewrite O in H].
Qed.

Lemma seedBorder_ext w h labeled :
  ext (labeled, []) (seedBorder w h labeled)
  ∧ ∀ x, x ∈ seqZ 0 w → notOpenAt (0 * w + x) (seedBorder w h labeled).
Proof.
  unfold seedBorder.
  destruct (foldl_ext (λ st x, enqueueEdge w (enqueueEdge w st x 0) x (h - 1))
              (λ x st, notOpenAt (0 * w + x) st) (seqZ 0 w) (labeled, [])) as [He1 Hp1].
  { intros st x. eapply ext_trans; apply enqueueEdge_ext. }
  { intros st x. eapply notOpenAt_ext; [apply enqueueEdge_notOpen | apply enqueueEdge_ext]. }
  { intros x st st'. apply notOpenAt_ext. }
  set (st1 := foldl _ _ (seqZ 0 w)) in *.
  destruct (foldl_ext (λ st y, enqueueEdge w (enqueueEdge w st 0 y) (w - 1) y)
              (λ _ _, True) (seqZ 1 (h - 2)) st1) as [He2 _]; try done.
  { intros st y. eapply ext_trans; apply enqueueEdge_ext. }
  split; [by eapply ext_trans|].
  intros x Hx. eapply notOpenAt_ext; [by apply Hp1 | done].
Qed.

(** With no wall anywhere, a closed grid whose top row is [EXTERIOR] is
    [EXTERIOR] everywhere: each pixel is the lower neighbour of the pixel
    one row up. *)
Lemma closed_all_exterior w h (l : list Z) :
  (0 < w)%Z → (0 < h)%Z → length l = Z.to_nat (w * h) →
  (∀ i v, arrGet l i = Some v → v = OPEN ∨ v = EXTERIOR) →
  closed w h (l, []) →
  (∀ x, (0 <= x < w)%Z → arrGet l x = Some EXTERIOR) →
  ∀ i, (0 <= i < w * h)%Z → arrGet l i = Some EXTERIOR.
Proof.
  intros Hw Hh Hlen Hvals Hclosed Htop.
  assert (∀ n : nat, ∀ i, Z.to_nat i = n → (0 <= i < w * h)%Z →
            arrGet l i = Some EXTERIOR) as Hind.
  { induction n as [n IH] using lt_wf_ind. intros i Hn Hi.
    destruct (decide (i < w)%Z) as [Hlt|Hge]; [apply Htop; lia|].
    assert (arrGet l (i - w) = Some EXTERIOR) as Hup.
    { apply (IH (Z.to_nat (i - w))); [lia | done | lia]. }
    destruct (Hclosed _ Hup) as [Hin|Hn']; [inversion Hin|].
    pose proof (Z.quot_rem' (i - w) w) as Hqr.
    pose proof (Z.rem_bound_pos (i - w) w ltac:(lia) Hw) as Hr.
    pose proof (Z.quot_pos (i - w) w ltac:(lia) Hw) as Hq0.
    assert ((i - w) ÷ w < h - 1)%Z as Hq1.
    { apply Z.quot_lt_upper_bound; [lia | done | nia]. }
    specialize (Hn' (0, 1)%Z). simpl in Hn'.
    replace ((((i - w) ÷ w + 1) * w + (Z.rem (i - w) w + 0))%Z) with i in Hn' by lia.
    unfold notOpenAt in Hn'; simpl in Hn'.
    destruct (arrGet_in_range l i) as [v Hv]; [lia|].
    destruct (Hvals i v Hv) as [->| ->]; [|done].
    exfalso. apply Hn'; [|unfold inBounds; lia|done].
    unfold DIRS. do 3 right. left. }
  intros i Hi. by apply (Hind (Z.to_nat i)).
Qed.

Lemma Forall_arrGet (P : Z → Prop) l i v : Forall P l → arrGet l i = Some v → P v.
Proof.
  unfold arrGet. destruct (i <? 0)%Z; [done|].
  intros H Hl. by eapply Forall_lookup_1.
Qed.

Lemma flood_all_open w h grid labeled :
  (0 < w)%Z → (0 < h)%Z → length grid = Z.to_nat (w * h) →
  Forall (λ v, v = OPEN) grid →
  floodExterior w h grid = Some labeled →
  ∀ i, arrGet labeled i ≠ Some OPEN.
Proof.
  intros Hw Hh Hlen Hopen. unfold floodExterior.
  destruct (seedBorder_ext w h grid) as [He Htop].
  set (st := seedBorder w h grid) in *. intros Hloop.
  apply floodLoop_closed in Hloop as [Hclosed Hgrows].
  2:{ intros idx Hidx. destruct He as (_ & _ & G).
      destruct (G idx) as [E|(_ & _ & Hin)]; [|by left].
      replace (fst st, snd st) with st in Hidx by (by destruct st).
      rewrite Hidx in E. symmetry in E.
      by apply (Forall_arrGet _ _ _ _ Hopen) in E. }
  assert (grows grid labeled) as Hg.
  { eapply grows_trans; [|exact Hgrows]. by apply ext_grows in He. }
  assert (∀ i v, arrGet labeled i = Some v → v = OPEN ∨ v = EXTERIOR) as Hvals.
  { intros i v Hv. destruct Hg as (_ & G). destruct (G i) as [E|(_ & E)].
    - left. rewrite E in Hv. by apply (Forall_arrGet _ _ _ _ Hopen) in Hv.
    - right. congruence. }
  assert (length labeled = Z.to_nat (w * h)) as Hlen' by (destruct Hg; congruence).
  assert (∀ i, (0 <= i < w * h)%Z → arrGet labeled i = Some EXTERIOR) as Hall.
  { apply closed_all_exterior; try done.
    intros x Hx.
    destruct (arrGet_in_range labeled x) as [v Hv]; [nia|].
    destruct (Hvals x v Hv) as [->| ->]; [|done]. exfalso.
    assert (notOpenAt x (labeled, [])) as Hn.
    { eapply (notOpenAt_grows _ (snd st) _ (fst st)); [|done].
      replace (fst st, snd st) with st by (by destruct st).
      replace x with (0 * w + x)%Z by lia. apply Htop.
      apply elem_of_seqZ. lia. }
    by apply Hn. }
  intros i Hi. pose proof (arrGet_Some_range _ _ _ Hi) as Hr.
  rewrite Hall in Hi by lia. discriminate.
Qed.

Lemma flood_no_open w h grid labeled :
  (∀ i, arrGet grid i ≠ Some OPEN) →
  floodExterior w h grid = Some labeled →
  ∀ i, arrGet labeled i ≠ Some OPEN.
Proof.
  intros Hno. unfold floodExterior.
  destruct (seedBorder_ext w h grid) as [He _].
  pose proof (seedBorder_measure w h grid) as Hm.
  set (st := seedBorder w h grid) in *.
  assert (∀ i, arrGet (fst st) i = arrGet grid i) as Hsame.
  { intros i. destruct He as (_ & _ & G). destruct (G i) as [E|(O & _)]; [done|].
    by apply Hno in O. }
  intros Hloop. apply floodLoop_closed in Hloop as [_ (_ & G)].
  - intros i. destruct (G i) as [E|(O & _)].
    + rewrite E, Hsame. apply Hno.
    + rewrite Hsame in O. by apply Hno in O.
  - intros idx _. right. intros d _ _. unfold notOpenAt; simpl. rewrite Hsame. apply Hno.
Qed.

(** *** Dilation and scan on grids without rooms *)

Lemma foldl_fixed {A B} (f : A → B → A) (l : list B) (a : A) :
  (∀ x, f a x = a) → foldl f a l = a.
Proof. intros H. induction l as [|x l IH]; simpl; [done | by rewrite H]. Qed.

Lemma foldl_invariant {A B} (P : A → Prop) (f : A → B → A) (l : list B) (a : A) :
  P a → (∀ a x, P a → P (f a x)) → P (foldl f a l).
Proof. intros Ha Hf. revert a Ha. induction l as [|x l IH]; simpl; auto. Qed.

Lemma dilateWalls_no_wall src w h radius :
  (∀ i, arrGet src i ≠ Some WALL) → dilateWalls src w h radius = src.
Proof.
  intros Hno. unfold dilateWalls.
  apply (foldl_invariant (λ dst, dst = src)); [done|]. intros dst y ->.
  apply (foldl_invariant (λ dst, dst = src)); [done|]. intros dst x ->.
  unfold dilateAt. case_decide as H; [by apply Hno in H | done].
Qed.

Lemma arrSet_Forall (P : Z → Prop) l i v : Forall P l → P v → Forall P (arrSet l i v).
Proof. intros Hl Hv. unfold arrSet. destruct (i <? 0)%Z; [done | by apply Forall_insert]. Qed.

Lemma dilateWalls_all_wall src w h radius :
  Forall (λ v, v = WALL) src → Forall (λ v, v = WALL) (dilateWalls src w h radius).
Proof.
  intros Hsrc. unfold dilateWalls.
  apply foldl_invariant; [done|]. intros dst y Hdst.
  apply foldl_invariant; [done|]. clear dst Hdst. intros dst x Hdst.
  unfold dilateAt. case_decide; [|done]. unfold dilateBlock.
  apply foldl_invariant; [done|]. clear dst Hdst. intros dst ny Hdst.
  unfold dilateRow. apply foldl_invariant; [done|]. clear dst Hdst. intros dst nx Hdst.
  by apply arrSet_Forall.
Qed.

Lemma scanAt_no_open w h labeled st startX startY :
  (∀ i, arrGet labeled i ≠ Some OPEN) → scanAt w h labeled st startX startY = Some st.
Proof.
  intros Hno. unfold scanAt.
  rewrite bool_decide_eq_false_2 by apply Hno. done.
Qed.

Lemma scanRooms_no_open w h labeled :
  (∀ i, arrGet labeled i ≠ Some OPEN) → scanRooms w h labeled = Some [].
Proof.
  intros Hno. unfold scanRooms.
  rewrite foldl_fixed; [done|]. intros startY. unfold scanRow.
  apply foldl_fixed. intros startX. simpl. by apply scanAt_no_open.
Qed.

Lemma scanRooms_narrow w h labeled :
  (w <= 2)%Z ∨ (h <= 2)%Z → scanRooms w h labeled = Some [].
Proof.
  intros [Hw|Hh]; unfold scanRooms.
  - rewrite foldl_fixed; [done|]. intros startY. unfold scanRow.
    by rewrite seqZ_nil by lia.
  - by rewrite (seqZ_nil 1 (h - 2)) by lia.
Qed.

Lemma length_binarize w h data : length (binarize w h data) = Z.to_nat (w * h).
Proof. unfold binarize. by rewrite length_map, length_seqZ. Qed.

Lemma binarizePixel_values data i :
  binarizePixel data i = OPEN ∨ binarizePixel data i = WALL.
Proof.
  unfold binarizePixel.
  destruct (arrGet data (i * 4)), (arrGet data (i * 4 + 1)), (arrGet data (i * 4 + 2)); auto.
  destruct (PrimFloat.leb _ _); auto.
Qed.

Lemma invertPixel_involutive v : v = OPEN ∨ v = WALL → invertPixel (invertPixel v) = v.
Proof. by intros [-> | ->]. Qed.

(** A grid that is all wall or all open has no room, whatever its size. *)
Lemma uniform_no_rooms w h grid :
  Forall (λ v, v = WALL) grid ∨ Forall (λ v, v = OPEN) grid →
  length grid = Z.to_nat (w * h) →
  floodExterior w h (dilateWalls grid w h DILATE_RADIUS) ≫= scanRooms w h = Some [].
Proof.
  intros Hgrid Hlen.
  destruct (floodExterior_total w h (dilateWalls grid w h DILATE_RADIUS)) as [labeled E].
  rewrite E; simpl.
  destruct (decide ((w <= 2)%Z ∨ (h <= 2)%Z)) as [Hdim|Hdim];
    [by apply scanRooms_narrow|].
  apply scanRooms_no_open. destruct Hgrid as [Hwall|Hopen].
  - apply (flood_no_open w h (dilateWalls grid w h DILATE_RADIUS)); [|done].
    intros i Hi. pose proof (dilateWalls_all_wall _ w h DILATE_RADIUS Hwall) as Hd.
    by apply (Forall_arrGet _ _ _ _ Hd) in Hi.
  - rewrite dilateWalls_no_wall in E.
    + apply (flood_all_open w h grid); try done; lia.
    + intros i Hi. by apply (Forall_arrGet _ _ _ _ Hopen) in Hi.
Qed.

Lemma fixPolarity_uniform w h binary :
  Forall (λ v, v = WALL) binary ∨ Forall (λ v, v = OPEN) binary →
  (Forall (λ v, v = WALL) (fixPolarity w h binary)
   ∨ Forall (λ v, v = OPEN) (fixPolarity w h binary))
  ∧ length (fixPolarity w h binary) = length binary.
Proof.
  intros H. unfold fixPolarity. destruct (needsInversion w h binary); [|done].
  rewrite length_map. split; [|done].
  destruct H as [H|H]; [right | left]; apply Forall_fmap;
    eapply Forall_impl; [exact H | by intros v -> | exact H | by intros v ->].
Qed.

(** Steps 1 to 4 on a raster whose pixels all binarize to [WALL], or all to
    [OPEN], find no room, for every raster size. *)
Lemma blank_raster_no_rooms (uuid : nat → string) (w h : Z) (data : list Z)
    (canvasWidth canvasHeight : R) :
  Forall (λ v, v = WALL) (binarize w h data) ∨ Forall (λ v, v = OPEN) (binarize w h data) →
  analyzeFloorPlan uuid w h data canvasWidth canvasHeight = Some [].
Proof.
  intros H. unfold analyzeFloorPlan, detectRegions.
  destruct (fixPolarity_uniform w h _ H) as [Hu Hlen].
  rewrite uniform_no_rooms; [done | done |].
  by rewrite Hlen, length_binarize.
Qed.

Lemma getImageData_zero image w h :
  (w = 0 ∨ h = 0)%Z → getImageData image w h = Thrown IndexSizeError.
Proof. unfold getImageData. by intros [-> | ->]; rewrite ?orb_true_r. Qed.

Lemma getImageData_nonzero image w h :
  (w ≠ 0)%Z → (h ≠ 0)%Z → getImageData image w h = Returned (Image.drawn image w h).
Proof.
  intros Hw Hh. unfold getImageData.
  destruct (Z.eqb_spec w 0), (Z.eqb_spec h 0); done.
Qed.

(** C6.  For an image whose raster has no side of [0] pixels and whose
    pixels all binarize to [WALL], or all to [OPEN], the call returns the
    empty list of rooms: it does not throw, and none of its searches runs
    out of fuel. *)
Theorem analyzeFloorPlanImage_blank (uuid : nat → string) (image : Image.t)
    (canvasWidth canvasHeight : R) :
  ((rasterSize image).1 ≠ 0)%Z → ((rasterSize image).2 ≠ 0)%Z → blank image →
  analyzeFloorPlanImage uuid image canvasWidth canvasHeight = Some (Returned []).
Proof.
  unfold analyzeFloorPlanImage, blank. destruct (rasterSize image) as [w h]. cbn [fst snd].
  intros Hw Hh Hb. rewrite getImageData_nonzero by done.
  by rewrite blank_raster_no_rooms.
Qed.

(** The theorem at a white image of 20 by 20 pixels, analysed at its own
    size, and at a black image of 800 by 2 pixels, scaled down to 400 by 1. *)
Lemma analyzeFloorPlanImage_blank_witness :
  rasterSize (white 20 20) = (20, 20)%Z
  ∧ analyzeFloorPlanImage (λ _, "u"%string) (white 20 20) 800 600 = Some (Returned [])
  ∧ rasterSize (black 800 2) = (400, 1)%Z
  ∧ analyzeFloorPlanImage (λ _, "u"%string) (black 800 2) 800 600 = Some (Returned []).
Proof.
  assert (E1 : rasterSize (white 20 20) = (20, 20)%Z) by (vm_compute; reflexivity).
  assert (E2 : rasterSize (black 800 2) = (400, 1)%Z) by (vm_compute; reflexivity).
  split; [exact E1|]. split; [|split; [exact E2|]].
  - apply analyzeFloorPlanImage_blank; rewrite ?E1; [done | done |].
    unfold blank. rewrite E1. right.
    refine (bool_decide_unpack _ _). vm_compute. exact I.
  - apply analyzeFloorPlanImage_blank; rewrite ?E2; [done | done |].
    unfold blank. rewrite E2. left.
    refine (bool_decide_unpack _ _). vm_compute. exact I.
Defined.

(** C6 does not hold of every blank image.  The raster of a white strip of
    1 by 801 pixels is [Math.round(1 * 400 / 801) = 0] pixels wide and 400
    high: it has no pixel, so all of its pixels binarize to [OPEN] (as do
    the 801 pixels of the strip itself), and [getImageData(0, 0, 0, 400)]
    throws. *)
Lemma analyzeFloorPlanImage_blank_throws :
  rasterSize strip = (0, 400)%Z
  ∧ blank strip
  ∧ Forall (λ v, v = OPEN) (binarize 1 801 (Image.drawn strip 1 801))
  ∧ ∀ uuid canvasWidth canvasHeight,
      analyzeFloorPlanImage uuid strip canvasWidth canvasHeight
      = Some (Thrown IndexSizeError).
Proof.
  assert (E : rasterSize strip = (0, 400)%Z) by (vm_compute; reflexivity).
  split; [done|]. split; [|split].
  - unfold blank. rewrite E. right. constructor.
  - refine (bool_decide_unpack _ _). vm_compute. exact I.
  - intros. unfold analyzeFloorPlanImage. rewrite E. reflexivity.
Qed.

(** C4 fails on the code.  For a 15 by 16 white image with a one-pixel
    black frame the dilated walls leave a single column of two open pixels;
    its bounding box has [maxX = minX], and the room returned has width
    [(maxX - minX) * scaleX = 0]. *)
Theorem analyzeFloorPlan_zero_width_room (uuid : nat → string) :
  ∃ r, analyzeFloorPlan uuid 15 16 (framed 15 16 1) 280 280 = Some [r]
       ∧ Room.width r = 0%R ∧ (0 < Room.height r)%R.
Proof.
  assert (detectRegions 15 16 (framed 15 16 1) = Some [Region.mk 7 7 7 8 2]) as E
    by (vm_compute; reflexivity).
  unfold analyzeFloorPlan. rewrite E. simpl.
  eexists; split; [reflexivity|]. simpl. rewrite !minus_IZR. split; lra.
Qed.

(** C5, as stated, fails: an 18 by 18 white image with a two-pixel black
    frame has one room; its inversion is 39.5% open, is not flipped by the
    30% rule, and has none. *)
Lemma polarity_not_invariant : ¬ polarityInvariant 18 18 (framed 18 18 2).
Proof.
  assert (detectRegions 18 18 (framed 18 18 2) = Some [Region.mk 8 9 8 9 4]) as E1
    by (vm_compute; reflexivity).
  assert (detectRegions 18 18 (invertColors (framed 18 18 2)) = Some []) as E2
    by (vm_compute; reflexivity).
  intros H. specialize (H (λ _, "id"%string) (λ _, "id"%string) 280%R 280%R).
  revert H. unfold analyzeFloorPlan. rewrite E1, E2. simpl. discriminate.
Qed.

Lemma rectangle_roomOfRegion u1 u2 w h cw ch (regions : list Region.t) :
  map rectangle (imap (roomOfRegion u1 w h cw ch) regions)
  = map rectangle (imap (roomOfRegion u2 w h cw ch) regions).
Proof.
  apply list_eq. intros k.
  rewrite !list_lookup_fmap, !list_lookup_imap. by destruct (regions !! k).
Qed.

(** C5, as amended.  When colour inversion exactly complements the
    binarized grid and exactly one of the two grids triggers the 30%
    polarity flip, an image and its inversion yield the same room
    rectangles. *)
Theorem polarity_invariance_when_flipped (w h : Z) (data : list Z) :
  binarize w h (invertColors data) = map invertPixel (binarize w h data) →
  needsInversion w h (binarize w h data)
    ≠ needsInversion w h (binarize w h (invertColors data)) →
  polarityInvariant w h data.
Proof.
  intros Hflip Hone u1 u2 cw ch.
  assert (fixPolarity w h (binarize w h (invertColors data))
          = fixPolarity w h (binarize w h data)) as Hfix.
  { unfold fixPolarity.
    destruct (needsInversion w h (binarize w h data)),
             (needsInversion w h (binarize w h (invertColors data))); try done.
    rewrite Hflip, <- list_fmap_compose. unfold binarize.
    rewrite <- list_fmap_compose. apply list_fmap_ext. intros k i _. simpl.
    apply invertPixel_involutive, binarizePixel_values. }
  unfold analyzeFloorPlan, detectRegions. rewrite Hfix.
  destruct (_ ≫= _) as [regions|]; simpl; [|done].
  f_equal. apply rectangle_roomOfRegion.
Qed.

Lemma polarity_invariance_when_flipped_witness : polarityInvariant 15 16 (framed 15 16 1).
Proof.
  apply polarity_invariance_when_flipped; vm_compute; [reflexivity | discriminate].
Defined.

Lemma countUnvisited_insert (l : list Z) (i : nat) (v : Z) :
  l !! i = Some 0%Z → v ≠ 0%Z →
  (countUnvisited (<[i := v]> l) + 1 = countUnvisited l)%nat.
Proof.
  unfold countUnvisited. revert i; induction l as [|u l IH]; intros [|i] H Hv; simpl in *; try done.
  - injection H as ->. rewrite !filter_cons.
    destruct (decide (v = 0%Z)); [done|]. destruct (decide (0 = 0)%Z); [|done].
    simpl. lia.
  - rewrite !filter_cons. specialize (IH i H Hv).
    destruct (decide (u = 0%Z)); simpl; lia.
Qed.

Lemma falsy_in_range (l : list Z) i :
  is_Some (arrGet l i) → falsy (arrGet l i) = true → arrGet l i = Some 0%Z.
Proof. intros [v ->]; simpl. intros ->%Z.eqb_eq. done. Qed.

Lemma regionMeasure_mark visited queue idx :
  arrGet visited idx = Some 0%Z →
  regionMeasure (arrSet visited idx 1%Z, queue ++ [idx]) = regionMeasure (visited, queue).
Proof.
  unfold regionMeasure, arrGet, arrSet; simpl. destruct (idx <? 0)%Z; [done|]. intros H.
  assert (1 ≠ 0)%Z as Hne by done.
  pose proof (countUnvisited_insert visited (Z.to_nat idx) 1%Z H Hne) as Hc.
  rewrite length_app; simpl. lia.
Qed.

Lemma regionVisit_measure w h labeled cx cy st d :
  (length labeled <= length (fst st))%nat →
  regionMeasure (regionVisit w h labeled cx cy st d) = regionMeasure st
  ∧ length (fst (regionVisit w h labeled cx cy st d)) = length (fst st).
Proof.
  intros Hlen. unfold regionVisit. destruct (inBounds _ _ _ _); [|done].
  destruct (bool_decide _) eqn:Hopen; [|done]. simpl.
  destruct (falsy _) eqn:Hf; [|done]. simpl.
  apply bool_decide_eq_true in Hopen. apply arrGet_Some_range in Hopen.
  split; [|apply length_arrSet].
  destruct st as [visited queue]. apply regionMeasure_mark.
  apply falsy_in_range; [|done]. apply arrGet_in_range. simpl in *. lia.
Qed.

Lemma regionLoop_terminates fuel w h labeled visited queue box :
  (length labeled <= length visited)%nat →
  (regionMeasure (visited, queue) <= fuel)%nat →
  ∃ visited' box', regionLoop fuel w h labeled visited queue box = Some (visited', box')
                   ∧ length visited' = length visited.
Proof.
  revert visited queue box; induction fuel as [|fuel IH];
    intros visited [|curr rest] box Hlen Hm; cbn [regionLoop]; eauto.
  - unfold regionMeasure in Hm; simpl in Hm. lia.
  - set (st := foldl _ _ _).
    assert (regionMeasure st = regionMeasure (visited, rest)
            ∧ length (fst st) = length visited) as [Em El].
    { apply (foldl_invariant
               (λ st, regionMeasure st = regionMeasure (visited, rest)
                      ∧ length (fst st) = length visited)); [done|].
      intros st' d [E1 E2].
      destruct (regionVisit_measure w h labeled (Z.rem curr w) (Z.quot curr w) st' d)
        as [E3 E4]; [lia|]. split; congruence. }
    destruct (IH (fst st) (snd st) (grow box (Z.rem curr w) (Z.quot curr w)))
      as (v' & b' & E & L); [lia | |].
    + replace (fst st, snd st) with st by (by destruct st).
      rewrite Em. unfold regionMeasure in *; simpl in *. lia.
    + exists v', b'. split; [done | congruence].
Qed.

Lemma scanAt_total w h labeled st startX startY :
  (length labeled <= length (fst st))%nat →
  ∃ st', scanAt w h labeled st startX startY = Some st'
         ∧ length (fst st') = length (fst st).
Proof.
  intros Hlen. unfold scanAt.
  destruct (bool_decide _) eqn:Hopen; simpl; [|eauto].
  destruct (falsy _) eqn:Hf; simpl; [|eauto].
  apply bool_decide_eq_true in Hopen. apply arrGet_Some_range in Hopen.
  assert (arrGet (fst st) (startY * w + startX) = Some 0%Z) as Hz.
  { apply falsy_in_range; [|done]. apply arrGet_in_range. lia. }
  destruct (regionLoop_terminates (length (fst st)) w h labeled
              (arrSet (fst st) (startY * w + startX) 1%Z) [(startY * w + startX)%Z]
              (Region.mk startX startX startY startY 0))
    as (v' & b' & E & L).
  { by rewrite length_arrSet. }
  { change [(startY * w + startX)%Z] with ([] ++ [(startY * w + startX)%Z]).
    rewrite regionMeasure_mark by done.
    unfold regionMeasure, countUnvisited; simpl. apply length_filter. }
  rewrite E; simpl. rewrite length_arrSet in L.
  destruct (PrimFloat.ltb _ _); eauto.
Qed.

Lemma scanRooms_total w h labeled :
  (length labeled <= Z.to_nat (w * h))%nat → is_Some (scanRooms w h labeled).
Proof.
  intros Hlen. unfold scanRooms.
  set (n := Z.to_nat (w * h)) in *.
  assert (∃ s : ScanState,
            foldl (scanRow w h labeled) (Some (replicate n 0%Z, [])) (seqZ 1 (h - 2))
            = Some s ∧ length (fst s) = n) as (s & -> & _); [|by eexists].
  apply (foldl_invariant (λ o, ∃ s : ScanState, o = Some s ∧ length (fst s) = n)).
  - eexists; split; [done|]. apply length_replicate.
  - intros o startY Ho. unfold scanRow.
    apply (foldl_invariant (λ o, ∃ s : ScanState, o = Some s ∧ length (fst s) = n)); [done|].
    intros o' startX (s & -> & Hs). simpl.
    destruct (scanAt_total w h labeled s startX startY) as (s' & -> & Hs'); [lia|].
    eexists; split; [done | congruence].
Qed.

Lemma floodLoop_length fuel w h labeled queue labeled' :
  floodLoop fuel w h labeled queue = Some labeled' → length labeled' = length labeled.
Proof.
  revert labeled queue; induction fuel as [|fuel IH]; intros labeled [|curr rest];
    cbn [floodLoop]; try done; try (by intros [= <-]).
  intros Hloop. apply IH in Hloop. rewrite Hloop.
  apply (foldl_invariant (λ st, length (fst st) = length labeled)); [done|].
  intros st d Hst. destruct (floodVisit_ext w h (Z.rem curr w) (Z.quot curr w) st d) as [L _].
  congruence.
Qed.

Lemma floodExterior_length w h dilated labeled :
  floodExterior w h dilated = Some labeled → length labeled = length dilated.
Proof.
  unfold floodExterior. intros ->%floodLoop_length.
  by destruct (seedBorder_ext w h dilated) as [[L _] _].
Qed.

Lemma length_dilateWalls src w h radius :
  length (dilateWalls src w h radius) = length src.
Proof.
  unfold dilateWalls.
  apply (foldl_invariant (λ dst, length dst = length src)); [done|]. intros dst y Hdst.
  apply (foldl_invariant (λ dst, length dst = length src)); [done|].
  clear dst Hdst. intros dst x Hdst.
  unfold dilateAt. case_decide; [|done]. unfold dilateBlock.
  apply (foldl_invariant (λ dst, length dst = length src)); [done|].
  clear dst Hdst. intros dst ny Hdst. unfold dilateRow.
  apply (foldl_invariant (λ dst, length dst = length src)); [done|].
  clear dst Hdst. intros dst nx Hdst. by rewrite length_arrSet.
Qed.

Lemma length_fixPolarity w h binary : length (fixPolarity w h binary) = length binary.
Proof. unfold fixPolarity. destruct (needsInversion _ _ _); [apply length_map | done]. Qed.

(** The analysis always runs to completion: the fuel given to its two
    breadth-first searches is never exhausted. *)
Lemma detectRegions_total w h data : is_Some (detectRegions w h data).
Proof.
  unfold detectRegions.
  destruct (floodExterior_total w h
              (dilateWalls (fixPolarity w h (binarize w h data)) w h DILATE_RADIUS))
    as [labeled E].
  rewrite E; simpl. apply scanRooms_total.
  apply floodExterior_length in E.
  rewrite E, length_dilateWalls, length_fixPolarity, length_binarize. done.
Qed.

(** Steps 1 to 4 always return a list of rooms, whatever the raster size
    and the pixel buffer: none of their loops runs out of fuel. *)
Lemma analyzeFloorPlan_terminates uuid w h data canvasWidth canvasHeight :
  is_Some (analyzeFloorPlan uuid w h data canvasWidth canvasHeight).
Proof.
  unfold analyzeFloorPlan. destruct (detectRegions_total w h data) as [regions ->].
  by eexists.
Qed.

(** X1.  A call of [analyzeFloorPlan] always ends, and in one of two ways:
    when a side of the raster is [0] pixels it throws the [IndexSizeError]
    of [getImageData]; otherwise it returns a list of rooms, that of Steps
    1 to 4 on the raster drawn, none of whose loops runs out of fuel. *)
Theorem analyzeFloorPlanImage_total (uuid : nat → string) (image : Image.t)
    (canvasWidth canvasHeight : R) :
  ((rasterSize image).1 = 0 ∨ (rasterSize image).2 = 0 →
     analyzeFloorPlanImage uuid image canvasWidth canvasHeight
     = Some (Thrown IndexSizeError))%Z
  ∧ ((rasterSize image).1 ≠ 0 → (rasterSize image).2 ≠ 0 →
     ∃ rooms,
       analyzeFloorPlanImage uuid image canvasWidth canvasHeight = Some (Returned rooms)
       ∧ analyzeFloorPlan uuid (rasterSize image).1 (rasterSize image).2
           (Image.drawn image (rasterSize image).1 (rasterSize image).2)
           canvasWidth canvasHeight = Some rooms)%Z.
Proof.
  unfold analyzeFloorPlanImage. destruct (rasterSize image) as [w h]. cbn [fst snd].
  split.
  - intros H. by rewrite getImageData_zero.
  - intros Hw Hh. rewrite getImageData_nonzero by done.
    destruct (analyzeFloorPlan_terminates uuid w h (Image.drawn image w h)
                canvasWidth canvasHeight) as [rooms E].
    exists rooms. by rewrite E.
Qed.

(** * Further properties *)

(** ** More on wall snapping *)

Lemma considerSeg_relax cx cy s st1 st2 seg :
  st1 = st2 ∨ (st1 = (None, s) ∧ (s <= snd st2)%R) →
  considerSeg cx cy st1 seg = considerSeg cx cy st2 seg
  ∨ (considerSeg cx cy st1 seg = (None, s) ∧ (s <= snd (considerSeg cx cy st2 seg))%R).
Proof.
  intros [->|[-> Hle]]; [by left|]. rewrite !considerSeg_unfold. simpl.
  destruct (decide (lenSq seg = 0%R)); [by right|].
  destruct (decide (wallDistance seg cx cy < s)%R) as [Hlt|Hge].
  - left. rewrite decide_True by lra. done.
  - right. split; [done|]. case_decide; simpl; lra.
Qed.

Lemma foldl_considerSeg_relax cx cy s l st1 st2 :
  st1 = st2 ∨ (st1 = (None, s) ∧ (s <= snd st2)%R) →
  foldl (considerSeg cx cy) st1 l = foldl (considerSeg cx cy) st2 l
  ∨ (foldl (considerSeg cx cy) st1 l = (None, s)
     ∧ (s <= snd (foldl (considerSeg cx cy) st2 l))%R).
Proof.
  revert st1 st2; induction l as [|seg l IH]; intros st1 st2 H; simpl; [done|].
  apply IH. by apply considerSeg_relax.
Qed.

(** X2.  Widening the snap distance never loses or changes a snap: a hit
    found with [snapDist] is the hit found with any larger distance. *)
Theorem findNearestWall_monotone rooms cx cy snapDist snapDist' hit :
  (snapDist <= snapDist')%R →
  findNearestWall rooms cx cy snapDist = Some hit →
  findNearestWall rooms cx cy snapDist' = Some hit.
Proof.
  intros Hle. rewrite !findNearestWall_allSegs.
  destruct (foldl_considerSeg_relax cx cy snapDist (allSegs rooms)
              (None, snapDist) (None, snapDist')) as [->|[-> _]]; [|done|done].
  right. split; [done | exact Hle].
Qed.

Lemma findNearestWall_monotone_witness :
  findNearestWall [roomA] 50 2 20 = Some (WallHit.mk 50 0 AxisH).
Proof.
  apply (findNearestWall_monotone [roomA] 50 2 14 20); [lra | exact snap_scenario].
Defined.

(** ** More on the collision scan *)

Lemma getCollidingIds_elem s items :
  s ∈ getCollidingIds items ↔ ∃ p, p ∈ orderedPairs items ∧ involves s p.
Proof.
  unfold getCollidingIds. rewrite collideAll_elem. split; [|auto].
  intros [H|H]; [by apply not_elem_of_empty in H | done].
Qed.

(** X3.  Every id reported as colliding is the id of a listed piece that
    [checkCollision] finds colliding with some listed piece; a list of at
    most one piece reports nothing. *)
Theorem getCollidingIds_sound (items : list Furniture.t) :
  (∀ s, s ∈ getCollidingIds items →
     ∃ x y, x ∈ items ∧ y ∈ items ∧ Furniture.id x = s ∧ checkCollision x y = true)
  ∧ (length items <= 1 → getCollidingIds items = ∅).
Proof.
  split.
  - intros s ([u v] & Hin & Hc & Hs)%getCollidingIds_elem. simpl in *.
    destruct (orderedPairs_elem _ _ _ Hin) as [Hu Hv]. destruct Hs as [-> | ->].
    + exists u, v. done.
    + exists v, u. by rewrite checkCollision_comm.
  - intros Hlen. destruct items as [|x [|y items]]; simpl in Hlen; [done | done | lia].
Qed.

Lemma symmetricPairs_perm (l l' : list Furniture.t) u v :
  l ≡ₚ l' →
  (u, v) ∈ orderedPairs l ∨ (v, u) ∈ orderedPairs l →
  (u, v) ∈ orderedPairs l' ∨ (v, u) ∈ orderedPairs l'.
Proof.
  intros Hp. revert u v. induction Hp as [|x l l' Hp IH|x y l|l1 l2 l3 _ IH1 _ IH2];
    intros u v; [done| | |by auto].
  - simpl. rewrite !elem_of_app, !list_elem_of_fmap.
    intros [[(w & [= Hu Hv] & Hw)|H]|[(w & [= Hu Hv] & Hw)|H]]; subst.
    + left; left. exists w. by rewrite <- Hp.
    + destruct (IH u v) as [?|?]; auto.
    + right; left. exists w. by rewrite <- Hp.
    + destruct (IH u v) as [?|?]; auto.
  - simpl.
    repeat (rewrite elem_of_cons || rewrite elem_of_app || rewrite list_elem_of_fmap).
    intros H.
    repeat match goal with
           | H : _ ∨ _ |- _ => destruct H
           | H : ∃ _, _ |- _ => destruct H as (? & [= -> ->] & ?)
           | H : (_, _) = (_, _) |- _ => injection H as -> ->
           end; eauto 10.
Qed.

(** X4.  The set of colliding ids does not depend on the order of the
    furniture list. *)
Theorem getCollidingIds_perm (items items' : list Furniture.t) :
  items ≡ₚ items' → getCollidingIds items = getCollidingIds items'.
Proof.
  intros Hp. apply set_eq. intros s. rewrite !getCollidingIds_elem.
  assert (∀ l l', l ≡ₚ l' →
            (∃ p, p ∈ orderedPairs l ∧ involves s p) →
            ∃ p, p ∈ orderedPairs l' ∧ involves s p) as Hdir.
  { intros l l' Hl ([u v] & Hin & Hc & Hs). simpl in *.
    destruct (symmetricPairs_perm l l' u v Hl) as [H|H]; [by left|..].
    - exists (u, v). done.
    - exists (v, u). split; [done|]. split; simpl; [by rewrite checkCollision_comm | tauto]. }
  split; apply Hdir; [done | by symmetry].
Qed.

Lemma getCollidingIds_perm_witness :
  getCollidingIds [box "A" 0 0 0 2 1 2 0 0; box "B" 1 0 0 2 1 2 0 0]
  = getCollidingIds [box "B" 1 0 0 2 1 2 0 0; box "A" 0 0 0 2 1 2 0 0].
Proof. apply getCollidingIds_perm. apply perm_swap. Defined.

(** ** More on footprints and collisions *)

Lemma getFootprint_corners f :
  let c := cos (orZero (Furniture.rotation f)) in
  let s := sin (orZero (Furniture.rotation f)) in
  let hw := (sizeW f / 2)%R in
  let hd := (sizeD f / 2)%R in
  getFootprint f =
    [ (posX f + - hw * c - - hd * s, posZ f + - hw * s + - hd * c);
      (posX f + hw * c - - hd * s, posZ f + hw * s + - hd * c);
      (posX f + hw * c - hd * s, posZ f + hw * s + hd * c);
      (posX f + - hw * c - hd * s, posZ f + - hw * s + hd * c) ]%R.
Proof.
  unfold getFootprint, posX, posZ, sizeW, sizeD.
  by destruct (Furniture.size f) as [[w hh] d], (Furniture.position f) as [[px py] pz].
Qed.

Lemma hypot_scaled (a c s : R) :
  (s * s + c * c = 1)%R → hypot (a * c) (a * s) = Rabs a.
Proof.
  intros H. unfold hypot.
  replace (a * c * (a * c) + a * s * (a * s))%R with (a * a)%R by nra.
  rewrite <- (sqrt_Rsqr_abs a). done.
Qed.

Lemma hypot_congr (a b a' b' : R) :
  (a * a + b * b = a' * a' + b' * b')%R → hypot a b = hypot a' b'.
Proof. unfold hypot. by intros ->. Qed.

(** X5.  The footprint is a rectangle whatever the rotation: four corners
    in order, opposite sides of length [|width|] and [|depth|], a right angle
    between adjacent sides, and both diagonals centred on the position of
    the piece. *)
Theorem getFootprint_rectangle (f : Furniture.t) :
  ∃ p0 p1 p2 p3,
    getFootprint f = [p0; p1; p2; p3]
    ∧ hypot (fst p1 - fst p0) (snd p1 - snd p0) = Rabs (sizeW f)
    ∧ hypot (fst p3 - fst p2) (snd p3 - snd p2) = Rabs (sizeW f)
    ∧ hypot (fst p2 - fst p1) (snd p2 - snd p1) = Rabs (sizeD f)
    ∧ hypot (fst p0 - fst p3) (snd p0 - snd p3) = Rabs (sizeD f)
    ∧ dotProduct (vecSub p1 p0) (vecSub p2 p1) = 0%R
    ∧ ((fst p0 + fst p2) / 2 = posX f ∧ (snd p0 + snd p2) / 2 = posZ f)%R
    ∧ ((fst p1 + fst p3) / 2 = posX f ∧ (snd p1 + snd p3) / 2 = posZ f)%R.
Proof.
  pose proof (sin2_cos2 (orZero (Furniture.rotation f))) as Hsc. unfold Rsqr in Hsc.
  do 4 eexists. split; [apply getFootprint_corners|]. simpl.
  set (c := cos _) in *. set (s := sin _) in *. clearbody c s.
  repeat split; try (unfold dotProduct, vecSub; simpl; nra).
  - rewrite <- (hypot_scaled (sizeW f) c s Hsc). apply hypot_congr; nra.
  - rewrite <- (hypot_scaled (sizeW f) c s Hsc). apply hypot_congr; nra.
  - rewrite <- (hypot_scaled (sizeD f) s c) by lra. apply hypot_congr; nra.
  - rewrite <- (hypot_scaled (sizeD f) s c) by lra. apply hypot_congr; nra.
Qed.

(** ** Rounding and translation *)

Section Rounding.
Import PrimFloat SpecFloat FloatOps.
#[local] Open Scope float_scope.

(** X6.  In binary64 [checkCollision] is not invariant under translation.
    A bed at [x = 0] and a sofa moved from [0] by eight presses of
    [ArrowRight] (to [x = 7205759403792793 * 2^-52], just under [1.6]) do
    not collide: on the normal [(-0.8, 0)] of the sofa's side the products
    of the two facing sides round to the same number.  Moved both by
    [0.25], a translation binary64 performs exactly (the sofa's mantissa
    grows by [2^50] at the same exponent), they collide. *)
Theorem checkCollision_not_translation_invariant :
  Prim2SF (Nat.iter 8 F64.arrowRight 0) = S754_finite false 7205759403792793 (-52)
  ∧ Prim2SF (Nat.iter 8 F64.arrowRight 0 + 0.25)
    = S754_finite false (7205759403792793 + 2 ^ 50) (-52)
  ∧ Prim2SF 0.25 = S754_finite false (2 ^ 52) (-54)
  ∧ Prim2SF (0 + 0.25) = Prim2SF 0.25
  ∧ (∀ cos sin,
       F64.checkCollision cos sin (F64.bed 0)
         (F64.sofa (Nat.iter 8 F64.arrowRight 0)) = false)
  ∧ (∀ cos sin,
       F64.checkCollision cos sin (F64.bed (0 + 0.25))
         (F64.sofa (Nat.iter 8 F64.arrowRight 0 + 0.25)) = true).
Proof. repeat split; intros; vm_compute; reflexivity. Qed.

(** Rounding shows after a full turn as well.  Two sofas stand side by
    side and do not collide.  Four presses of [R] leave the second at the
    rotation [fullTurn], about [6.283185307179586]; on an engine with the
    correctly rounded cosine and sine of that number its corners move by
    one unit in the last place, and the two collide. *)
Set Warnings "-inexact-float".
Lemma checkCollision_after_full_turn (cos sin : float → float) :
  cos F64.fullTurn = 1 → sin F64.fullTurn = -2.4492935982947064e-16 →
  F64.checkCollision cos sin F64.sofaFront (F64.sofaBack 0) = false
  ∧ F64.checkCollision cos sin F64.sofaFront (F64.sofaBack F64.fullTurn) = true.
Proof.
  intros Hc Hs. split; [vm_compute; reflexivity|].
  unfold F64.checkCollision.
  rewrite (getFootprint_trig cos sin F64.quarterCos F64.quarterSin (F64.sofaBack _))
    by (first [ change (cos F64.fullTurn = F64.quarterCos F64.fullTurn); rewrite Hc
              | change (sin F64.fullTurn = F64.quarterSin F64.fullTurn); rewrite Hs ];
        vm_compute; reflexivity).
  vm_compute. reflexivity.
Qed.
Set Warnings "+inexact-float".

End Rounding.

(** ** More on the raster analyzer *)

Lemma rem_quot_index (w x y : Z) :
  (0 <= x < w)%Z → (0 <= y)%Z →
  Z.rem (y * w + x) w = x ∧ Z.quot (y * w + x) w = y.
Proof.
  intros Hx Hy.
  rewrite Z.rem_mod_nonneg, Z.quot_div_nonneg by nia.
  split; symmetry.
  - apply (Z.mod_unique _ _ y); [lia | ring].
  - apply (Z.div_unique _ _ _ x); [lia | ring].
Qed.

Lemma index_coords (w h idx : Z) :
  (0 < w)%Z → (0 <= idx < w * h)%Z →
  (0 <= Z.rem idx w < w)%Z ∧ (0 <= Z.quot idx w < h)%Z
  ∧ idx = (Z.quot idx w * w + Z.rem idx w)%Z.
Proof.
  intros Hw Hi.
  pose proof (Z.quot_rem' idx w) as Hqr.
  pose proof (Z.rem_bound_pos idx w ltac:(lia) Hw) as Hr.
  pose proof (Z.quot_pos idx w ltac:(lia) Hw) as Hq.
  assert (idx ÷ w < h)%Z by (apply Z.quot_lt_upper_bound; lia).
  lia.
Qed.

Lemma floodLoop_grows fuel w h labeled queue labeled' :
  floodLoop fuel w h labeled queue = Some labeled' → grows labeled labeled'.
Proof.
  revert labeled queue; induction fuel as [|fuel IH]; intros labeled [|curr rest];
    cbn [floodLoop]; try done; try (intros [= <-]; apply grows_refl).
  intros Hloop. apply IH in Hloop. eapply grows_trans; [|exact Hloop].
  destruct (foldl_ext (floodVisit w h (Z.rem curr w) (Z.quot curr w)) (λ _ _, True)
              DIRS (labeled, rest)) as [He _]; try done.
  { intros; apply floodVisit_ext. }
  by apply ext_grows in He.
Qed.

Lemma seedBorder_border w h labeled x y :
  (0 <= x < w)%Z → (0 <= y < h)%Z → onBorder w h x y →
  notOpenAt (y * w + x) (seedBorder w h labeled).
Proof.
  intros Hx Hy Hb. unfold seedBorder.
  destruct (foldl_ext (λ st x, enqueueEdge w (enqueueEdge w st x 0) x (h - 1))
              (λ x st, notOpenAt (0 * w + x) st ∧ notOpenAt ((h - 1) * w + x) st)
              (seqZ 0 w) (labeled, [])) as [He1 Hp1].
  { intros st a. eapply ext_trans; apply enqueueEdge_ext. }
  { intros st a. split; [|apply enqueueEdge_notOpen].
    eapply notOpenAt_ext; [apply enqueueEdge_notOpen | apply enqueueEdge_ext]. }
  { intros a st st' [H1 H2] He. split; eapply notOpenAt_ext; eauto. }
  set (st1 := foldl _ _ (seqZ 0 w)) in *.
  destruct (foldl_ext (λ st y, enqueueEdge w (enqueueEdge w st 0 y) (w - 1) y)
              (λ y st, notOpenAt (y * w + 0) st ∧ notOpenAt (y * w + (w - 1)) st)
              (seqZ 1 (h - 2)) st1) as [He2 Hp2].
  { intros st a. eapply ext_trans; apply enqueueEdge_ext. }
  { intros st a. split; [|apply enqueueEdge_notOpen].
    eapply notOpenAt_ext; [apply enqueueEdge_notOpen | apply enqueueEdge_ext]. }
  { intros a st st' [H1 H2] He. split; eapply notOpenAt_ext; eauto. }
  destruct (decide (y = 0 ∨ y = h - 1)%Z) as [Hy'|Hy'].
  - assert (x ∈ seqZ 0 w) as Hin by (apply elem_of_seqZ; lia).
    destruct (Hp1 x Hin) as [H1 H2].
    eapply notOpenAt_ext; [|exact He2]. by destruct Hy' as [-> | ->].
  - assert (y ∈ seqZ 1 (h - 2)) as Hin by (apply elem_of_seqZ; lia).
    destruct (Hp2 y Hin) as [H1 H2].
    destruct Hb as [->|[->|[?|?]]]; try lia; done.
Qed.

Lemma floodExterior_border (w h : Z) (dilated labeled : list Z) :
  floodExterior w h dilated = Some labeled →
  ∀ x y, (0 <= x < w)%Z → (0 <= y < h)%Z → onBorder w h x y →
         arrGet labeled (y * w + x) ≠ Some OPEN.
Proof.
  unfold floodExterior. intros Hloop x y Hx Hy Hb.
  pose proof (floodLoop_grows _ _ _ _ _ _ Hloop) as Hg.
  set (st := seedBorder w h dilated) in *.
  apply (notOpenAt_grows _ (snd st) [] (fst st)); [|done].
  replace (fst st, snd st) with st by (by destruct st).
  by apply seedBorder_border.
Qed.

(** X7.  The exterior flood fill, on a grid that holds no [EXTERIOR] mark
    yet, only turns [OPEN] pixels into [EXTERIOR] ones; afterwards no pixel
    of the frame of the raster is [OPEN] and no [EXTERIOR] pixel has an
    [OPEN] 4-neighbour, so what stays [OPEN] is cut off from the frame. *)
Theorem floodExterior_spec (w h : Z) (dilated labeled : list Z) :
  (0 < w)%Z →
  (∀ i, arrGet dilated i ≠ Some EXTERIOR) →
  floodExterior w h dilated = Some labeled →
  grows dilated labeled
  ∧ (∀ x y, (0 <= x < w)%Z → (0 <= y < h)%Z → onBorder w h x y →
       arrGet labeled (y * w + x) ≠ Some OPEN)
  ∧ (∀ x y d, (0 <= x < w)%Z → (0 <= y < h)%Z → d ∈ DIRS →
       (0 <= x + fst d < w)%Z → (0 <= y + snd d < h)%Z →
       arrGet labeled (y * w + x) = Some EXTERIOR →
       arrGet labeled ((y + snd d) * w + (x + fst d)) ≠ Some OPEN).
Proof.
  intros Hw Hno Hflood.
  pose proof (floodExterior_border w h dilated labeled Hflood) as Hborder.
  revert Hflood. unfold floodExterior. intros Hloop.
  destruct (seedBorder_ext w h dilated) as [He _].
  pose proof (floodLoop_grows _ _ _ _ _ _ Hloop) as Hg.
  set (st := seedBorder w h dilated) in *.
  apply floodLoop_closed in Hloop as [Hclosed _].
  2:{ intros idx Hidx. destruct He as (_ & _ & G).
      destruct (G idx) as [E|(_ & _ & Hin)]; [|by left].
      replace (fst st, snd st) with st in Hidx by (by destruct st).
      rewrite Hidx in E. symmetry in E. by apply Hno in E. }
  split; [|split].
  - eapply grows_trans; [|exact Hg]. by apply ext_grows in He.
  - exact Hborder.
  - intros x y d Hx Hy Hd Hx' Hy' Hext.
    destruct (Hclosed _ Hext) as [Hin|Hn]; [inversion Hin|].
    destruct (rem_quot_index w x y) as [Er Eq]; [lia | lia |].
    specialize (Hn d Hd). rewrite Er, Eq in Hn. apply Hn.
    unfold inBounds. lia.
Qed.

Lemma floodExterior_spec_witness :
  grows [1; 1; 1; 1; 0; 1; 1; 1; 1]%Z [2; 2; 2; 2; 0; 2; 2; 2; 2]%Z.
Proof.
  apply (floodExterior_spec 3 3 [1; 1; 1; 1; 0; 1; 1; 1; 1]%Z [2; 2; 2; 2; 0; 2; 2; 2; 2]%Z).
  - lia.
  - intros i Hi.
    assert (Forall (λ v, v ≠ EXTERIOR) [1; 1; 1; 1; 0; 1; 1; 1; 1]%Z) as Hf
      by (repeat constructor; done).
    by apply (Forall_arrGet _ _ _ _ Hf) in Hi.
  - vm_compute. reflexivity.
Defined.

Lemma foldl_invariant_elem {A B} (P : A → Prop) (f : A → B → A) (l : list B) (a : A) :
  P a → (∀ a x, x ∈ l → P a → P (f a x)) → P (foldl f a l).
Proof.
  revert a. induction l as [|x l IH]; intros a Ha Hf; simpl; [done|].
  apply IH.
  - apply Hf; [left | done].
  - intros a' y Hy. apply Hf. by right.
Qed.

Section Interior.
Context (w h : Z) (labeled : list Z).
Hypothesis Hopen : ∀ idx, arrGet labeled idx = Some OPEN →
  (1 <= Z.rem idx w <= w - 2)%Z ∧ (1 <= Z.quot idx w <= h - 2)%Z.

Lemma grow_interior box cx cy :
  interiorBox w h box → (1 <= cx <= w - 2)%Z → (1 <= cy <= h - 2)%Z →
  interiorBox w h (grow box cx cy).
Proof.
  unfold interiorBox, grow. intros (H1 & H2 & H3 & H4) Hx Hy. simpl.
  repeat case_match; lia.
Qed.

Lemma regionVisit_queue cx cy st d :
  Forall (λ idx, arrGet labeled idx = Some OPEN) (snd st) →
  Forall (λ idx, arrGet labeled idx = Some OPEN) (snd (regionVisit w h labeled cx cy st d)).
Proof.
  intros Hq. unfold regionVisit. destruct (inBounds _ _ _ _); [|done].
  destruct (bool_decide _) eqn:Ho; [|done]. simpl. destruct (falsy _); [|done]. simpl.
  apply Forall_app. split; [done|]. apply Forall_singleton.
  by apply bool_decide_eq_true in Ho.
Qed.

Lemma regionLoop_interior fuel visited queue box visited' box' :
  Forall (λ idx, arrGet labeled idx = Some OPEN) queue →
  interiorBox w h box →
  regionLoop fuel w h labeled visited queue box = Some (visited', box') →
  interiorBox w h box'.
Proof.
  revert visited queue box; induction fuel as [|fuel IH];
    intros visited [|curr rest] box Hq Hbox; cbn [regionLoop]; try done;
    try (by intros [= _ <-]).
  apply Forall_cons in Hq as [Hcurr Hrest].
  destruct (Hopen curr Hcurr) as [Hx Hy].
  apply IH; [|by apply grow_interior].
  apply (foldl_invariant
           (λ st, Forall (λ idx, arrGet labeled idx = Some OPEN) (snd st))); [done|].
  intros st d. apply regionVisit_queue.
Qed.

Lemma scanAt_interior st startX startY st' :
  (1 <= startX <= w - 2)%Z → (1 <= startY <= h - 2)%Z →
  Forall (interiorBox w h) (snd st) →
  scanAt w h labeled st startX startY = Some st' →
  Forall (interiorBox w h) (snd st').
Proof.
  intros Hx Hy Hst. unfold scanAt.
  destruct (bool_decide _) eqn:Ho; simpl; [|by intros [= <-]].
  destruct (falsy _); simpl; [|by intros [= <-]].
  apply bool_decide_eq_true in Ho.
  destruct (regionLoop _ _ _ _ _ _ _) as [[visited box]|] eqn:E; simpl; [|done].
  apply regionLoop_interior in E.
  - destruct (PrimFloat.ltb _ _); intros [= <-]; simpl; [done|].
    apply Forall_app. split; [done | by apply Forall_singleton].
  - by apply Forall_singleton.
  - unfold interiorBox; simpl. lia.
Qed.

Lemma scanRooms_interior regions :
  scanRooms w h labeled = Some regions → Forall (interiorBox w h) regions.
Proof.
  unfold scanRooms.
  set (P := λ o : option ScanState, ∀ s, o = Some s → Forall (interiorBox w h) (snd s)).
  assert (P (foldl (scanRow w h labeled)
               (Some (replicate (Z.to_nat (w * h)) 0%Z, [])) (seqZ 1 (h - 2)))) as HP.
  { apply foldl_invariant_elem.
    - intros s [= <-]. simpl. constructor.
    - intros o startY Hy Ho. unfold scanRow. apply foldl_invariant_elem; [done|].
      intros o' startX Hx Ho' s Hs.
      destruct o' as [s0|]; simpl in Hs; [|done].
      apply elem_of_seqZ in Hx, Hy.
      eapply scanAt_interior; [| |by apply Ho'|exact Hs]; lia. }
  destruct (foldl _ _ _) as [s|]; simpl; [|done].
  intros [= <-]. by apply HP.
Qed.

End Interior.

(** The grid handed to the component scan has no [OPEN] pixel on its frame:
    every [OPEN] index decodes to interior coordinates. *)
Lemma labeled_open_interior w h data labeled idx :
  (0 < w)%Z → (0 < h)%Z →
  floodExterior w h (dilateWalls (fixPolarity w h (binarize w h data)) w h DILATE_RADIUS)
    = Some labeled →
  arrGet labeled idx = Some OPEN →
  (1 <= Z.rem idx w <= w - 2)%Z ∧ (1 <= Z.quot idx w <= h - 2)%Z.
Proof.
  intros Hw Hh Hflood Hidx.
  pose proof (floodExterior_length _ _ _ _ Hflood) as Hlen.
  rewrite length_dilateWalls, length_fixPolarity, length_binarize in Hlen.
  pose proof (floodExterior_border _ _ _ _ Hflood) as Hborder.
  pose proof (arrGet_Some_range _ _ _ Hidx) as Hr. rewrite Hlen in Hr.
  destruct (index_coords w h idx Hw) as (Hx & Hy & E); [lia|].
  assert (¬ onBorder w h (Z.rem idx w) (Z.quot idx w)) as Hnb.
  { intros Hb. apply (Hborder _ _ Hx Hy Hb). by rewrite <- E. }
  unfold onBorder in Hnb. lia.
Qed.

Lemma roomOfRegion_inside uuid w h cw ch k r :
  (0 < cw)%R → (0 < ch)%R → interiorBox w h r →
  let room := roomOfRegion uuid w h cw ch k r in
  (0 < Room.x room ∧ 0 < Room.y room
   ∧ 0 <= Room.width room ∧ 0 <= Room.height room
   ∧ Room.x room + Room.width room < cw
   ∧ Room.y room + Room.height room < ch)%R.
Proof.
  intros Hcw Hch (Hx1 & Hx2 & Hy1 & Hy2). simpl.
  assert (0 < IZR w)%R as Hw by (apply IZR_lt; lia).
  assert (0 < IZR h)%R as Hh by (apply IZR_lt; lia).
  assert (0 < cw / IZR w)%R as Hsx by (by apply Rdiv_lt_0_compat).
  assert (0 < ch / IZR h)%R as Hsy by (by apply Rdiv_lt_0_compat).
  assert (cw = IZR w * (cw / IZR w))%R as Ecw by (field; lra).
  assert (ch = IZR h * (ch / IZR h))%R as Ech by (field; lra).
  rewrite !minus_IZR.
  assert (1 <= IZR (Region.minX r))%R by (apply IZR_le; lia).
  assert (IZR (Region.minX r) <= IZR (Region.maxX r))%R by (apply IZR_le; lia).
  assert (IZR (Region.maxX r) <= IZR w - 2)%R
    by (rewrite <- (minus_IZR w 2); apply IZR_le; lia).
  assert (1 <= IZR (Region.minY r))%R by (apply IZR_le; lia).
  assert (IZR (Region.minY r) <= IZR (Region.maxY r))%R by (apply IZR_le; lia).
  assert (IZR (Region.maxY r) <= IZR h - 2)%R
    by (rewrite <- (minus_IZR h 2); apply IZR_le; lia).
  set (sx := (cw / IZR w)%R) in *. set (sy := (ch / IZR h)%R) in *.
  repeat split; nra.
Qed.

(** X8.  On a canvas of positive size every detected room lies strictly
    inside the canvas and has a width and a height that are not negative. *)
Theorem analyzeFloorPlan_rooms_inside (uuid : nat → string) (w h : Z) (data : list Z)
    (canvasWidth canvasHeight : R) (rooms : list Room.t) :
  (0 < canvasWidth)%R → (0 < canvasHeight)%R →
  analyzeFloorPlan uuid w h data canvasWidth canvasHeight = Some rooms →
  ∀ r, r ∈ rooms →
    (0 < Room.x r ∧ 0 < Room.y r
     ∧ 0 <= Room.width r ∧ 0 <= Room.height r
     ∧ Room.x r + Room.width r < canvasWidth
     ∧ Room.y r + Room.height r < canvasHeight)%R.
Proof.
  intros Hcw Hch. unfold analyzeFloorPlan, detectRegions.
  destruct (floodExterior _ _ _) as [labeled|] eqn:Hflood; simpl; [|done].
  destruct (scanRooms w h labeled) as [regions|] eqn:Hscan; simpl; [|done].
  intros [= <-] r Hr.
  apply list_elem_of_lookup in Hr as [k Hk].
  rewrite list_lookup_imap in Hk.
  destruct (regions !! k) as [reg|] eqn:Hreg; simpl in Hk; [|done].
  injection Hk as <-.
  destruct (decide ((w <= 2)%Z ∨ (h <= 2)%Z)) as [Hdim|Hdim].
  { rewrite scanRooms_narrow in Hscan by done. injection Hscan as <-. done. }
  apply roomOfRegion_inside; [done | done |].
  apply scanRooms_interior in Hscan.
  - eapply Forall_lookup_1; eauto.
  - intros idx. apply (labeled_open_interior w h data); [lia | lia | done].
Qed.

Lemma analyzeFloorPlan_rooms_inside_witness :
  let r := roomOfRegion (λ _, "id"%string) 18 18 280 280 0 (Region.mk 8 9 8 9 4) in
  (0 < Room.x r ∧ 0 < Room.y r
   ∧ 0 <= Room.width r ∧ 0 <= Room.height r
   ∧ Room.x r + Room.width r < 280
   ∧ Room.y r + Room.height r < 280)%R.
Proof.
  refine (analyzeFloorPlan_rooms_inside (λ _, "id"%string) 18 18 (framed 18 18 2) 280 280
            [roomOfRegion (λ _, "id"%string) 18 18 280 280 0 (Region.mk 8 9 8 9 4)]
            _ _ _ _ _); [lra | lra | | left].
  assert (detectRegions 18 18 (framed 18 18 2) = Some [Region.mk 8 9 8 9 4]) as E
    by (vm_compute; reflexivity).
  unfold analyzeFloorPlan. rewrite E. reflexivity.
Defined.

(** *** Dilation *)

Lemma walled_refl dst : walled dst dst.
Proof. split; [done | by left]. Qed.

Lemma walled_trans d1 d2 d3 : walled d1 d2 → walled d2 d3 → walled d1 d3.
Proof.
  intros [L1 G1] [L2 G2]. split; [congruence|].
  intros i. destruct (G2 i) as [E|E]; [|by right]. rewrite E. apply G1.
Qed.

Lemma walled_arrSet dst i : walled dst (arrSet dst i WALL).
Proof.
  split; [apply length_arrSet|]. intros j.
  destruct (decide (i = j)) as [<-|Hne]; [|left; by apply arrGet_arrSet_ne].
  destruct (arrGet dst i) as [v|] eqn:E.
  - right. apply arrGet_arrSet_eq. by rewrite E.
  - left. unfold arrGet, arrSet in *. destruct (i <? 0)%Z; [done|].
    apply lookup_ge_None in E. apply lookup_ge_None. by rewrite length_insert.
Qed.

Lemma wall_stable dst dst' i :
  arrGet dst i = Some WALL → walled dst dst' → arrGet dst' i = Some WALL.
Proof. intros H [_ G]. destruct (G i) as [E|E]; congruence. Qed.

(** A loop of overwriting steps: what a step establishes for its element
    holds at the end for every element. *)
Lemma foldl_walled {A} (f : list Z → A → list Z) (P : A → list Z → Prop)
    (l : list A) (dst : list Z) :
  (∀ dst a, walled dst (f dst a)) →
  (∀ dst a, a ∈ l → P a (f dst a)) →
  (∀ a dst dst', P a dst → walled dst dst' → P a dst') →
  walled dst (foldl f dst l) ∧ ∀ a, a ∈ l → P a (foldl f dst l).
Proof.
  intros Hstep Hestab Hstable. revert dst.
  induction l as [|a l IH]; intros dst; simpl.
  { split; [apply walled_refl | intros a Ha; inversion Ha]. }
  destruct IH with (dst := f dst a) as [Hw Hp].
  { intros dst' b Hb. apply Hestab. by right. }
  split.
  - eapply walled_trans; [apply Hstep | done].
  - intros b [->|Hb]%elem_of_cons; [|auto].
    eapply Hstable; [apply Hestab; left | done].
Qed.

Section Dilate.
Context (src : list Z) (w h radius : Z).
Hypothesis Hw : (0 < w)%Z.
Hypothesis Hh : (0 < h)%Z.
Hypothesis Hlen : length src = Z.to_nat (w * h).

Lemma wallAt_stable nx ny dst dst' :
  wallAt src w nx ny dst → walled dst dst' → wallAt src w nx ny dst'.
Proof.
  intros H Hwd Hl. eapply wall_stable; [|done]. apply H. destruct Hwd. congruence.
Qed.

Lemma dilateRow_walled ny x0 x1 dst :
  (0 <= x0)%Z → (x1 < w)%Z → (0 <= ny < h)%Z →
  walled dst (dilateRow w ny x0 x1 dst)
  ∧ ∀ nx, (x0 <= nx <= x1)%Z → wallAt src w nx ny (dilateRow w ny x0 x1 dst).
Proof.
  intros Hx0 Hx1 Hny. unfold dilateRow.
  destruct (foldl_walled (λ dst nx, arrSet dst (ny * w + nx) WALL)
              (λ nx dst, wallAt src w nx ny dst) (seqZ x0 (x1 - x0 + 1)) dst) as [H1 H2].
  - intros; apply walled_arrSet.
  - intros d nx Hnx%elem_of_seqZ Hl. rewrite length_arrSet in Hl.
    apply arrGet_arrSet_eq, arrGet_in_range. rewrite Hl, Hlen. nia.
  - intros nx d d'. apply wallAt_stable.
  - split; [done|]. intros nx Hnx. apply H2, elem_of_seqZ. lia.
Qed.

Lemma dilateBlock_walled x0 x1 y0 y1 dst :
  (0 <= x0)%Z → (x1 < w)%Z → (0 <= y0)%Z → (y1 < h)%Z →
  walled dst (dilateBlock w x0 x1 y0 y1 dst)
  ∧ ∀ nx ny, (x0 <= nx <= x1)%Z → (y0 <= ny <= y1)%Z →
      wallAt src w nx ny (dilateBlock w x0 x1 y0 y1 dst).
Proof.
  intros Hx0 Hx1 Hy0 Hy1. unfold dilateBlock.
  destruct (foldl_walled (λ dst ny, dilateRow w ny x0 x1 dst)
              (λ ny dst, (0 <= ny < h)%Z → ∀ nx, (x0 <= nx <= x1)%Z → wallAt src w nx ny dst)
              (seqZ y0 (y1 - y0 + 1)) dst) as [H1 H2].
  - intros d ny. unfold dilateRow.
    apply (foldl_invariant (λ d', walled d d')); [apply walled_refl|].
    intros d' nx Hd'. eapply walled_trans; [done | apply walled_arrSet].
  - intros d ny _ Hny. by apply dilateRow_walled.
  - intros ny d d' H Hwd Hny nx Hnx. eapply wallAt_stable; eauto.
  - split; [done|]. intros nx ny Hnx Hny. apply H2; [apply elem_of_seqZ|..]; lia.
Qed.

Lemma dilateAt_walled y dst x :
  walled dst (dilateAt src w h radius y dst x)
  ∧ (arrGet src (y * w + x) = Some WALL →
     ∀ nx ny, painted w h radius x y nx ny → wallAt src w nx ny (dilateAt src w h radius y dst x)).
Proof.
  unfold dilateAt. case_decide as Hsrc.
  - destruct (dilateBlock_walled (Z.max 0 (x - radius)) (Z.min (w - 1) (x + radius))
                (Z.max 0 (y - radius)) (Z.min (h - 1) (y + radius)) dst) as [H1 H2];
      try lia.
    split; [done|]. intros _ nx ny [Hnx Hny]. by apply H2.
  - split; [apply walled_refl | done].
Qed.

Lemma dilateWalls_walled :
  walled src (dilateWalls src w h radius)
  ∧ ∀ x y nx ny, (0 <= x < w)%Z → (0 <= y < h)%Z →
      arrGet src (y * w + x) = Some WALL → painted w h radius x y nx ny →
      arrGet (dilateWalls src w h radius) (ny * w + nx) = Some WALL.
Proof.
  unfold dilateWalls.
  destruct (foldl_walled (λ dst y, foldl (dilateAt src w h radius y) dst (seqZ 0 w))
              (λ y dst, ∀ x nx ny, (0 <= x < w)%Z →
                 arrGet src (y * w + x) = Some WALL → painted w h radius x y nx ny →
                 wallAt src w nx ny dst)
              (seqZ 0 h) src) as [H1 H2].
  - intros d y.
    apply (foldl_invariant (λ d', walled d d')); [apply walled_refl|].
    intros d' x Hd'. eapply walled_trans; [done | apply dilateAt_walled].
  - intros d y _ x nx ny Hx Hsrc Hp.
    destruct (foldl_walled (dilateAt src w h radius y)
                (λ x dst, arrGet src (y * w + x) = Some WALL →
                          ∀ nx ny, painted w h radius x y nx ny → wallAt src w nx ny dst)
                (seqZ 0 w) d) as [_ H4].
    + intros; apply dilateAt_walled.
    + intros d' x' _. apply dilateAt_walled.
    + intros x' d1 d2 H Hwd Hs nx' ny' Hp'. eapply wallAt_stable; eauto.
    + apply (H4 x); [apply elem_of_seqZ; lia | done | done].
  - intros y d d' H Hwd x nx ny Hx Hs Hp. eapply wallAt_stable; eauto.
  - split; [done|]. intros x y nx ny Hx Hy Hs Hp.
    refine (H2 y _ x nx ny Hx Hs Hp _); [apply elem_of_seqZ; lia | by destruct H1].
Qed.

End Dilate.

Lemma index_injective (w x y x' y' : Z) :
  (0 <= x < w)%Z → (0 <= x' < w)%Z → (y * w + x = y' * w + x')%Z → x = x' ∧ y = y'.
Proof. intros Hx Hx' E. assert (y = y') by nia. subst. lia. Qed.

Lemma dilateWalls_far src w h radius x y :
  (0 <= x < w)%Z → (0 <= y < h)%Z →
  ¬ wallNear src w h radius x y →
  arrGet (dilateWalls src w h radius) (y * w + x) = arrGet src (y * w + x).
Proof.
  intros Hx Hy Hfar. unfold dilateWalls.
  apply (foldl_invariant_elem (λ dst, arrGet dst (y * w + x) = arrGet src (y * w + x)));
    [done|].
  intros dst1 y' Hy'%elem_of_seqZ Hdst1.
  apply (foldl_invariant_elem (λ dst, arrGet dst (y * w + x) = arrGet src (y * w + x)));
    [done|].
  clear dst1 Hdst1. intros dst2 x' Hx'%elem_of_seqZ Hdst2.
  unfold dilateAt. case_decide as Hsrc; [|done]. unfold dilateBlock.
  apply (foldl_invariant_elem (λ dst, arrGet dst (y * w + x) = arrGet src (y * w + x)));
    [done|].
  clear dst2 Hdst2. intros dst3 ny Hny%elem_of_seqZ Hdst3. unfold dilateRow.
  apply (foldl_invariant_elem (λ dst, arrGet dst (y * w + x) = arrGet src (y * w + x)));
    [done|].
  clear dst3 Hdst3. intros dst4 nx Hnx%elem_of_seqZ Hdst4.
  rewrite arrGet_arrSet_ne; [done|]. intros E.
  apply index_injective in E as [-> ->]; [|lia..].
  apply Hfar. exists x', y'. repeat split; try lia. done.
Qed.

(** X9.  Dilation by a square: the result has the size of the source; a
    pixel is [WALL] in it when some wall pixel of the source lies within
    [radius] of it in both directions, and keeps its source value
    otherwise. *)
Theorem dilateWalls_spec (src : list Z) (w h radius : Z) :
  (0 < w)%Z → (0 < h)%Z → length src = Z.to_nat (w * h) →
  length (dilateWalls src w h radius) = length src
  ∧ ∀ x y, (0 <= x < w)%Z → (0 <= y < h)%Z →
      (wallNear src w h radius x y →
         arrGet (dilateWalls src w h radius) (y * w + x) = Some WALL)
      ∧ (¬ wallNear src w h radius x y →
         arrGet (dilateWalls src w h radius) (y * w + x) = arrGet src (y * w + x)).
Proof.
  intros Hw Hh Hlen. split; [apply length_dilateWalls|].
  intros x y Hx Hy. split; [|by apply dilateWalls_far].
  intros (x' & y' & Hx' & Hy' & Hdx & Hdy & Hsrc).
  destruct (dilateWalls_walled src w h radius Hw Hh Hlen) as [_ H].
  apply (H x' y'); [done | done | done |]. unfold painted. lia.
Qed.

Lemma dilateWalls_spec_witness :
  arrGet (dilateWalls [1; 1; 1; 1; 0; 1; 1; 1; 1; 1; 1; 1]%Z 4 3 1) (0 * 4 + 3)
  = arrGet [1; 1; 1; 1; 0; 1; 1; 1; 1; 1; 1; 1]%Z (0 * 4 + 3).
Proof.
  refine (proj2 (proj2 (dilateWalls_spec [1; 1; 1; 1; 0; 1; 1; 1; 1; 1; 1; 1]%Z 4 3 1
                          _ _ _) 3 0 _ _)%Z _); try lia; [done|].
  intros (x' & y' & Hx & Hy & Hdx & Hdy & Hsrc).
  assert (x' = 2 ∨ x' = 3)%Z as [-> | ->] by lia;
    (assert (y' = 0 ∨ y' = 1)%Z as [-> | ->] by lia); done.
Defined.

(** ** The store: furniture *)







Lemma map_ids (g : Furniture.t → Furniture.t) (l : list Furniture.t) :
  (∀ f, Furniture.id (g f) = Furniture.id f) →
  Furniture.id <$> map g l = Furniture.id <$> l.
Proof.
  intros Hid. induction l as [|f l IH]; [done|].
  cbn [map]. by rewrite !fmap_cons, Hid, IH.
Qed.

Lemma furnitureOk_map (g : Furniture.t → Furniture.t) (s : HouseStore.t) :
  (∀ f, Furniture.id (g f) = Furniture.id f) →
  (∀ f, f ∈ HouseStore.furniture s → grounded f → grounded (g f)) →
  furnitureOk s → furnitureOk (setFurniture (map g (HouseStore.furniture s)) s).
Proof.
  intros Hid Hg [Hnd Hgr]. split.
  - unfold furnitureIds, setFurniture; cbn [HouseStore.furniture]. by rewrite map_ids.
  - simpl. apply List.Forall_map. apply Forall_forall. intros f Hf.
    apply Hg; [done|]. by apply (proj1 (Forall_forall _ _) Hgr).
Qed.

Lemma find_id_elem (l : list Furniture.t) (sel : string) (item : Furniture.t) :
  List.find (λ f, bool_decide (Furniture.id f = sel)) l = Some item →
  item ∈ l ∧ Furniture.id item = sel.
Proof.
  induction l as [|f l IH]; simpl; [done|].
  case_bool_decide as E.
  - intros [= ->]. split; [left | done].
  - intros H. destruct (IH H). split; [by right | done].
Qed.

Lemma same_id_same_item (l : list Furniture.t) (f g : Furniture.t) :
  NoDup (Furniture.id <$> l) → f ∈ l → g ∈ l → Furniture.id f = Furniture.id g → f = g.
Proof.
  induction l as [|x l IH]; simpl; [intros _ H; inversion H|].
  intros [Hx Hnd]%NoDup_cons [->|Hf]%elem_of_cons [->|Hg]%elem_of_cons Hid;
    [done | | | by apply IH].
  - destruct Hx. rewrite Hid. by apply list_elem_of_fmap_2.
  - destruct Hx. rewrite <- Hid. by apply list_elem_of_fmap_2.
Qed.

Section FurnitureEdits.
Context (s : HouseStore.t).
Hypothesis Hok : furnitureOk s.

Lemma updateFurniture_ok id patch :
  FurniturePatch.position patch = None → FurniturePatch.size patch = None →
  FurniturePatch.elevation patch = None →
  furnitureOk (updateFurniture id patch s).
Proof.
  intros Hp Hs He. apply furnitureOk_map; [intros f; by case_decide | | done].
  intros f _ Hf. case_decide; [|done].
  unfold grounded, bottom, sizeH, patchFurniture in *; simpl. by rewrite Hp, Hs, He.
Qed.

Lemma moveItem_ok id item x z :
  item ∈ HouseStore.furniture s → Furniture.id item = id →
  furnitureOk (updateFurniturePosition id (x, snd (fst (Furniture.position item)), z) s).
Proof.
  intros Hin Hid. apply furnitureOk_map; [intros f; by case_decide | | done].
  intros f Hf Hg. case_decide as E; [|done].
  assert (f = item) as ->
    by (apply (same_id_same_item _ _ _ (proj1 Hok) Hf Hin); congruence).
  unfold grounded, bottom, sizeH in *; simpl. done.
Qed.

Lemma updateFurnitureSize_ok id size : furnitureOk (updateFurnitureSize id size s).
Proof.
  apply furnitureOk_map; [intros f; by case_decide | | done].
  intros f _ Hf. case_decide; [done|]. unfold grounded, bottom, sizeH; simpl. done.
Qed.

Lemma updateFurnitureElevation_ok id e : furnitureOk (updateFurnitureElevation id e s).
Proof.
  apply furnitureOk_map; [intros f; by case_decide | | done].
  intros f _ Hf. case_decide; [done|]. unfold grounded, bottom, sizeH; simpl. done.
Qed.

Lemma handleAdd_ok uuid tmpl : uuid ∉ furnitureIds s → furnitureOk (handleAdd uuid tmpl s).
Proof.
  destruct Hok as [Hnd Hgr]. intros Hfresh. split.
  - unfold handleAdd, addFurniture, furnitureIds, setFurniture; cbn [HouseStore.furniture].
    rewrite fmap_app. apply NoDup_app. split; [done|]. split.
    + intros x Hx [->|H]%elem_of_cons; [done | inversion H].
    + apply NoDup_singleton.
  - unfold handleAdd, addFurniture, setFurniture; cbn [HouseStore.furniture].
    apply Forall_app. split; [done|].
    apply Forall_singleton. unfold grounded, bottom, sizeH, orZero; simpl. lra.
Qed.

Lemma removeFurniture_ok id : furnitureOk (removeFurniture id s).
Proof.
  destruct Hok as [Hnd Hgr]. split.
  - unfold furnitureIds; simpl.
    eapply sublist_NoDup; [exact Hnd | apply fmap_sublist, sublist_filter].
  - simpl. apply Forall_forall. intros f [_ Hf]%list_elem_of_filter.
    by apply (proj1 (Forall_forall _ _) Hgr).
Qed.

Lemma onKey_ok key inputFocused : furnitureOk (onKey key inputFocused s).
Proof.
  unfold onKey. destruct (HouseStore.selectedFurnitureId s) as [sel|]; [|done].
  case_decide; [done|]. destruct inputFocused; [done|].
  destruct (List.find _ _) as [item|] eqn:E; [|done].
  apply find_id_elem in E as [Hin Hid].
  destruct (Furniture.position item) as [[x y] z] eqn:Ep.
  replace y with (snd (fst (Furniture.position item))) by (by rewrite Ep).
  destruct key; simpl; try done; try (by apply moveItem_ok).
  by apply updateFurniture_ok.
Qed.

End FurnitureEdits.

Lemma heldAt_map (g : Furniture.t → Furniture.t) (item : Furniture.t) (s : HouseStore.t) :
  (∀ f, Furniture.id (g f) = Furniture.id f ∧ bottom (g f) = bottom f
        ∧ sizeH (g f) = sizeH f) →
  heldAt item s → heldAt item (setFurniture (map g (HouseStore.furniture s)) s).
Proof.
  intros Hg H f' Hf' Hid. cbn [setFurniture HouseStore.furniture] in Hf'.
  apply list_elem_of_In, in_map_iff in Hf' as (f & <- & Hf%list_elem_of_In).
  destruct (Hg f) as (E1 & E2 & E3). rewrite E2, E3. apply H; [done | congruence].
Qed.

(** A pointer move of a drag writes the height of the stale [item]; it
    keeps the store in order as long as that height is right for the piece
    it writes to. *)
Lemma dragFurniture_held item x z s :
  furnitureOk s → heldAt item s →
  furnitureOk (dragFurniture item x z s) ∧ heldAt item (dragFurniture item x z s).
Proof.
  intros Hok Hheld. split.
  - apply furnitureOk_map; [intros f; by case_decide | | done].
    intros f Hf Hg. case_decide as E; [|done].
    unfold grounded, bottom, sizeH; simpl. by apply Hheld.
  - apply heldAt_map; [|done]. intros f. by case_decide.
Qed.

(** No key of the 3D view changes an elevation or a size. *)
Lemma onKey_held item key inputFocused s :
  heldAt item s → heldAt item (onKey key inputFocused s).
Proof.
  intros Hheld. unfold onKey. destruct (HouseStore.selectedFurnitureId s) as [sel|]; [|done].
  case_decide; [done|]. destruct inputFocused; [done|].
  destruct (List.find _ _) as [it|]; [|done].
  destruct (Furniture.position it) as [[x y] z].
  destruct key; simpl; try done;
    (apply heldAt_map; [|done]; intros f; by case_decide).
Qed.

Lemma drag_ok item events s :
  furnitureOk s → item ∈ HouseStore.furniture s → furnitureOk (drag item events s).
Proof.
  intros Hok Hin. unfold drag.
  assert (furnitureOk (onPointerDown item s) ∧ heldAt item (onPointerDown item s)) as H.
  { split; [done|]. intros f Hf Hid.
    assert (f = item) as -> by (by apply (same_id_same_item _ _ _ (proj1 Hok) Hf Hin)).
    by apply (proj1 (Forall_forall _ _) (proj2 Hok)). }
  revert H. generalize (onPointerDown item s). clear s Hok Hin.
  induction events as [|ev events IH]; intros s [Hok Hheld]; [done|].
  cbn [foldl]. apply IH. destruct ev as [x z | key foc]; cbn [dragStep].
  - by apply dragFurniture_held.
  - split; [by apply onKey_ok | by apply onKey_held].
Qed.

(** The moves of a drag write a stale height: an elevation typed into the
    inspector while the pointer is down is kept in [elevation], but the
    next pointer move puts the piece back at its old height. *)
Lemma elevation_edit_during_drag :
  HouseStore.furniture (handleElevationChange 1000 (onPointerDown sofaPiece sofaStore))
  = [Furniture.mk "a" "sofa" (0, 1000 / 1000 + 7 / 10 / 2, 0)%R
       (18 / 10, 7 / 10, 8 / 10)%R "#c0392b" (Some 0%R) (Some (1000 / 1000)%R)].
Proof.
  unfold handleElevationChange, selectedItem, updateFurnitureElevation, onPointerDown,
    selectOpening, selectFurniture, setSelectedFurnitureId, sofaStore, handleAdd,
    addFurniture, setFurniture, initialStore, normalizeFurniture, sofaPiece, sofa.
  simpl. destruct (decide (1000 >= 0)%R) as [_|]; [|lra]. reflexivity.
Qed.

Lemma drag_after_elevation_edit :
  furnitureOk (handleElevationChange 1000 (onPointerDown sofaPiece sofaStore))
  ∧ ¬ furnitureOk (dragFurniture sofaPiece 1 1
                     (handleElevationChange 1000 (onPointerDown sofaPiece sofaStore))).
Proof.
  split.
  - split.
    + unfold furnitureIds. rewrite elevation_edit_during_drag. apply NoDup_singleton.
    + rewrite elevation_edit_during_drag. apply Forall_singleton.
      unfold grounded, bottom, sizeH, orZero; simpl. lra.
  - intros [_ H]. revert H. unfold dragFurniture, updateFurniturePosition.
    cbn [setFurniture HouseStore.furniture]. rewrite elevation_edit_during_drag.
    simpl. intros H. apply (proj1 (Forall_singleton _ _)) in H. revert H.
    unfold grounded, bottom, sizeH, orZero; simpl. lra.
Qed.

(** X11.  Starting from a furniture list with unique ids in which every
    piece stands at its elevation ([position[1] = elevation + size[1] / 2]),
    each edit the application offers keeps both: adding from the palette
    (under a fresh id), changing a size or the elevation in the inspector,
    the two rotation buttons, every key of the 3D view, removing a piece,
    and a whole drag of a piece of the store: the pointer-down, then
    pointer moves, each writing the height the piece had when the pointer
    went down, and key presses of the 3D view in any order. *)
Theorem furnitureOk_preserved (s : HouseStore.t) :
  furnitureOk s →
  (∀ uuid tmpl, uuid ∉ furnitureIds s → furnitureOk (handleAdd uuid tmpl s))
  ∧ (∀ axis mm, furnitureOk (handleSizeChange axis mm s))
  ∧ (∀ v, furnitureOk (handleElevationChange v s))
  ∧ furnitureOk (handleRotateMinus s)
  ∧ furnitureOk (handleRotatePlus s)
  ∧ (∀ key inputFocused, furnitureOk (onKey key inputFocused s))
  ∧ (∀ item events, item ∈ HouseStore.furniture s → furnitureOk (drag item events s))
  ∧ (∀ id, furnitureOk (removeFurniture id s)).
Proof.
  intros Hok. repeat match goal with |- _ ∧ _ => split end.
  - intros. by apply handleAdd_ok.
  - intros axis mm. unfold handleSizeChange. destruct (selectedItem s); [|done].
    by apply updateFurnitureSize_ok.
  - intros v. unfold handleElevationChange. destruct (selectedItem s); [|done].
    case_decide; [|done]. by apply updateFurnitureElevation_ok.
  - unfold handleRotateMinus. destruct (selectedItem s); [|done].
    by apply updateFurniture_ok.
  - unfold handleRotatePlus. destruct (selectedItem s); [|done].
    by apply updateFurniture_ok.
  - intros. by apply onKey_ok.
  - intros item events Hin. by apply drag_ok.
  - intros. by apply removeFurniture_ok.
Qed.

(** The theorem at the store with one sofa: the sofa is dragged to
    [(1, 1)], nudged with [ArrowLeft] while the pointer is down, and
    dragged on to [(2, 0)]. *)
Lemma furnitureOk_preserved_witness :
  furnitureOk
    (drag sofaPiece [PointerMove 1 1; KeyDown ArrowLeft false; PointerMove 2 0] sofaStore).
Proof.
  refine (proj1 (proj2 (proj2 (proj2 (proj2 (proj2 (proj2
            (furnitureOk_preserved sofaStore _)))))))
            sofaPiece [PointerMove 1 1; KeyDown ArrowLeft false; PointerMove 2 0] _).
  - split.
    + apply NoDup_singleton.
    + apply Forall_singleton. unfold grounded, bottom, sizeH, orZero; simpl. lra.
  - left.
Defined.

Lemma orderedPairs_sublist (l1 l2 : list Furniture.t) p :
  l1 `sublist_of` l2 → p ∈ orderedPairs l1 → p ∈ orderedPairs l2.
Proof.
  intros Hs. revert p. induction Hs as [|x l1 l2 Hs IH|x l1 l2 Hs IH]; intros p; simpl.
  - done.
  - rewrite !elem_of_app, !list_elem_of_fmap. intros [(y & -> & Hy)|H].
    + left. exists y. split; [done|]. by eapply elem_of_sublist.
    + right. by apply IH.
  - intros H. apply elem_of_app. right. by apply IH.
Qed.

Lemma getCollidingIds_sublist (l1 l2 : list Furniture.t) :
  l1 `sublist_of` l2 → getCollidingIds l1 ⊆ getCollidingIds l2.
Proof.
  intros Hs t. rewrite !getCollidingIds_elem. intros (p & Hp & Hi).
  exists p. split; [by eapply orderedPairs_sublist | done].
Qed.

(** X12.  Removing a piece leaves no piece with that id, keeps every other
    piece in place and in order, never leaves the removed id selected, and
    never makes a piece collide that did not collide before. *)
Theorem removeFurniture_spec (id : string) (s : HouseStore.t) :
  let s' := removeFurniture id s in
  (id ∉ furnitureIds s')
  ∧ (HouseStore.furniture s' `sublist_of` HouseStore.furniture s)
  ∧ (∀ f, f ∈ HouseStore.furniture s → Furniture.id f ≠ id → f ∈ HouseStore.furniture s')
  ∧ HouseStore.selectedFurnitureId s' ≠ Some id
  ∧ (HouseStore.selectedFurnitureId s ≠ Some id →
     HouseStore.selectedFurnitureId s' = HouseStore.selectedFurnitureId s)
  ∧ getCollidingIds (HouseStore.furniture s') ⊆ getCollidingIds (HouseStore.furniture s)
  ∧ id ∉ getCollidingIds (HouseStore.furniture s').
Proof.
  assert (id ∉ furnitureIds (removeFurniture id s)) as Hnot.
  { unfold furnitureIds; simpl.
    intros (f & -> & [Hf _]%list_elem_of_filter)%list_elem_of_fmap. done. }
  simpl. repeat match goal with |- _ ∧ _ => split end.
  - exact Hnot.
  - apply sublist_filter.
  - intros f Hf Hid. by apply list_elem_of_filter.
  - by case_decide.
  - intros H. by case_decide.
  - apply getCollidingIds_sublist, sublist_filter.
  - intros ([u v] & [Hu Hv]%orderedPairs_elem & _ & Hid)%getCollidingIds_elem.
    apply Hnot. unfold furnitureIds; simpl in *.
    destruct Hid as [-> | ->]; by apply list_elem_of_fmap_2.
Qed.

(** ** The store: measuring *)

(** X13.  Measuring.  Outside measure mode a click on the floor changes
    nothing; in measure mode it leaves one or two measure points, the newest
    last.  Two clicks after switching the tool on give a measurement with no
    height difference, whose total distance is the horizontal one; a third
    click starts over and nothing is shown. *)
Theorem measure_session (s : HouseStore.t) (x z x0 z0 x1 z1 : R) :
  let s' := measureClick x z s in
  let s2 := measureClick x1 z1 (measureClick x0 z0 (setMeasureMode true s)) in
  (if HouseStore.measureMode s
   then (1 <= length (HouseStore.measurePoints s') <= 2)%nat
        ∧ last (HouseStore.measurePoints s') = Some (MeasurePoint.mk x 0 z)
   else s' = s)
  ∧ measureDistances (measureClick x0 z0 (setMeasureMode true s)) = None
  ∧ measureDistances s2
    = Some (hypot (x1 - x0) (z1 - z0), 0%R, hypot (x1 - x0) (z1 - z0))
  ∧ measureDistances (measureClick x z s2) = None.
Proof.
  simpl. repeat match goal with |- _ ∧ _ => split end.
  - unfold measureClick. destruct (HouseStore.measureMode s); [|done].
    unfold addMeasurePoint. case_decide; simpl.
    + split; [lia | done].
    + rewrite length_app, last_snoc; simpl. split; [lia | done].
  - done.
  - unfold measureDistances, measureClick, addMeasurePoint, setMeasureMode; simpl.
    unfold hypot. do 2 f_equal; [f_equal | f_equal; ring].
    rewrite Rminus_diag. apply Rabs_R0.
  - done.
Qed.

(** X14.  The three distances of the measure panel are those of a right
    triangle: the total distance is the hypotenuse over the horizontal
    distance and the height difference.  None of them is negative, and the
    total is the largest. *)
Theorem measureDistances_pythagoras (s : HouseStore.t) (hDist vDiff totalDist : R) :
  measureDistances s = Some (hDist, vDiff, totalDist) →
  (totalDist * totalDist = hDist * hDist + vDiff * vDiff)%R
  ∧ (0 <= hDist <= totalDist)%R ∧ (0 <= vDiff <= totalDist)%R.
Proof.
  unfold measureDistances. destruct (HouseStore.measureMode s); [|done].
  destruct (HouseStore.measurePoints s) as [|p0 [|p1 [|]]]; try done.
  destruct (HouseStore.measureHeights s) as [h1 h2]. intros [= <- <- <-].
  set (dx := (MeasurePoint.x p1 - MeasurePoint.x p0)%R).
  set (dz := (MeasurePoint.z p1 - MeasurePoint.z p0)%R).
  set (dh := (h2 - h1)%R).
  assert (0 <= dx * dx + dz * dz)%R as H1 by nra.
  assert (0 <= dx * dx + dh ^ 2 + dz * dz)%R as H2 by nra.
  pose proof (sqrt_sqrt _ H1) as E1. pose proof (sqrt_sqrt _ H2) as E2.
  pose proof (sqrt_pos (dx * dx + dz * dz)) as P1.
  pose proof (sqrt_pos (dx * dx + dh ^ 2 + dz * dz)) as P2.
  pose proof (Rabs_pos dh) as P3.
  assert (Rabs dh * Rabs dh = dh * dh)%R as E3.
  { rewrite <- Rabs_mult. apply Rabs_pos_eq. nra. }
  assert (sqrt (dx * dx + dz * dz) <= sqrt (dx * dx + dh ^ 2 + dz * dz))%R as L1
    by (apply sqrt_le_1; nra).
  assert (Rabs dh <= sqrt (dx * dx + dh ^ 2 + dz * dz))%R as L2.
  { rewrite <- (sqrt_Rsqr (Rabs dh)) by done. apply sqrt_le_1; unfold Rsqr; nra. }
  repeat split; try done.
  replace (dh * (dh * 1))%R with (dh ^ 2)%R by (simpl; lra).
  rewrite E1, E2, E3. simpl. lra.
Qed.

Lemma measureDistances_pythagoras_witness :
  ∃ hDist vDiff totalDist,
    measureDistances
      (setMeasureHeight true 2
         (measureClick 3 4 (measureClick 0 0 (setMeasureMode true initialStore))))
    = Some (hDist, vDiff, totalDist)
    ∧ (totalDist * totalDist = hDist * hDist + vDiff * vDiff)%R.
Proof.
  do 3 eexists. split; [reflexivity|].
  refine (proj1 (measureDistances_pythagoras
                   (setMeasureHeight true 2
         (measureClick 3 4 (measureClick 0 0 (setMeasureMode true initialStore))))
                   _ _ _ eq_refl)).
Defined.

(** ** Quarter turns *)










(** ** The palette *)

Lemma cross_lookup (la lb : list R) (i j : nat) (x y : R) :
  la !! i = Some x → lb !! j = Some y → (x < y)%R → (minimum la < maximum lb)%R.
Proof.
  intros Hi Hj Hlt.
  assert (∀ l z, z ∈ l → (minimum l <= z <= maximum l)%R) as Hb.
  { intros l z Hz. destruct l as [|d l]; [inversion Hz|]. simpl.
    destruct (foldl_Rmin_le l d) as [H1 H2], (foldl_Rmax_ge l d) as [H3 H4].
    apply elem_of_cons in Hz as [->|Hz]; split; auto. }
  apply list_elem_of_lookup_2 in Hi, Hj.
  destruct (Hb la x Hi), (Hb lb y Hj). lra.
Qed.

(** Two boxes about the same floor point, turned alike, that overlap in
    height. *)
Lemma concentric_collide (a b : Furniture.t) :
  posX a = posX b → posZ a = posZ b →
  orZero (Furniture.rotation a) = orZero (Furniture.rotation b) →
  verticalOverlap a b →
  (0 < sizeW a)%R → (0 < sizeD a)%R → (0 < sizeW b)%R → (0 < sizeD b)%R →
  checkCollision a b = true.
Proof.
  intros Hx Hz Hr Hv Hwa Hda Hwb Hdb. apply checkCollision_true. split; [done|].
  pose proof (sin2_cos2 (orZero (Furniture.rotation a))) as Hsc. unfold Rsqr in Hsc.
  intros n Hn. unfold satAxes in Hn. rewrite !getFootprint_corners in *.
  rewrite <- Hx, <- Hz, <- Hr in *.
  set (c := cos _) in *. set (s := sin _) in *. clearbody c s.
  set (wa := sizeW a) in *. set (da := sizeD a) in *.
  set (wb := sizeW b) in *. set (db := sizeD b) in *. clearbody wa da wb db.
  set (px := posX a) in *. set (pz := posZ a) in *. clearbody px pz.
  assert (0 < wa * da)%R by nra. assert (0 < wa * db)%R by nra.
  assert (0 < wb * da)%R by nra. assert (0 < wb * db)%R by nra.
  unfold overlapOn, project.
  unfold edgeNormals, edgeNormal, vertex in Hn; simpl in Hn.
  repeat (apply elem_of_cons in Hn as [->|Hn]); try (by inversion Hn);
    cbn [fst snd]; split;
    first
      [ eapply (cross_lookup _ _ 0 2); [reflexivity | reflexivity | simpl; nra]
      | eapply (cross_lookup _ _ 1 0); [reflexivity | reflexivity | simpl; nra]
      | eapply (cross_lookup _ _ 2 0); [reflexivity | reflexivity | simpl; nra]
      | eapply (cross_lookup _ _ 0 1); [reflexivity | reflexivity | simpl; nra] ].
Qed.

(** X16.  A piece taken from the palette is put at the origin of the floor.
    Taking two pieces in a row, without moving the first, therefore leaves
    both of them marked as colliding, whatever their (positive) sizes. *)
Theorem handleAdd_twice_collide (uuid1 uuid2 : string)
    (t1 t2 : FurnitureTemplate.t) (s : HouseStore.t) :
  (let '(w, h, d) := FurnitureTemplate.size t1 in 0 < w ∧ 0 < h ∧ 0 < d)%R →
  (let '(w, h, d) := FurnitureTemplate.size t2 in 0 < w ∧ 0 < h ∧ 0 < d)%R →
  let s2 := handleAdd uuid2 t2 (handleAdd uuid1 t1 s) in
  uuid1 ∈ getCollidingIds (HouseStore.furniture s2)
  ∧ uuid2 ∈ getCollidingIds (HouseStore.furniture s2).
Proof.
  destruct (FurnitureTemplate.size t1) as [[w1 h1] d1] eqn:E1.
  destruct (FurnitureTemplate.size t2) as [[w2 h2] d2] eqn:E2.
  intros (Hw1 & Hh1 & Hd1) (Hw2 & Hh2 & Hd2) s2.
  set (f1 := normalizeFurniture
               (Furniture.mk uuid1 (FurnitureTemplate.name t1)
                  (0, snd (fst (FurnitureTemplate.size t1)) / 2, 0)%R
                  (FurnitureTemplate.size t1) (FurnitureTemplate.color t1)
                  (Some 0%R) (Some 0%R))).
  set (f2 := normalizeFurniture
               (Furniture.mk uuid2 (FurnitureTemplate.name t2)
                  (0, snd (fst (FurnitureTemplate.size t2)) / 2, 0)%R
                  (FurnitureTemplate.size t2) (FurnitureTemplate.color t2)
                  (Some 0%R) (Some 0%R))).
  assert (HouseStore.furniture s2 = HouseStore.furniture s ++ [f1; f2]) as ->
    by (subst s2; simpl; by rewrite <- app_assoc).
  assert (checkCollision f1 f2 = true) as Hc.
  { apply concentric_collide; try done;
      unfold verticalOverlap, top, bottom, sizeW, sizeD, f1, f2; simpl;
      rewrite ?E1, ?E2; simpl; lra. }
  assert ((f1, f2) ∈ orderedPairs (HouseStore.furniture s ++ [f1; f2])) as Hin.
  { apply (orderedPairs_sublist [f1; f2]); [apply sublist_inserts_l; done|].
    simpl. by left. }
  split; apply getCollidingIds_elem; exists (f1, f2); (split; [done|]);
    (split; [done|]); simpl; auto.
Qed.

Lemma handleAdd_twice_collide_witness :
  "b"%string ∈ getCollidingIds
    (HouseStore.furniture
       (handleAdd "b" (FurnitureTemplate.mk "bed" (14 / 10, 5 / 10, 2)%R "#2980b9" "bed")
          (handleAdd "a" (FurnitureTemplate.mk "sofa" (18 / 10, 7 / 10, 8 / 10)%R "#c0392b" "sofa")
             initialStore))).
Proof.
  refine (proj2 (handleAdd_twice_collide "a" "b" _ _ initialStore _ _));
    simpl; lra.
Defined.

(** ** The editor: view transform *)


(** X17.  The pointer mapping inverts the drawing transform: a world point
    drawn on the canvas is found again under the pointer, and the other way
    round, as long as the scale is not zero. *)
Theorem cssPxToWorld_viewTransform (view : ViewState.t) (p : R * R) :
  ViewState.scale view ≠ 0%R →
  cssPxToWorld (viewTransform view p) view = p
  ∧ viewTransform view (cssPxToWorld p view) = p.
Proof.
  intros Hs. destruct p as [x y]. unfold cssPxToWorld, viewTransform; simpl.
  split; f_equal; field; done.
Qed.

Lemma cssPxToWorld_viewTransform_witness :
  cssPxToWorld (viewTransform (ViewState.mk 2 30 (-5)) (10, 20)%R) (ViewState.mk 2 30 (-5))
  = (10, 20)%R.
Proof.
  refine (proj1 (cssPxToWorld_viewTransform (ViewState.mk 2 30 (-5)) (10, 20)%R _)).
  simpl. lra.
Defined.

(** X18.  At a positive scale, zooming keeps a point of the plan fixed on
    the screen: the wheel keeps the one under the pointer, the two buttons
    the one at the centre of the canvas.  The wheel leaves the scale between
    0.3 and 8, zooming in leaves it positive and at most 8, zooming out at
    least 0.3. *)
Theorem zoom_keeps_anchor (cssX cssY deltaY : R) (prev : ViewState.t) :
  (0 < ViewState.scale prev)%R →
  let centre := (CANVAS_W / 2, CANVAS_H / 2)%R in
  cssPxToWorld (cssX, cssY) (wheelZoom cssX cssY deltaY prev)
    = cssPxToWorld (cssX, cssY) prev
  ∧ cssPxToWorld centre (zoomIn prev) = cssPxToWorld centre prev
  ∧ cssPxToWorld centre (zoomOut prev) = cssPxToWorld centre prev
  ∧ (3 / 10 <= ViewState.scale (wheelZoom cssX cssY deltaY prev) <= 8)%R
  ∧ (0 < ViewState.scale (zoomIn prev) <= 8)%R
  ∧ (3 / 10 <= ViewState.scale (zoomOut prev))%R.
Proof.
  intros Hs centre. subst centre.
  assert (∀ c p ns : R, ns ≠ 0%R →
            ((c - (c - (c - p) * (ns / ViewState.scale prev))) / ns
             = (c - p) / ViewState.scale prev)%R) as Hk.
  { intros c p ns Hns. field. split; [lra | done]. }
  assert (∀ x, 3 / 10 <= Rmax (3 / 10) x)%R as Hmax by (intros; apply Rmax_l).
  assert (0 < Rmin 8 (ViewState.scale prev * (125 / 100)))%R as Hin
    by (apply Rmin_glb_lt; lra).
  repeat match goal with |- _ ∧ _ => split end.
  - unfold cssPxToWorld, wheelZoom; cbn [fst snd ViewState.scale ViewState.panX ViewState.panY].
    rewrite !Hk; [done | |]; specialize (Hmax (Rmin 8 (ViewState.scale prev *
      (if decide (deltaY < 0)%R then 112 / 100 else 1 / (112 / 100))))%R); lra.
  - unfold cssPxToWorld, zoomIn; cbn [fst snd ViewState.scale ViewState.panX ViewState.panY].
    rewrite !Hk; [done | lra | lra].
  - unfold cssPxToWorld, zoomOut; cbn [fst snd ViewState.scale ViewState.panX ViewState.panY].
    rewrite !Hk; [done | |]; specialize (Hmax (ViewState.scale prev * (1 / (125 / 100)))%R); lra.
  - apply Hmax.
  - simpl. apply Rmax_lub; [lra | apply Rmin_l].
  - exact Hin.
  - simpl. apply Rmin_l.
  - apply Hmax.
Qed.

Lemma zoom_keeps_anchor_witness :
  cssPxToWorld (100, 50)%R (wheelZoom 100 50 (-1) (ViewState.mk 1 0 0))
  = cssPxToWorld (100, 50)%R (ViewState.mk 1 0 0).
Proof.
  refine (proj1 (zoom_keeps_anchor 100 50 (-1) (ViewState.mk 1 0 0) _)). simpl. lra.
Defined.



(** ** The editor: picking and gestures *)

Lemma insideRoom_covers (px py : R) (r : Room.t) :
  insideRoom px py r = true ↔ covers r px py.
Proof.
  unfold insideRoom, covers.
  rewrite !andb_true_iff, !bool_decide_eq_true. split; intros; repeat split; lra.
Qed.

Lemma hitRoom_snoc (rooms : list Room.t) (r : Room.t) (px py : R) :
  hitRoom (rooms ++ [r]) px py
  = if insideRoom px py r then Some r else hitRoom rooms px py.
Proof. unfold hitRoom. by rewrite rev_unit. Qed.

(** X20.  Picking returns the topmost room under the pointer, that is the
    last one of the list whose rectangle holds the point, and nothing
    exactly when no room holds it. *)
Theorem hitRoom_spec (rooms : list Room.t) (px py : R) :
  match hitRoom rooms px py with
  | Some r =>
      ∃ below above, rooms = below ++ r :: above ∧ covers r px py
                     ∧ Forall (λ r', ¬ covers r' px py) above
  | None => Forall (λ r, ¬ covers r px py) rooms
  end.
Proof.
  induction rooms as [|r rooms IH] using rev_ind; [by constructor|].
  rewrite hitRoom_snoc. destruct (insideRoom px py r) eqn:E.
  - exists rooms, []. by rewrite <- insideRoom_covers.
  - assert (¬ covers r px py) as Hr by (rewrite <- insideRoom_covers; congruence).
    destruct (hitRoom rooms px py) as [hit|].
    + destruct IH as (below & above & -> & Hc & Ha).
      exists below, (above ++ [r]). rewrite <- app_assoc. split; [done|]. split; [done|].
      apply Forall_app. split; [done | by constructor].
    + apply Forall_app. split; [done | by constructor].
Qed.

(** X21.  Drawing a room.  Pressing in draw mode (with any button but the
    middle one), dragging and releasing adds one room exactly when the pointer went more than 10 pixels (of
    the plan) both ways; the room is the rectangle spanned by the two
    points.  Otherwise, and for a press and release on the spot, the store
    is left as it was.  No drag remains in progress. *)
Theorem draw_gesture (trim : string → string) (uuid0 uuid : string) (button : Z)
    (css0 css1 : R * R) (ed : Editor.t) (s : HouseStore.t) :
  Editor.mode ed = ModeDraw → button ≠ 1%Z →
  let p0 := cssPxToWorld css0 (Editor.view ed) in
  let p1 := cssPxToWorld css1 (Editor.view ed) in
  let pressed := onMouseDown uuid0 button css0 (ed, s) in
  let released := onMouseUp trim uuid (onMouseMove css1 pressed) in
  Editor.dragState (fst released) = None
  ∧ snd (onMouseUp trim uuid pressed) = s
  ∧ if decide (10 < Rabs (fst p1 - fst p0) ∧ 10 < Rabs (snd p1 - snd p0))%R
    then ∃ r, HouseStore.rooms (snd released) = HouseStore.rooms s ++ [r]
              ∧ Room.id r = uuid
              ∧ cornerOf TL r = (Rmin (fst p0) (fst p1), Rmin (snd p0) (snd p1))
              ∧ cornerOf BR r = (Rmax (fst p0) (fst p1), Rmax (snd p0) (snd p1))
    else snd released = s.
Proof.
  intros Hmode Hb p0 p1 pressed released.
  assert (pressed = (setDragState (Some (DrawDrag (fst p0) (snd p0) (fst p0) (snd p0))) ed, s))
    as Ep.
  { subst pressed p0. unfold onMouseDown. case_decide; [done|].
    destruct (cssPxToWorld css0 (Editor.view ed)) as [x0 y0]. by rewrite Hmode. }
  assert (onMouseMove css1 pressed
          = (setDragState (Some (DrawDrag (fst p0) (snd p0) (fst p1) (snd p1))) ed, s)) as Em.
  { rewrite Ep. subst p1. unfold onMouseMove. cbn [setDragState Editor.view Editor.dragState Editor.mode].
    destruct (cssPxToWorld css1 (Editor.view ed)) as [x1 y1]. by rewrite Hmode. }
  subst released. rewrite Em, Ep. clear Ep Em pressed.
  generalize (fst p0) (snd p0) (fst p1) (snd p1). clear p0 p1. intros x0 y0 x1 y1.
  unfold onMouseUp. cbn [setDragState Editor.dragState].
  rewrite !Rminus_diag, Rabs_R0.
  repeat match goal with |- _ ∧ _ => split end.
  - by case_decide.
  - case_decide as E; [lra | done].
  - case_decide as E; [|done]. eexists. split; [reflexivity|]. split; [done|].
    unfold cornerOf; cbn [Room.x Room.y Room.width Room.height].
    split; [done|]. destruct E as [E1 E2].
    unfold Rabs, Rmin, Rmax. repeat destruct Rcase_abs; repeat destruct Rle_dec;
      f_equal; lra.
Qed.

(** The theorem at a press at [(30, 40)] and a release at [(60, 80)] on the
    empty plan: one room is added, spanning the two points. *)
Lemma draw_gesture_witness :
  ∃ r, HouseStore.rooms
         (snd (onMouseUp (λ t, t) "r1"
                 (onMouseMove (60, 80)%R
                    (onMouseDown "r0" 0 (30, 40)%R (initialEditor, initialStore)))))
       = [r]
       ∧ Room.id r = "r1"%string
       ∧ cornerOf TL r = (Rmin ((30 - 0) / 1) ((60 - 0) / 1), Rmin ((40 - 0) / 1) ((80 - 0) / 1))
       ∧ cornerOf BR r = (Rmax ((30 - 0) / 1) ((60 - 0) / 1), Rmax ((40 - 0) / 1) ((80 - 0) / 1)).
Proof.
  pose proof (draw_gesture (λ t, t) "r0" "r1" 0 (30, 40)%R (60, 80)%R
                initialEditor initialStore eq_refl ltac:(done)) as H.
  cbv zeta in H. destruct H as (_ & _ & H).
  destruct (decide _) as [_ | n] in H.
  - exact H.
  - exfalso. apply n. cbn [cssPxToWorld fst snd initialEditor Editor.view ViewState.scale
                           ViewState.panX ViewState.panY].
    split; rewrite Rabs_right; lra.
Defined.

Lemma find_room_elem (l : list Room.t) (sel : string) (r : Room.t) :
  List.find (λ r, bool_decide (Room.id r = sel)) l = Some r → r ∈ l ∧ Room.id r = sel.
Proof.
  intros [Hin Hid%bool_decide_eq_true]%find_some. split; [by apply list_elem_of_In | done].
Qed.

Lemma hitRoom_elem (rooms : list Room.t) (px py : R) (hit : Room.t) :
  hitRoom rooms px py = Some hit → hit ∈ rooms.
Proof.
  unfold hitRoom. intros [Hin _]%find_some. apply list_elem_of_In. by apply in_rev.
Qed.

Lemma same_id_same_room (l : list Room.t) (f g : Room.t) :
  NoDup (Room.id <$> l) → f ∈ l → g ∈ l → Room.id f = Room.id g → f = g.
Proof.
  induction l as [|x l IH]; simpl; [intros _ H; inversion H|].
  intros [Hx Hnd]%NoDup_cons [->|Hf]%elem_of_cons [->|Hg]%elem_of_cons Hid;
    [done | | | by apply IH].
  - destruct Hx. rewrite Hid. by apply list_elem_of_fmap_2.
  - destruct Hx. rewrite <- Hid. by apply list_elem_of_fmap_2.
Qed.

(** What a press did, read off the drag it started. *)
Lemma onMouseDown_drag (uuid : string) (button : Z) (css : R * R)
    (ed : Editor.t) (s : HouseStore.t) :
  Editor.dragState ed = None →
  let p := cssPxToWorld css (Editor.view ed) in
  let pressed := onMouseDown uuid button css (ed, s) in
  match Editor.dragState (fst pressed) with
  | Some (MoveDrag roomId offsetX offsetY) =>
      Editor.mode ed = ModeEdit
      ∧ ∃ hit, hitRoom (HouseStore.rooms s) (fst p) (snd p) = Some hit
               ∧ roomId = Room.id hit
               ∧ offsetX = (fst p - Room.x hit)%R ∧ offsetY = (snd p - Room.y hit)%R
               ∧ pressed = (setDragState (Some (MoveDrag roomId offsetX offsetY)) ed,
                            selectRoom (Some roomId) s)
  | Some (ResizeDrag roomId corner orig startX startY) =>
      Editor.mode ed = ModeEdit
      ∧ orig ∈ HouseStore.rooms s ∧ Room.id orig = roomId
      ∧ HouseStore.selectedRoomId s = Some roomId
      ∧ hitCorner (Editor.view ed) orig (fst p) (snd p) = Some corner
      ∧ startX = fst p ∧ startY = snd p
      ∧ pressed = (setDragState (Some (ResizeDrag roomId corner orig startX startY)) ed, s)
  | _ => True
  end.
Proof.
  intros Hnone p pressed. subst pressed p. unfold onMouseDown.
  case_decide; [done|].
  destruct (cssPxToWorld css (Editor.view ed)) as [x y]. cbn [fst snd].
  destruct (Editor.mode ed) eqn:Hmode.
  - done.
  - set (handle := match HouseStore.selectedRoomId s with Some _ => _ | None => _ end).
    destruct handle as [ds|] eqn:Eh.
    + cbn [fst setDragState Editor.dragState]. subst handle.
      destruct (HouseStore.selectedRoomId s) as [selId|]; [|done].
      case_decide; [done|].
      destruct (List.find _ _) as [sel|] eqn:Ef; [|done].
      apply find_room_elem in Ef as [Hin Hid].
      destruct (hitCorner _ _ _ _) as [corner|] eqn:Ec; [|done].
      injection Eh as <-. rewrite Hid. done.
    + destruct (hitRoom (HouseStore.rooms s) x y) as [hit|] eqn:Ehit.
      * cbn [fst setDragState Editor.dragState]. split; [done|]. by exists hit.
      * cbn [fst]. by rewrite Hnone.
  - destruct (hitOpening _ _ _ _); [done|].
    destruct (findNearestWall _ _ _ _); cbn [fst]; by rewrite Hnone.
Qed.

(** X22.  Moving a room.  With unique room ids and no drag in progress, if
    a press in the editor started a move, it was on the topmost room under
    the pointer, which is now selected; dragging then moves that room by as
    much as the pointer moved on the plan and leaves its size and every
    other room alone. *)
Theorem move_gesture (uuid : string) (button : Z) (css0 css1 : R * R)
    (ed : Editor.t) (s : HouseStore.t) (roomId : string) (offsetX offsetY : R) :
  Editor.dragState ed = None → NoDup (roomIds s) →
  let p0 := cssPxToWorld css0 (Editor.view ed) in
  let p1 := cssPxToWorld css1 (Editor.view ed) in
  let pressed := onMouseDown uuid button css0 (ed, s) in
  let moved := onMouseMove css1 pressed in
  Editor.dragState (fst pressed) = Some (MoveDrag roomId offsetX offsetY) →
  (∃ hit, hitRoom (HouseStore.rooms s) (fst p0) (snd p0) = Some hit ∧ Room.id hit = roomId)
  ∧ HouseStore.selectedRoomId (snd moved) = Some roomId
  ∧ HouseStore.rooms (snd moved)
    = map (λ r, if decide (Room.id r = roomId)
                then shiftRoom r (fst p1 - fst p0) (snd p1 - snd p0) else r)
          (HouseStore.rooms s).
Proof.
  intros Hnone Hnd p0 p1 pressed moved Hdrag.
  pose proof (onMouseDown_drag uuid button css0 ed s Hnone) as H. cbv zeta in H.
  fold pressed p0 in H. rewrite Hdrag in H.
  destruct H as (Hmode & hit & Hhit & -> & -> & -> & Ep).
  subst moved. rewrite Ep. unfold onMouseMove.
  cbn [setDragState Editor.view Editor.dragState Editor.mode]. fold p1.
  destruct p1 as [x1 y1]. rewrite Hmode. cbn [fst snd].
  split; [by exists hit|]. split; [done|].
  unfold updateRoom, selectRoom, setSelectedRoomId, setRooms; cbn [HouseStore.rooms].
  apply map_ext_in. intros r Hr%list_elem_of_In. case_decide as E; [|done].
  assert (r = hit) as ->
    by (apply (same_id_same_room _ _ _ Hnd Hr (hitRoom_elem _ _ _ _ Hhit) E)).
  unfold patchRoom, shiftRoom; simpl. f_equal; lra.
Qed.

Lemma press_inside_roomA :
  Editor.dragState
    (fst (onMouseDown "u" 0 (50, 50)%R (editingEditor, oneRoomStore)))
  = Some (MoveDrag "A" ((50 - 0) / 1 - 0) ((50 - 0) / 1 - 0)).
Proof.
  unfold onMouseDown. case_decide; [done|].
  cbn [cssPxToWorld fst snd editingEditor Editor.view Editor.mode
       ViewState.panX ViewState.panY ViewState.scale oneRoomStore setRooms initialStore
       HouseStore.selectedRoomId HouseStore.rooms].
  assert (hitRoom [roomA] ((50 - 0) / 1) ((50 - 0) / 1) = Some roomA) as ->; [|done].
  unfold hitRoom; cbn [rev app List.find].
  rewrite (proj2 (insideRoom_covers _ _ roomA)); [done|].
  unfold covers, roomA, room; simpl. lra.
Qed.

Lemma move_gesture_witness :
  HouseStore.selectedRoomId
    (snd (onMouseMove (60, 50)%R
            (onMouseDown "u" 0 (50, 50)%R (editingEditor, oneRoomStore))))
  = Some "A"%string.
Proof.
  refine (proj1 (proj2 (move_gesture "u" 0 (50, 50)%R (60, 50)%R
                          editingEditor oneRoomStore "A" _ _ _ _ press_inside_roomA))).
  - done.
  - apply NoDup_singleton.
Defined.

Lemma Forall2_map_self {A : Type} (P : A → A → Prop) (g : A → A) (l : list A) :
  (∀ x, x ∈ l → P x (g x)) → Forall2 P l (map g l).
Proof.
  induction l as [|x l IH]; intros H; simpl; constructor.
  - apply H. left.
  - apply IH. intros y Hy. apply H. by right.
Qed.






(** ** From the plan to the scene *)

Lemma Rabs_half (t δ k : R) :
  (5 / 100 <= t <= 95 / 100)%R → (0 <= k)%R →
  (Rabs ((t - 1 / 2) * δ * k) <= Rabs (δ * k) / 2)%R.
Proof.
  intros Ht Hk. unfold Rabs. repeat destruct Rcase_abs; nra.
Qed.

Ltac along_wall t len Ht :=
  unfold alongWall, openingWorldX, openingWorldZ, openingRotY, newOpening, pointAt,
    SCALE, OFFSET; simpl;
  repeat split; try lra;
  pose proof (Rabs_half t len (5 / 100) Ht ltac:(lra));
  match goal with |- (Rabs ?a <= Rabs ?b / 2)%R =>
    replace a with ((t - 1 / 2) * len * (5 / 100))%R by lra;
    replace b with (len * (5 / 100))%R by lra end; done.

Lemma snapped_along_wall (rooms : list Room.t) (cx cy snapDist : R) (hit : WallHit.t)
    (uuid : string) (kind : OpeningKind) :
  findNearestWall rooms cx cy snapDist = Some hit →
  ∃ room wall, room ∈ rooms ∧ wall ∈ roomWalls room
               ∧ alongWall (newOpening uuid kind hit) wall
               ∧ (dist cx cy (WallHit.canvasX hit) (WallHit.canvasY hit) < snapDist)%R.
Proof.
  intros (seg & (room & Hroom & Hseg)%allSegs_elem & _ & -> & Hd & _)%findNearestWall_Some.
  pose proof (clampedParam_range seg cx cy) as Ht.
  exists room.
  cut (∃ wall, wall ∈ roomWalls room ∧ alongWall (newOpening uuid kind (hitOn seg cx cy)) wall).
  { intros (wall & Hw & Ha). exists wall. by repeat split. }
  clear Hd. unfold hitOn. set (t := clampedParam seg cx cy) in *. clearbody t.
  unfold roomWalls, segs in *.
  repeat (apply elem_of_cons in Hseg as [->|Hseg]); try (by inversion Hseg).
  - eexists. split; [left|]. along_wall t (Room.width room) Ht.
  - eexists. split; [right; left|]. along_wall t (Room.width room) Ht.
  - eexists. split; [right; right; left|]. along_wall t (Room.height room) Ht.
  - eexists. split; [right; right; right; left|]. along_wall t (Room.height room) Ht.
Qed.

(** X24.  Placing an opening.  A click in opening mode (with any button
    but the middle one) that is on no existing opening either finds no wall within the snap distance and
    changes nothing, or adds one opening of the chosen kind.  In the 3D
    scene that opening sits on the centre line of one of the four wall
    boxes of some room, within the length of the box and turned along it;
    on the plan it is less than the snap distance away from the click. *)
Theorem place_opening (uuid : string) (button : Z) (css : R * R)
    (ed : Editor.t) (s : HouseStore.t) :
  Editor.mode ed = ModeOpening → button ≠ 1%Z →
  let p := cssPxToWorld css (Editor.view ed) in
  hitOpening (Editor.view ed) (HouseStore.openings s) (fst p) (snd p) = None →
  let s' := snd (onMouseDown uuid button css (ed, s)) in
  (s' = s
   ∧ ∀ seg, seg ∈ allSegs (HouseStore.rooms s) → lenSq seg ≠ 0%R →
            (WALL_SNAP <= wallDistance seg (fst p) (snd p))%R)
  ∨ ∃ o room wall,
      HouseStore.openings s' = HouseStore.openings s ++ [o]
      ∧ HouseStore.rooms s' = HouseStore.rooms s
      ∧ HouseStore.selectedOpeningId s' = None
      ∧ Opening.id o = uuid ∧ Opening.kind o = Editor.openingKind ed
      ∧ room ∈ HouseStore.rooms s ∧ wall ∈ roomWalls room ∧ alongWall o wall
      ∧ (dist (fst p) (snd p) (Opening.canvasX o) (Opening.canvasY o) < WALL_SNAP)%R.
Proof.
  intros Hmode Hb p Hhit s'. subst s'. unfold onMouseDown.
  case_decide; [done|]. fold p. destruct p as [x y]. cbn [fst snd] in *.
  rewrite Hmode, Hhit.
  destruct (findNearestWall (HouseStore.rooms s) x y WALL_SNAP) as [hit|] eqn:E.
  - right.
    destruct (snapped_along_wall _ _ _ _ _ uuid (Editor.openingKind ed) E)
      as (room & wall & Hr & Hw & Ha & Hd).
    exists (newOpening uuid (Editor.openingKind ed) hit), room, wall.
    by repeat split.
  - left. split; [done|]. by apply findNearestWall_None_iff.
Qed.

(** The theorem at a click two pixels below the top wall of [roomA]: a
    window is added, on that wall. *)
Lemma place_opening_witness :
  ∃ o room wall,
    HouseStore.openings (snd (onMouseDown "o1" 0 (50, 2)%R (openingEditor, oneRoomStore)))
    = HouseStore.openings oneRoomStore ++ [o]
    ∧ HouseStore.rooms (snd (onMouseDown "o1" 0 (50, 2)%R (openingEditor, oneRoomStore)))
      = HouseStore.rooms oneRoomStore
    ∧ HouseStore.selectedOpeningId
        (snd (onMouseDown "o1" 0 (50, 2)%R (openingEditor, oneRoomStore))) = None
    ∧ Opening.id o = "o1"%string ∧ Opening.kind o = Window
    ∧ room ∈ HouseStore.rooms oneRoomStore ∧ wall ∈ roomWalls room ∧ alongWall o wall
    ∧ (dist ((50 - 0) / 1) ((2 - 0) / 1) (Opening.canvasX o) (Opening.canvasY o)
       < WALL_SNAP)%R.
Proof.
  destruct (place_opening "o1" 0 (50, 2)%R openingEditor oneRoomStore
              eq_refl ltac:(done) eq_refl) as [[_ Hfar] | H].
  - exfalso.
    specialize (Hfar (Seg.mk 0 0 (0 + 100) 0 AxisH)). revert Hfar.
    cbn [cssPxToWorld fst snd openingEditor Editor.view ViewState.scale
         ViewState.panX ViewState.panY].
    unfold allSegs, lenSq, WALL_SNAP; simpl. intros Hfar.
    assert (14 <= wallDistance (Seg.mk 0 0 (0 + 100) 0 AxisH) ((50 - 0) / 1) ((2 - 0) / 1))%R
      as Hd.
    { apply Hfar; [left | lra]. }
    revert Hd. eval_clamp. apply Rlt_not_le, hypot_lt; lra.
  - exact H.
Defined.

(** X25.  Dragging an opening.  While an opening is dragged in opening
    mode, every opening with another id stays as it is and the dragged one
    keeps its kind and measures; where the pointer has taken it, it either
    snaps to a wall, and then sits along a wall box of some room in the 3D
    scene, or, with no wall within the snap distance, goes exactly there and
    keeps its orientation.  Rooms are not touched. *)
Theorem drag_opening (css : R * R) (ed : Editor.t) (s : HouseStore.t)
    (openingId : string) (startWX startWY origCX origCY : R) :
  Editor.mode ed = ModeOpening →
  Editor.dragState ed = Some (MoveOpeningDrag openingId startWX startWY origCX origCY) →
  let p := cssPxToWorld css (Editor.view ed) in
  let cx := (origCX + (fst p - startWX))%R in
  let cy := (origCY + (snd p - startWY))%R in
  let s' := snd (onMouseMove css (ed, s)) in
  HouseStore.rooms s' = HouseStore.rooms s
  ∧ Forall2
      (λ o o',
         if decide (Opening.id o = openingId)
         then Opening.id o' = Opening.id o ∧ Opening.kind o' = Opening.kind o
              ∧ Opening.widthPx o' = Opening.widthPx o
              ∧ Opening.depthPx o' = Opening.depthPx o
              ∧ Opening.height o' = Opening.height o
              ∧ Opening.sillHeight o' = Opening.sillHeight o
              ∧ ((∃ room wall, room ∈ HouseStore.rooms s ∧ wall ∈ roomWalls room
                               ∧ alongWall o' wall
                               ∧ (dist cx cy (Opening.canvasX o') (Opening.canvasY o')
                                  < WALL_SNAP)%R)
                 ∨ ((∀ seg, seg ∈ allSegs (HouseStore.rooms s) → lenSq seg ≠ 0%R →
                            (WALL_SNAP <= wallDistance seg cx cy)%R)
                    ∧ Opening.canvasX o' = cx ∧ Opening.canvasY o' = cy
                    ∧ Opening.wallAxis o' = Opening.wallAxis o))
         else o' = o)
      (HouseStore.openings s) (HouseStore.openings s').
Proof.
  intros Hmode Hdrag p cx cy s'. subst s'. unfold onMouseMove.
  fold p. destruct p as [x y]. cbn [fst snd] in *. rewrite Hdrag, Hmode. fold cx cy.
  destruct (findNearestWall (HouseStore.rooms s) cx cy WALL_SNAP) as [hit|] eqn:E;
    cbn [snd updateOpening setOpenings HouseStore.rooms HouseStore.openings];
    (split; [done|]); apply Forall2_map_self; intros o Ho; case_decide; try done;
    repeat (split; [done|]).
  - left.
    destruct (snapped_along_wall _ _ _ _ _ EmptyString Door E)
      as (room & wall & Hr & Hw & Ha & Hd).
    exists room, wall. by repeat split.
  - right. split; [by apply findNearestWall_None_iff | done].
Qed.

(** The theorem at a drag of the door of [twoOpeningStore] along the top
    wall of [roomA]: the door snaps to the wall again, and the window stays
    as it is. *)
Lemma drag_opening_witness :
  HouseStore.rooms (snd (onMouseMove (70, 3)%R (draggingO1, twoOpeningStore))) = [roomA]
  ∧ ∃ o', HouseStore.openings (snd (onMouseMove (70, 3)%R (draggingO1, twoOpeningStore)))
          = [o'; windowO2]
          ∧ Opening.id o' = "o1"%string ∧ Opening.kind o' = Door
          ∧ Opening.widthPx o' = DEFAULT_DOOR_W
          ∧ ∃ room wall, room ∈ [roomA] ∧ wall ∈ roomWalls room ∧ alongWall o' wall
              ∧ (dist (50 + ((70 - 0) / 1 - 50)) (0 + ((3 - 0) / 1 - 2))
                      (Opening.canvasX o') (Opening.canvasY o') < WALL_SNAP)%R.
Proof.
  destruct (drag_opening (70, 3)%R draggingO1 twoOpeningStore "o1" 50 2 50 0
              eq_refl eq_refl) as [Hr Ho].
  split; [exact Hr|].
  cbn [twoOpeningStore setOpenings HouseStore.openings] in Ho.
  destruct (HouseStore.openings _) as [|o' [|o2' [|]]];
    try (exfalso; inversion Ho as [|? ? ? ? _ Ho']; try inversion Ho' as [|? ? ? ? _ Ho''];
         try inversion Ho''; fail).
  apply Forall2_cons in Ho as [H1 Ho]. apply Forall2_cons in Ho as [H2 _].
  cbn [doorO1 windowO2 newOpening Opening.id] in H1, H2.
  destruct (decide ("o1" = "o1")%string) as [_|]; [|done].
  destruct (decide ("o2" = "o1")%string) as [|_]; [done|].
  exists o'. rewrite H2. split; [done|].
  destruct H1 as (Hid & Hk & Hw & _ & _ & _ & [H | [Hfar _]]).
  - repeat split; try done. 
  - exfalso.
    specialize (Hfar (Seg.mk 0 0 (0 + 100) 0 AxisH)). revert Hfar.
    cbn [cssPxToWorld fst snd draggingO1 Editor.view ViewState.scale
         ViewState.panX ViewState.panY].
    unfold allSegs, lenSq, WALL_SNAP; simpl. intros Hfar.
    assert (14 <= wallDistance (Seg.mk 0 0 (0 + 100) 0 AxisH)
                    (50 + ((70 - 0) / 1 - 50)) (0 + ((3 - 0) / 1 - 2)))%R as Hd.
    { apply Hfar; [left | lra]. }
    revert Hd. eval_clamp. apply Rlt_not_le, hypot_lt; lra.
Defined.
